(** * Byzantine agreement among generals: the agreement engine of
    [src/general.cc]

    The development embeds the wire codec, the message validator, the
    Lieutenant's round state machine and the decision function, and states
    the properties of the specification over that embedding.

    Conventions.
    - [unsigned int] and [uint32_t] values are integers in [[0, 2^32)],
      [size_t] values integers in [[0, 2^64)]; arithmetic that can leave the
      range has its wrap-around written out.
    - A buffer [(char* buf, size_t n)] is the list of its [n] bytes.
    - [htonl]/[ntohl] followed by a store to, or preceded by a load from, a
      [char] buffer amount to writing or reading four bytes in network
      (big-endian) order, whatever the byte order of the host. *)

From Stdlib Require Import ZArith Lia List.
From Stdlib.Strings Require Import Byte.
From stdpp Require Import base numbers option list sets gmap strings.

Set Warnings "-clear-no-such-hyp".

Local Open Scope Z_scope.

(** ** Machine integers *)

Definition wrap32 (x : Z) : Z := x mod 2 ^ 32.
Definition wrap64 (x : Z) : Z := x mod 2 ^ 64.

Definition is_uint32 (x : Z) : Prop := 0 <= x < 2 ^ 32.

(** ** Bytes and 32-bit words in network byte order *)

Definition Z_of_byte (b : byte) : Z := Z.of_N (Byte.to_N b).

Definition byte_of_Z (x : Z) : byte :=
  default x00 (Byte.of_N (Z.to_N (x mod 256))).

(** The four bytes of [htonl x] as they lie in memory. *)
Definition be32 (x : Z) : list byte :=
  [byte_of_Z (x / 2 ^ 24); byte_of_Z (x / 2 ^ 16); byte_of_Z (x / 2 ^ 8);
   byte_of_Z x].

(** The byte at index [i]. Both decoders check the length before they
    read, so that no load of the program is past the end of its buffer; the
    zero byte given there is never looked at. *)
Definition byte_at (buf : list byte) (i : nat) : byte :=
  default x00 (buf !! i).

(** [ntohl] of the 32-bit word stored at byte offset [off]. *)
Definition load_u32 (buf : list byte) (off : nat) : Z :=
  Z_of_byte (byte_at buf off) * 2 ^ 24
  + Z_of_byte (byte_at buf (off + 1)) * 2 ^ 16
  + Z_of_byte (byte_at buf (off + 2)) * 2 ^ 8
  + Z_of_byte (byte_at buf (off + 3)).

(** Store of [htonl x] at byte offset [off], for a buffer that has the four
    bytes from [off] on (every store of the program is inside its buffer);
    the buffer keeps its size. *)
Definition store_u32 (buf : list byte) (off : nat) (x : Z) : list byte :=
  take off buf ++ be32 x ++ drop (off + 4) buf.

(** [bzero(buf, size)] on a fresh array. *)
Definition bzero (size : nat) : list byte := replicate size x00.

(** ** Messages *)

(** [msg::Order] is carried as the 32-bit value that travels on the wire:
    the decoder casts whatever word it reads to an [Order]. *)
Abbreviation Order := Z (only parsing).

(** Modelled from the spec: the enumerators of [msg::Order], declared in a
    header that is not part of the sources (0 = RETREAT, 1 = ATTACK). *)
Definition RETREAT : Order := 0.
Definition ATTACK : Order := 1.

Record Message := mkMessage {
  round : Z;
  order : Order;
  ids : list Z
}.

#[global] Instance Message_eq_dec : EqDecision Message.
Proof. solve_decision. Defined.

#[global] Instance Message_countable : Countable Message.
Proof.
  refine (inj_countable' (fun m => (round m, order m, ids m))
            (fun t => mkMessage t.1.1 t.1.2 t.2) _).
  by intros [].
Defined.

Definition wf_Message (m : Message) : Prop :=
  is_uint32 (round m) /\ is_uint32 (order m) /\ Forall is_uint32 (ids m).

(** Modelled from the spec: [sizeof(msg::ByzantineMessage)], the fixed Relay
    header of four 32-bit words (type, size, round, order), and
    [sizeof(msg::Ack)], three 32-bit words (type, size, round); both structs
    are declared in a header that is not part of the sources. *)
Definition sizeof_ByzantineMessage : Z := 16.
Definition sizeof_Ack : Z := 12.
Definition sizeof_uint32_t : Z := 4.

(** Byte offsets of the fields of both structs. *)
Definition off_type : nat := 0.
Definition off_size : nat := 4.
Definition off_round : nat := 8.
Definition off_order : nat := 12.

(** ** Wire codec *)

Section Codec.

(** The two frame tags are constants of the missing header; the codec is
    parametric in them. *)
Variables kByzantineMessageType kAckType : Z.

Definition id_offset (i : nat) : nat :=
  (Z.to_nat sizeof_ByzantineMessage + 4 * i)%nat.

Definition ByzantineMsgFromBuf (buf : list byte) : option Message :=
  let n := Z.of_nat (length buf) in
  if n <? sizeof_ByzantineMessage then None
  else
    let count := Z.to_nat ((n - sizeof_ByzantineMessage) / sizeof_uint32_t) in
    Some {| round := load_u32 buf off_round;
            order := load_u32 buf off_order;
            ids := (fun i => load_u32 buf (id_offset i)) <$> seq 0 count |}.

Definition RoundOfAck (buf : list byte) : option Z :=
  let n := Z.of_nat (length buf) in
  if negb (n =? sizeof_Ack) then None
  else Some (load_u32 buf off_round).

(** The loop of [SendMessage] that fills the id array from index [i] on. *)
Fixpoint store_ids (buf : list byte) (i : nat) (l : list Z) : list byte :=
  match l with
  | [] => buf
  | id :: l' => store_ids (store_u32 buf (id_offset i) id) (S i) l'
  end.

(** The buffer and size [SendMessage] hands to [SendWithAck]. *)
Definition SendMessage_size (msg : Message) : Z :=
  sizeof_ByzantineMessage + sizeof_uint32_t * Z.of_nat (length (ids msg)).

Definition SendMessage_buf (msg : Message) : list byte :=
  let size := SendMessage_size msg in
  let buf := bzero (Z.to_nat size) in
  let buf := store_u32 buf off_type kByzantineMessageType in
  let buf := store_u32 buf off_size (wrap32 size) in
  let buf := store_u32 buf off_round (round msg) in
  let buf := store_u32 buf off_order (order msg) in
  store_ids buf 0 (ids msg).

(** The buffer [SendAckForRound] hands to [Send]; its size is
    [sizeof(ack)]. *)
Definition SendAckForRound_buf (round : Z) : list byte :=
  let buf := bzero (Z.to_nat sizeof_Ack) in
  let buf := store_u32 buf off_type kAckType in
  let buf := store_u32 buf off_size sizeof_Ack in
  store_u32 buf off_round round.

End Codec.

(** A frame whose first two words, the type tag and the size field, are
    [tag] and [size], followed by the bytes [rest]. *)
Definition frame (tag size : Z) (rest : list byte) : list byte :=
  be32 tag ++ be32 size ++ rest.

(** The Relay of codec scenario S5 of the specification. *)
Definition S5_relay : Message := mkMessage 2 ATTACK [0; 3; 1].

(** ** Round completion count *)

(** [MessagesForRound]: recursion on the round; every operation is on
    [size_t], so the difference and the product wrap at 2^64. *)
Fixpoint MessagesForRound (process_num : Z) (round : nat) : Z :=
  match round with
  | O => 1
  | S r =>
      wrap64 (wrap64 (process_num - 1 - Z.of_nat round)
              * MessagesForRound process_num r)
  end.

(** The count of the specification, over the integers: M(n, 0) = 1 and
    M(n, k) = (n - 1 - k) * M(n, k - 1). *)
Fixpoint M_spec (n : Z) (k : nat) : Z :=
  match k with
  | O => 1
  | S k' => (n - 1 - Z.of_nat k) * M_spec n k'
  end.

(** ** The Lieutenant *)

Record Address := mkAddress {
  hostname : string;
  port : Z
}.

(** The fields of [Lieutenant] that the engine reads and writes. The server,
    the per-peer clients and the group of sender threads carry no protocol
    state; what they send is recorded as [Effect]s. The class itself is
    declared in the missing header: the field names are those the source
    uses, and [faulty_] stands for the tolerated-fault count m that
    [LastRound] compares the round with. *)
Record Lieutenant := mkLieutenant {
  id_ : Z;
  processes_ : list Address;
  faulty_ : Z;
  round_ : Z;
  orders_seen_ : gset Z;
  msgs_this_round_ : gset Message;
  ids_this_round_ : gset (list Z)
}.

Definition set_round_ (r : Z) (st : Lieutenant) : Lieutenant :=
  mkLieutenant (id_ st) (processes_ st) (faulty_ st) r (orders_seen_ st)
    (msgs_this_round_ st) (ids_this_round_ st).
Definition set_orders_seen_ (s : gset Z) (st : Lieutenant) : Lieutenant :=
  mkLieutenant (id_ st) (processes_ st) (faulty_ st) (round_ st) s
    (msgs_this_round_ st) (ids_this_round_ st).
Definition set_msgs_this_round_ (s : gset Message) (st : Lieutenant)
  : Lieutenant :=
  mkLieutenant (id_ st) (processes_ st) (faulty_ st) (round_ st)
    (orders_seen_ st) s (ids_this_round_ st).
Definition set_ids_this_round_ (s : gset (list Z)) (st : Lieutenant)
  : Lieutenant :=
  mkLieutenant (id_ st) (processes_ st) (faulty_ st) (round_ st)
    (orders_seen_ st) (msgs_this_round_ st) s.

(** [processes_.size()] *)
Definition process_num (st : Lieutenant) : Z :=
  Z.of_nat (length (processes_ st)).

(** Modelled from the spec: [FirstRound], [LastRound] and [IncrementRound]
    are inline members of the missing header. Rounds are numbered from 0,
    the last one is round m (the tolerated-fault count, total rounds m + 1),
    and a round boundary increments the [unsigned int] counter. *)
Definition FirstRound (st : Lieutenant) : bool := round_ st =? 0.
Definition LastRound (st : Lieutenant) : bool := round_ st =? faulty_ st.
Definition IncrementRound (st : Lieutenant) : Lieutenant :=
  set_round_ (wrap32 (round_ st + 1)) st.

(** Modelled from the spec: the state a Lieutenant is constructed with
    (the constructor is in the missing header): round 0 and empty sets. *)
Definition new_Lieutenant (id : Z) (processes : list Address) (faulty : Z)
  : Lieutenant :=
  mkLieutenant id processes faulty 0 ∅ ∅ ∅.

(** *** Outcomes of a call *)

Inductive Outcome (A : Type) : Type :=
| Returns (a : A)
| Throws          (* std::logic_error leaves the call *)
| Undefined.      (* the call has no defined behaviour in C++ *)
Arguments Returns {A} a.
Arguments Throws {A}.
Arguments Undefined {A}.

(** *** Message validator *)

(** [std::set::count], [std::unordered_set::count] *)
Definition count `{Countable K} (s : gset K) (x : K) : Z :=
  if decide (x ∈ s) then 1 else 0.

(** The loop over [msg.ids] of [ValidMessage]: [None] when it returns false
    from inside the loop, otherwise the [idset] it has built. *)
Fixpoint scan_ids (st : Lieutenant) (l : list Z) (idset : gset Z)
  : option (gset Z) :=
  match l with
  | [] => Some idset
  | id :: l' =>
      if id >=? process_num st then None
      else if id =? id_ st then None
      else scan_ids st l' ({[id]} ∪ idset)
  end.

Definition ValidMessage (st : Lieutenant) (msg : Message) (from : Address)
  : Outcome bool :=
  if negb (round msg =? round_ st) then Returns false
  else if negb (wrap32 (round msg + 1) =? Z.of_nat (length (ids msg)))
  then Returns false
  else
    match ids msg !! 0%nat with
    | None => Undefined                (* msg.ids[0] on an empty vector *)
    | Some id0 =>
        if negb (id0 =? 0) then Returns false
        else
          match scan_ids st (ids msg) ∅ with
          | None => Returns false
          | Some idset =>
              if (size idset <? length (ids msg))%nat then Returns false
              else
                match last (ids msg) ≫= fun i => processes_ st !! Z.to_nat i
                with
                | None => Undefined    (* processes_[i] out of range *)
                | Some a =>
                    if negb (String.eqb (hostname a) (hostname from))
                    then Returns false
                    else Returns true
                end
          end
    end.

(** What the loop of [ValidMessage] asks of each id. *)
Definition admissible_id (st : Lieutenant) (id : Z) : Prop :=
  id < process_num st /\ id <> id_ st.

(** The seven clauses of the specification's validator. *)
Definition valid_spec (st : Lieutenant) (msg : Message) (from : Address)
  : Prop :=
  round msg = round_ st
  /\ Z.of_nat (length (ids msg)) = round msg + 1
  /\ ids msg !! 0%nat = Some 0
  /\ Forall (fun id => id < process_num st) (ids msg)
  /\ Forall (fun id => id <> id_ st) (ids msg)
  /\ NoDup (ids msg)
  /\ exists i a, last (ids msg) = Some i
       /\ processes_ st !! Z.to_nat i = Some a
       /\ hostname a = hostname from.

(** *** Decision function and round completion *)

Definition DecideOrder (st : Lieutenant) : Z :=
  if (Z.of_nat (size (orders_seen_ st)) =? 1)
     && (count (orders_seen_ st) ATTACK =? 1)
  then ATTACK
  else RETREAT.

Definition RoundComplete (st : Lieutenant) : bool :=
  Z.of_nat (size (ids_this_round_ st))
  =? MessagesForRound (process_num st) (Z.to_nat (round_ st)).

(** ** The listen-loop callbacks *)

Inductive ServerAction := Continue | Stop.

(** What a callback hands to the network. [Send client buf] is
    [client->Send(buf, n)], the client being known by its remote address.
    [AddThread pid batch] is one sender thread of [InitNewRound]: it calls
    [SendMessage(clients_[processes_[pid]], msg)] for each [msg] of [batch],
    in that order. *)
Inductive Effect :=
| Send (client : Address) (buf : list byte)
| AddThread (pid : Z) (batch : list Message).

(** A member function of [Lieutenant]: it reads and updates the object,
    emits effects, and returns, throws or has no defined behaviour. *)
Definition Proc (A : Type) : Type :=
  Lieutenant -> Outcome (A * Lieutenant * list Effect).

Definition ret {A} (a : A) : Proc A := fun st => Returns (a, st, []).

Definition bind {A B} (c : Proc A) (k : A -> Proc B) : Proc B :=
  fun st =>
    match c st with
    | Returns (a, st1, out1) =>
        match k a st1 with
        | Returns (b, st2, out2) => Returns (b, st2, out1 ++ out2)
        | Throws => Throws
        | Undefined => Undefined
        end
    | Throws => Throws
    | Undefined => Undefined
    end.

Notation "'let!' x ':=' c 'in' k" := (bind c (fun x => k))
  (at level 10, x name, c at level 100, k at level 200, only parsing).
Notation "c '>>!' k" := (bind c (fun _ => k))
  (at level 100, k at level 200, right associativity, only parsing).

Definition get {A} (f : Lieutenant -> A) : Proc A :=
  fun st => Returns (f st, st, []).
Definition modify (f : Lieutenant -> Lieutenant) : Proc unit :=
  fun st => Returns (tt, f st, []).
Definition emit (e : Effect) : Proc unit :=
  fun st => Returns (tt, st, [e]).
Definition throw {A} : Proc A := fun _ => Throws.
Definition call {A} (f : Lieutenant -> Outcome A) : Proc A :=
  fun st =>
    match f st with
    | Returns a => Returns (a, st, [])
    | Throws => Throws
    | Undefined => Undefined
    end.

(** [ClearSenders] joins and forgets the sender threads of the round; the
    threads own no protocol state. *)
Definition ClearSenders : Proc unit := ret tt.

Definition ContinueUnlessTimeout : Proc ServerAction := ret Continue.

(** [toSend[pid].push_back(msg)] *)
Definition push_back (toSend : gmap Z (list Message)) (pid : Z)
  (msg : Message) : gmap Z (list Message) :=
  <[pid := default [] (toSend !! pid) ++ [msg]]> toSend.

(** The inner search of [InitNewRound]: is [pid] among [msg.ids]? *)
Definition inMsg (msg : Message) (pid : Z) : bool :=
  existsb (Z.eqb pid) (ids msg).

(** The loop over [pid] of [InitNewRound] for one relayed message. *)
Definition enqueue (n : nat) (msg : Message)
  (toSend : gmap Z (list Message)) : gmap Z (list Message) :=
  foldl (fun ts pid => if inMsg msg pid then ts else push_back ts pid msg)
    toSend (Z.of_nat <$> seq 0 n).

(** The loop over [msgs_this_round_] of [InitNewRound], run after the round
    counter was incremented to [r]; [None] when it throws. *)
Fixpoint relay_loop (r id : Z) (n : nat) (msgs : list Message)
  (toSend : gmap Z (list Message)) : option (gmap Z (list Message)) :=
  match msgs with
  | [] => Some toSend
  | msg :: rest =>
      if negb (round msg =? wrap32 (r - 1)) then None
      else
        let msg' := mkMessage r (order msg) (ids msg ++ [id]) in
        relay_loop r id n rest (enqueue n msg' toSend)
  end.

(** One [AddThread] per batch of [toSend]. *)
Fixpoint spawn (batches : list (Z * list Message)) : Proc unit :=
  match batches with
  | [] => ret tt
  | (pid, batch) :: rest => emit (AddThread pid batch) >>! spawn rest
  end.

Definition InitNewRound : Proc unit :=
  ClearSenders >>!
  modify IncrementRound >>!
  let! st := get (fun st => st) in
  match relay_loop (round_ st) (id_ st) (length (processes_ st))
          (elements (msgs_this_round_ st)) ∅ with
  | None => throw
  | Some toSend =>
      spawn (map_to_list toSend) >>!
      modify (set_ids_this_round_ ∅) >>!
      modify (set_msgs_this_round_ ∅)
  end.

Definition MoveToNewRoundOrStop : Proc ServerAction :=
  let! last := get LastRound in
  if last then ClearSenders >>! ret Stop
  else InitNewRound >>! ret Continue.

Definition HandleRoundTimeout : Proc ServerAction :=
  let! first := get FirstRound in
  if first then ret Continue
  else MoveToNewRoundOrStop.

Section Callbacks.

Variable kAckType : Z.

(** The predicate [SendMessage] passes to [SendWithAck]: stop waiting at an
    acknowledgement of the round of [msg]. *)
Definition isValidAck (msg : Message) (buf : list byte) : ServerAction :=
  let ackRound := RoundOfAck buf in
  let valid :=
    match ackRound with
    | Some r => r =? round msg
    | None => false
    end in
  if negb valid then Continue else Stop.

Definition SendAckForRound (client : Address) (round : Z) : Proc unit :=
  emit (Send client (SendAckForRound_buf kAckType round)).

(** The first callback that [Lieutenant::Decide] gives to [Listen]; the
    client stands for its remote address. *)
Definition on_message (client : Address) (buf : list byte)
  : Proc ServerAction :=
  let from := client in
  match ByzantineMsgFromBuf buf with
  | None => ContinueUnlessTimeout
  | Some msg =>
      let! valid := call (fun st => ValidMessage st msg from) in
      if negb valid then ContinueUnlessTimeout
      else
        let! r := get round_ in
        SendAckForRound client r >>!
        let! first := get FirstRound in
        let! newRound :=
          (if first then
             let! seen := get orders_seen_ in
             if Z.of_nat (size seen) =? 0 then
               modify (fun st =>
                 set_orders_seen_ ({[order msg]} ∪ orders_seen_ st) st) >>!
               modify (fun st =>
                 set_msgs_this_round_ ({[msg]} ∪ msgs_this_round_ st) st) >>!
               ret true
             else ret false
           else
             let! seen := get ids_this_round_ in
             if count seen (ids msg) =? 0 then
               modify (fun st =>
                 set_ids_this_round_ ({[ids msg]} ∪ ids_this_round_ st) st) >>!
               modify (fun st =>
                 set_msgs_this_round_ ({[msg]} ∪ msgs_this_round_ st) st) >>!
               modify (fun st =>
                 set_orders_seen_ ({[order msg]} ∪ orders_seen_ st) st) >>!
               get RoundComplete
             else ret false) in
        if newRound then MoveToNewRoundOrStop
        else ContinueUnlessTimeout
  end.

(** The second callback, called on socket timeout. *)
Definition on_timeout : Proc ServerAction := HandleRoundTimeout.

End Callbacks.

(** *** The state changes of the callbacks, for reference in the proofs *)

(** The state after a message was accepted in round 0. *)
Definition accept_first (msg : Message) (st : Lieutenant) : Lieutenant :=
  set_msgs_this_round_ ({[msg]} ∪ msgs_this_round_ st)
    (set_orders_seen_ ({[order msg]} ∪ orders_seen_ st) st).

(** The state after a message with a new path was accepted in a later
    round. *)
Definition accept_later (msg : Message) (st : Lieutenant) : Lieutenant :=
  set_orders_seen_ ({[order msg]} ∪ orders_seen_ st)
    (set_msgs_this_round_ ({[msg]} ∪ msgs_this_round_ st)
       (set_ids_this_round_ ({[ids msg]} ∪ ids_this_round_ st) st)).

(** The state [InitNewRound] leaves when it does not throw. *)
Definition next_round (st : Lieutenant) : Lieutenant :=
  set_msgs_this_round_ ∅ (set_ids_this_round_ ∅ (IncrementRound st)).

(** An outcome with one more effect emitted first. *)
Definition after {A} (e : Effect) (o : Outcome (A * Lieutenant * list Effect))
  : Outcome (A * Lieutenant * list Effect) :=
  match o with
  | Returns (a, st, out) => Returns (a, st, e :: out)
  | Throws => Throws
  | Undefined => Undefined
  end.

(** ** The listen loop *)

Inductive Loop :=
| Listening (st : Lieutenant)
| Stopped (st : Lieutenant)
| Aborted.

Inductive Event :=
| Datagram (client : Address) (buf : list byte)
| Timeout.

(** Modelled from the spec: [Listen] of the datagram server, which is not
    part of the sources. It hands each received datagram to the first
    callback and each idle timeout to the second, goes on while they return
    [Continue] and stops when one returns [Stop]. An exception (or undefined
    behaviour) in a callback ends the loop without a decision. *)
Definition Listen_step (kAckType : Z) (ev : Event) (st : Lieutenant)
  : Loop * list Effect :=
  let callback :=
    match ev with
    | Datagram client buf => on_message kAckType client buf
    | Timeout => on_timeout
    end in
  match callback st with
  | Returns (Continue, st', out) => (Listening st', out)
  | Returns (Stop, st', out) => (Stopped st', out)
  | Throws | Undefined => (Aborted, [])
  end.

(** The states in which a Lieutenant started as [st0] waits for its next
    datagram or timeout. *)
Inductive listening (kAckType : Z) (st0 : Lieutenant) : Lieutenant -> Prop :=
| listening_start : listening kAckType st0 st0
| listening_next st ev st' out :
    listening kAckType st0 st ->
    Listen_step kAckType ev st = (Listening st', out) ->
    listening kAckType st0 st'.

(** The loop run on a finite sequence of events. *)
Fixpoint Listen (kAckType : Z) (evs : list Event) (st : Lieutenant) : Loop :=
  match evs with
  | [] => Listening st
  | ev :: rest =>
      match (Listen_step kAckType ev st).1 with
      | Listening st' => Listen kAckType rest st'
      | l => l
      end
  end.

(** [Lieutenant::Decide] returns [DecideOrder()] once [Listen] has
    stopped. *)
Definition Lieutenant_Decide (l : Loop) : option Z :=
  match l with
  | Stopped st => Some (DecideOrder st)
  | Listening _ | Aborted => None
  end.

(** The invariants of the Round State of the specification: every retained
    message is of the current round; the paths and the retained messages
    correspond one to one; at round 0 at most one message is retained. *)
Definition round_state_inv (st : Lieutenant) : Prop :=
  (forall m, m ∈ msgs_this_round_ st -> round m = round_ st)
  /\ (ids_this_round_ st = set_map ids (msgs_this_round_ st)
      /\ size (ids_this_round_ st) = size (msgs_this_round_ st))
  /\ (round_ st = 0 -> (size (msgs_this_round_ st) <= 1)%nat).

(** The same invariants over the states of the listen loop. When the loop
    has stopped in round 0, which it does when round 0 is the only round,
    the correspondence of paths and messages is left out: the callback of
    round 0 retains the message without recording its path. *)
Definition loop_state_inv (l : Loop) : Prop :=
  match l with
  | Listening st => round_state_inv st
  | Stopped st =>
      (forall m, m ∈ msgs_this_round_ st -> round m = round_ st)
      /\ (round_ st <> 0 ->
          ids_this_round_ st = set_map ids (msgs_this_round_ st)
          /\ size (ids_this_round_ st) = size (msgs_this_round_ st))
      /\ (round_ st = 0 -> (size (msgs_this_round_ st) <= 1)%nat)
  | Aborted => True
  end.

(** A Lieutenant of a run with 190 processes that tolerates 63 faults
    (190 = 3 * 63 + 1), at the start of its last round, round 63. *)
Definition last_round_of_190 : Lieutenant :=
  set_round_ 63 (new_Lieutenant 1 (replicate 190 (mkAddress "host" 9000)) 63).

(** A Lieutenant that has seen no order but [o]: the orders it has seen and
    the messages it retains carry [o], and it has seen an order once it has
    left round 0. *)
Definition faithful (o : Z) (st : Lieutenant) : Prop :=
  orders_seen_ st ⊆ {[o]}
  /\ (forall m, m ∈ msgs_this_round_ st -> order m = o)
  /\ (round_ st <> 0 -> orders_seen_ st <> ∅).

Definition faithful_loop (o : Z) (l : Loop) : Prop :=
  match l with
  | Listening st => faithful o st
  | Stopped st => faithful o st /\ orders_seen_ st <> ∅
  | Aborted => True
  end.

(** Every message queued in [toSend] satisfies [P]. *)
Definition batches_ok (P : Message -> Prop)
  (toSend : gmap Z (list Message)) : Prop :=
  forall pid batch, toSend !! pid = Some batch -> Forall P batch.

(** Every message that the sender threads of [out] send carries [o]. *)
Definition relays_carry (o : Z) (out : list Effect) : Prop :=
  forall pid batch,
    AddThread pid batch ∈ out -> Forall (fun m => order m = o) batch.

(** ** The Commander *)

(** The fields of [Commander] that [Decide] reads; [c_round_] and
    [c_processes_] are the members [round_] and [processes_] it shares with
    the Lieutenant. *)
Record Commander := mkCommander {
  c_round_ : Z;
  order_ : Z;
  c_processes_ : list Address
}.

(** [Commander::Decide]: the order it returns and one sender thread per
    Lieutenant, each with the single message [(round_, order_, [0])]. *)
Definition Commander_Decide (c : Commander) : Z * list Effect :=
  let msg := mkMessage (c_round_ c) (order_ c) [0] in
  (order_ c,
   (fun pid => AddThread (Z.of_nat pid) [msg])
     <$> seq 1 (length (c_processes_ c) - 1)).

(** ** Runs of the whole system *)

(** A run has a participant table, the tolerated-fault count, the set of
    Byzantine processes and the order the Commander proposes. *)
Record Setup := mkSetup {
  participants : list Address;
  tolerated : Z;
  byzantine : gset Z;
  proposal : Z
}.

Record Packet := mkPacket {
  dst : Z;
  src_host : string;
  payload : list byte
}.

Record World := mkWorld {
  lieutenants : gmap Z Loop;
  soup : list Packet;
  commander_returned : option Z
}.

Section Runs.

Variables kByzantineMessageType kAckType : Z.
Variable env : Setup.

(** What the effects of process [self] put on the network for the servers
    of its peers. An Ack travels back to the socket of the sending client,
    never to a server. *)
Definition transmit (self : Z) (e : Effect) : list Packet :=
  match e with
  | Send _ _ => []
  | AddThread pid batch =>
      match participants env !! Z.to_nat self with
      | None => []
      | Some a =>
          (fun msg =>
             mkPacket pid (hostname a)
               (SendMessage_buf kByzantineMessageType msg)) <$> batch
      end
  end.

Definition transmit_all (self : Z) (out : list Effect) : list Packet :=
  out ≫= transmit self.

Definition correct_lieutenants : list Z :=
  filter (fun p => p ∉ byzantine env)
    (Z.of_nat <$> seq 1 (length (participants env) - 1)).

Definition initial_world : World :=
  mkWorld
    (list_to_map
       ((fun p =>
           (p, Listening (new_Lieutenant p (participants env) (tolerated env))))
          <$> correct_lieutenants))
    [] None.

(** One step of a run: the correct Commander, at its round 0, decides; a sent
    packet reaches the server of a listening correct Lieutenant (packets
    may be delivered late, repeatedly or never); the server of a correct
    Lieutenant times out; a Byzantine process sends bytes of its choice to
    any server. The sender threads of a round are not modelled one by one:
    their packets join the soup when the callback that spawned them
    returns. *)
Inductive step : World -> World -> Prop :=
| step_commander w :
    0 ∉ byzantine env ->
    commander_returned w = None ->
    let c := mkCommander 0 (proposal env) (participants env) in
    step w (mkWorld (lieutenants w)
              (soup w ++ transmit_all 0 (Commander_Decide c).2)
              (Some (Commander_Decide c).1))
| step_deliver w d port st l out :
    d ∈ soup w ->
    lieutenants w !! dst d = Some (Listening st) ->
    Listen_step kAckType (Datagram (mkAddress (src_host d) port) (payload d)) st
      = (l, out) ->
    step w (mkWorld (<[dst d := l]> (lieutenants w))
              (soup w ++ transmit_all (dst d) out)
              (commander_returned w))
| step_timeout w p st l out :
    lieutenants w !! p = Some (Listening st) ->
    Listen_step kAckType Timeout st = (l, out) ->
    step w (mkWorld (<[p := l]> (lieutenants w))
              (soup w ++ transmit_all p out)
              (commander_returned w))
| step_byzantine w b a to buf :
    b ∈ byzantine env ->
    0 <= b ->
    participants env !! Z.to_nat b = Some a ->
    step w (mkWorld (lieutenants w)
              (soup w ++ [mkPacket to (hostname a) buf])
              (commander_returned w)).

Definition reachable (w : World) : Prop := rtc step initial_world w.

(** A schedule names the steps of a run one by one, so that a run can be
    computed: the packet to deliver is given by its position in the soup. *)
Inductive Action :=
| CommanderDecides
| Deliver (i : nat) (port : Z)
| TimeOut (p : Z)
| ByzantineSends (b to : Z) (buf : list byte).

Definition perform (a : Action) (w : World) : option World :=
  match a with
  | CommanderDecides =>
      if decide (0 ∈ byzantine env) then None
      else
        match commander_returned w with
        | Some _ => None
        | None =>
            let c := mkCommander 0 (proposal env) (participants env) in
            Some (mkWorld (lieutenants w)
                    (soup w ++ transmit_all 0 (Commander_Decide c).2)
                    (Some (Commander_Decide c).1))
        end
  | Deliver i port =>
      match soup w !! i with
      | None => None
      | Some d =>
          match lieutenants w !! dst d with
          | Some (Listening st) =>
              let r :=
                Listen_step kAckType
                  (Datagram (mkAddress (src_host d) port) (payload d)) st in
              Some (mkWorld (<[dst d := r.1]> (lieutenants w))
                      (soup w ++ transmit_all (dst d) r.2)
                      (commander_returned w))
          | _ => None
          end
      end
  | TimeOut p =>
      match lieutenants w !! p with
      | Some (Listening st) =>
          let r := Listen_step kAckType Timeout st in
          Some (mkWorld (<[p := r.1]> (lieutenants w))
                  (soup w ++ transmit_all p r.2)
                  (commander_returned w))
      | _ => None
      end
  | ByzantineSends b to buf =>
      if decide (b ∈ byzantine env /\ 0 <= b) then
        match participants env !! Z.to_nat b with
        | None => None
        | Some a =>
            Some (mkWorld (lieutenants w)
                    (soup w ++ [mkPacket to (hostname a) buf])
                    (commander_returned w))
        end
      else None
  end.

Fixpoint schedule (acts : list Action) (w : World) : option World :=
  match acts with
  | [] => Some w
  | a :: rest =>
      match perform a w with
      | None => None
      | Some w' => schedule rest w'
      end
  end.

(** The order a Lieutenant has returned at the end of a schedule run from
    the initial world, if it has. *)
Definition decision_after (acts : list Action) (p : Z) : option Z :=
  schedule acts initial_world
    ≫= fun w => (lieutenants w !! p) ≫= Lieutenant_Decide.

End Runs.

(** The runs the agreement property is about: n >= 3m + 1 processes, at
    most m of them Byzantine, and a Commander that proposes ATTACK or
    RETREAT. The number of rounds, m + 1, is that of [LastRound]. *)
Definition admissible (env : Setup) : Prop :=
  3 * tolerated env + 1 <= Z.of_nat (length (participants env))
  /\ 0 <= tolerated env
  /\ Z.of_nat (size (byzantine env)) <= tolerated env
  /\ (proposal env = ATTACK \/ proposal env = RETREAT).

(** *** Scenarios with four generals *)

Definition four_hosts : list Address :=
  [mkAddress "h0" 9000; mkAddress "h1" 9000; mkAddress "h2" 9000;
   mkAddress "h3" 9000].

(** n = 4 and m = 1; the Commander proposes ATTACK and is correct, and so
    are Lieutenants 1 and 2; Lieutenant 3 is Byzantine. *)
Definition traitor_3 : Setup := mkSetup four_hosts 1 {[3]} ATTACK.

(** Both correct Lieutenants get the order of the Commander and relay it to
    each other. The traitor relays RETREAT to Lieutenant 1 and ATTACK to
    Lieutenant 2. Each correct Lieutenant then receives the relay of the
    other and that of the traitor, which completes its round 1, the last
    one. The soup holds, in this order: the three packets of the Commander
    (0, 1, 2), the relays of Lieutenant 1 (3, 4) and of Lieutenant 2
    (5, 6), and the two packets of the traitor (7, 8). *)
Definition traitor_3_schedule (kByzantineMessageType : Z) : list Action :=
  [CommanderDecides;
   Deliver 0 40000;
   Deliver 1 40000;
   ByzantineSends 3 1
     (SendMessage_buf kByzantineMessageType (mkMessage 1 RETREAT [0; 3]));
   ByzantineSends 3 2
     (SendMessage_buf kByzantineMessageType (mkMessage 1 ATTACK [0; 3]));
   Deliver 6 40001;
   Deliver 7 40002;
   Deliver 4 40001;
   Deliver 8 40002].

(** n = 4 and m = 1, no process is Byzantine; the Commander proposes
    ATTACK. *)
Definition no_traitor : Setup := mkSetup four_hosts 1 ∅ ATTACK.

(** Scenarios S1 and S2. The three Lieutenants get the order of the
    Commander and relay it; each then receives the two relays meant for it.
    The soup holds the packets of the Commander (0, 1, 2) and the relays of
    Lieutenant 1 (3, 4), Lieutenant 2 (5, 6) and Lieutenant 3 (7, 8). *)
Definition no_traitor_schedule : list Action :=
  [CommanderDecides;
   Deliver 0 40000;
   Deliver 1 40000;
   Deliver 2 40000;
   Deliver 6 40001;
   Deliver 8 40002;
   Deliver 4 40001;
   Deliver 7 40002;
   Deliver 3 40001;
   Deliver 5 40002].

Definition no_traitor_retreat : Setup := mkSetup four_hosts 1 ∅ RETREAT.

(** Scenario S3. Lieutenant 3 is silent: the other two relay the order to
    each other, receive that relay, and their round 1 ends by timeout. *)
Definition silent_3_schedule : list Action :=
  [CommanderDecides;
   Deliver 0 40000;
   Deliver 1 40000;
   Deliver 6 40001;
   Deliver 4 40001;
   TimeOut 1;
   TimeOut 2].

(** Scenario S4. The Commander is Byzantine and sends ATTACK to Lieutenant
    1 and RETREAT to Lieutenants 2 and 3; the Lieutenants relay what they
    got and every relay arrives. *)
Definition traitor_0 : Setup := mkSetup four_hosts 1 {[0]} ATTACK.

Definition traitor_0_schedule (kByzantineMessageType : Z) : list Action :=
  [ByzantineSends 0 1
     (SendMessage_buf kByzantineMessageType (mkMessage 0 ATTACK [0]));
   ByzantineSends 0 2
     (SendMessage_buf kByzantineMessageType (mkMessage 0 RETREAT [0]));
   ByzantineSends 0 3
     (SendMessage_buf kByzantineMessageType (mkMessage 0 RETREAT [0]));
   Deliver 0 40000;
   Deliver 1 40000;
   Deliver 2 40000;
   Deliver 6 40001;
   Deliver 8 40002;
   Deliver 4 40001;
   Deliver 7 40002;
   Deliver 3 40001;
   Deliver 5 40002].

(** Scenario S6: Lieutenant 2 in round 1 and in round 2. *)
Definition lieutenant_2_in_round (r : Z) : Lieutenant :=
  set_round_ r (new_Lieutenant 2 four_hosts 2).

(** Lieutenant 1 of four generals, one fault tolerated, as it starts and
    after it has accepted the order of the Commander and the relay of
    Lieutenant 2: it waits in round 1 for the relay of Lieutenant 3. *)
Definition lieutenant_1 : Lieutenant := new_Lieutenant 1 four_hosts 1.

Definition round_1_events : list Event :=
  [Datagram (mkAddress "h0" 40000)
     (SendMessage_buf 1 (mkMessage 0 ATTACK [0]));
   Datagram (mkAddress "h2" 40001)
     (SendMessage_buf 1 (mkMessage 1 ATTACK [0; 2]))].

Definition waiting_in_round_1 : Lieutenant :=
  match Listen 2 round_1_events lieutenant_1 with
  | Listening st => st
  | _ => lieutenant_1
  end.

(** Lieutenant 1 of a run of a single round (no fault tolerated), and the
    datagram that brings it the order of the Commander. *)
Definition single_round_lieutenant : Lieutenant :=
  new_Lieutenant 1 four_hosts 0.

Definition order_of_the_Commander : Event :=
  Datagram (mkAddress "h0" 40000)
    (SendMessage_buf 1 (mkMessage 0 ATTACK [0])).

(** The relay of Lieutenant 3, here carrying RETREAT. *)
Definition relay_of_3 : Message := mkMessage 1 RETREAT [0; 3].

(** A Lieutenant that has seen both orders. *)
Definition saw_both_orders : Lieutenant :=
  set_orders_seen_ {[ATTACK; RETREAT]} lieutenant_1.

(** The agreement property of the specification: in every admissible run,
    the correct Lieutenants whose [Decide] has returned have all returned
    the same order, and the order of the Commander if it is correct. *)
Definition Agreement (kByzantineMessageType kAckType : Z) : Prop :=
  forall env w p q o_p o_q,
    admissible env ->
    reachable kByzantineMessageType kAckType env w ->
    (lieutenants w !! p) ≫= Lieutenant_Decide = Some o_p ->
    (lieutenants w !! q) ≫= Lieutenant_Decide = Some o_q ->
    o_p = o_q /\ (0 ∉ byzantine env -> o_p = proposal env).

(** A world in which nothing but the order [o] is around: every packet that
    decodes carries [o], every Lieutenant is faithful to [o], and the
    Commander has returned [o] if it has returned. *)
Definition world_faithful (o : Z) (w : World) : Prop :=
  (forall d msg,
     d ∈ soup w -> ByzantineMsgFromBuf (payload d) = Some msg ->
     order msg = o)
  /\ (forall p l, lieutenants w !! p = Some l -> faithful_loop o l)
  /\ (forall o', commander_returned w = Some o' -> o' = o).

(** ** The steps of the listen loop, by shape *)

(** A callback that ends by [MoveToNewRoundOrStop]: a timeout after round
    0, the first message of round 0, or the message that completes a later
    round. [st1] is the state in which [MoveToNewRoundOrStop] is entered. *)
Definition moved (ev : Event) (st st1 : Lieutenant) : Prop :=
  (ev = Timeout /\ FirstRound st = false /\ st1 = st)
  \/ (exists client buf msg,
        ev = Datagram client buf
        /\ ByzantineMsgFromBuf buf = Some msg
        /\ ValidMessage st msg client = Returns true
        /\ ((FirstRound st = true /\ orders_seen_ st = ∅
             /\ st1 = accept_first msg st)
            \/ (FirstRound st = false
                /\ (ids msg ∉ ids_this_round_ st)
                /\ RoundComplete (accept_later msg st) = true
                /\ st1 = accept_later msg st))).

(** A callback that retains a message with a new path in a round it does
    not complete. *)
Definition kept (ev : Event) (st st1 : Lieutenant) : Prop :=
  exists client buf msg,
    ev = Datagram client buf
    /\ ByzantineMsgFromBuf buf = Some msg
    /\ ValidMessage st msg client = Returns true
    /\ FirstRound st = false
    /\ (ids msg ∉ ids_this_round_ st)
    /\ RoundComplete (accept_later msg st) = false
    /\ st1 = accept_later msg st.

(** The order carried by a datagram that decodes. *)
Definition carried_order (ev : Event) : option Z :=
  match ev with
  | Datagram _ buf => order <$> ByzantineMsgFromBuf buf
  | Timeout => None
  end.

(** What the listen loop keeps of the round counter of a Lieutenant that
    tolerates [faulty] faults. *)
Definition rounds_inv (faulty : Z) (st : Lieutenant) : Prop :=
  0 <= round_ st <= faulty
  /\ faulty_ st = faulty
  /\ (forall m, m ∈ msgs_this_round_ st -> round m = round_ st).

(** Lieutenant 1 of four generals as it enters round 1, and the datagram
    that brings it the relay of Lieutenant 2. *)
Definition entered_round_1 : Lieutenant :=
  match Listen 2 [order_of_the_Commander] lieutenant_1 with
  | Listening st => st
  | _ => lieutenant_1
  end.

Definition relay_of_2 : Message := mkMessage 1 ATTACK [0; 2].

(** [msg] is queued for [pid] in [toSend]. *)
Definition in_batch (toSend : gmap Z (list Message)) (pid : Z)
  (msg : Message) : Prop :=
  exists batch, toSend !! pid = Some batch /\ msg ∈ batch.

(** The message [InitNewRound] makes of a retained message [m]. *)
Definition relayed (st : Lieutenant) (m : Message) : Message :=
  mkMessage (wrap32 (round_ st + 1)) (order m) (ids m ++ [id_ st]).

(** Lieutenant 1 of four generals with the order of the Commander retained,
    as [InitNewRound] finds it at the end of round 0. *)
Definition end_of_round_0 : Lieutenant :=
  accept_first (mkMessage 0 ATTACK [0]) lieutenant_1.

(** The Commander of four generals, proposing ATTACK. *)
Definition commander_of_four : Commander := mkCommander 0 ATTACK four_hosts.

(** Lieutenant 1 of two generals that tolerates one fault, in round 1: the
    only other participant is the Commander. *)
Definition lieutenant_of_two : Lieutenant :=
  next_round
    (accept_first (mkMessage 0 ATTACK [0])
       (new_Lieutenant 1 [mkAddress "h0" 9000; mkAddress "h1" 9000] 1)).

(** The destinations of the sender threads among the effects [out], in the
    order in which the threads were started. *)
Definition destinations (out : list Effect) : list Z :=
  out ≫= fun e =>
    match e with
    | AddThread pid _ => [pid]
    | Send _ _ => []
    end.

(** ** Setups in which no lie is heeded *)

(** What the code needs for agreement: every Byzantine process of the
    participant table runs on another host than the Commander (so that it
    cannot pass for the Commander in round 0; the Commander itself is then
    not Byzantine), and if there is such a process the Commander proposes
    RETREAT, the order that [DecideOrder] returns whenever it was seen. *)
Definition harmless (env : Setup) : Prop :=
  forall b a,
    b ∈ byzantine env -> 0 <= b ->
    participants env !! Z.to_nat b = Some a ->
    proposal env = RETREAT
    /\ forall a0, participants env !! 0%nat = Some a0 ->
         hostname a <> hostname a0.

(** n = 4 and m = 1; the Commander is correct and proposes RETREAT;
    Lieutenant 3 is Byzantine. *)
Definition liar_3 : Setup := mkSetup four_hosts 1 {[3]} RETREAT.

(** The run of [traitor_3_schedule], with the traitor relaying ATTACK to
    both correct Lieutenants. *)
Definition liar_3_schedule (kByzantineMessageType : Z) : list Action :=
  [CommanderDecides;
   Deliver 0 40000;
   Deliver 1 40000;
   ByzantineSends 3 1
     (SendMessage_buf kByzantineMessageType (mkMessage 1 ATTACK [0; 3]));
   ByzantineSends 3 2
     (SendMessage_buf kByzantineMessageType (mkMessage 1 ATTACK [0; 3]));
   Deliver 6 40001;
   Deliver 7 40002;
   Deliver 4 40001;
   Deliver 8 40002].

(** What a Lieutenant keeps in a run in which every round-0 message from
    the host of the Commander carries RETREAT: its participant table is that
    of the run, it has seen RETREAT if it has seen an order, it has seen an
    order once it has left round 0, and it retains messages only in a round
    whose successor is not round 0. *)
Definition retreat_seen (env : Setup) (st : Lieutenant) : Prop :=
  processes_ st = participants env
  /\ (orders_seen_ st <> ∅ -> RETREAT ∈ orders_seen_ st)
  /\ (FirstRound st = false -> orders_seen_ st <> ∅)
  /\ (msgs_this_round_ st <> ∅ -> wrap32 (round_ st + 1) <> 0).

Definition retreat_seen_loop (env : Setup) (l : Loop) : Prop :=
  match l with
  | Listening st => retreat_seen env st
  | Stopped st => RETREAT ∈ orders_seen_ st
  | Aborted => True
  end.

(** Every message that the sender threads of [out] send is, as it is read
    from the wire, of a round other than round 0. *)
Definition relays_later (out : list Effect) : Prop :=
  forall pid batch,
    AddThread pid batch ∈ out ->
    Forall (fun m => wrap32 (round m) <> 0) batch.

(** A world of such a run: the packets from the host of the Commander that
    decode to a round-0 message carry RETREAT, and so does what the
    Commander has returned. *)
Definition world_retreat (env : Setup) (w : World) : Prop :=
  (forall d msg a0,
     d ∈ soup w -> ByzantineMsgFromBuf (payload d) = Some msg ->
     round msg = 0 ->
     participants env !! 0%nat = Some a0 -> src_host d = hostname a0 ->
     order msg = RETREAT)
  /\ (forall p l, lieutenants w !! p = Some l -> retreat_seen_loop env l)
  /\ (forall o', commander_returned w = Some o' -> o' = RETREAT).

(** The events that the packets of a world and timeouts make for the
    server of Lieutenant [j]. *)
Definition event_for (w : World) (j : Z) (ev : Event) : Prop :=
  ev = Timeout
  \/ exists d port,
       d ∈ soup w /\ dst d = j
       /\ ev = Datagram (mkAddress (src_host d) port) (payload d).

(** * Properties *)

(** ** Bytes and words *)

Lemma Z_of_byte_range b : 0 <= Z_of_byte b < 256.
Proof.
  unfold Z_of_byte. pose proof (Byte.to_N_bounded b) as H. lia.
Qed.

Lemma Z_of_byte_of_Z x : Z_of_byte (byte_of_Z x) = x mod 256.
Proof.
  unfold Z_of_byte, byte_of_Z.
  assert (Hr : 0 <= x mod 256 < 256) by (apply Z.mod_pos_bound; lia).
  destruct (Byte.of_N (Z.to_N (x mod 256))) as [b|] eqn:E; simpl.
  - apply Byte.to_of_N in E. rewrite E. lia.
  - apply Byte.of_N_None_iff in E. lia.
Qed.

Lemma byte_at_store buf off x i :
  (off + 4 <= length buf)%nat ->
  byte_at (store_u32 buf off x) i =
    if decide (off <= i < off + 4)%nat
    then byte_at (be32 x) (i - off)
    else byte_at buf i.
Proof.
  intros Hlen. unfold byte_at, store_u32.
  assert (Htake : length (take off buf) = off) by (rewrite length_take; lia).
  case_decide as Hi.
  - rewrite lookup_app_r; rewrite Htake; [|lia].
    rewrite lookup_app_l; [done|]. simpl. lia.
  - destruct (decide (i < off)%nat).
    + rewrite lookup_app_l; [|lia].
      by rewrite lookup_take_lt.
    + rewrite lookup_app_r; rewrite Htake; [|lia].
      rewrite lookup_app_r; simpl; [|lia].
      rewrite lookup_drop. f_equal. f_equal. lia.
Qed.

Lemma length_store_u32 buf off x :
  (off + 4 <= length buf)%nat -> length (store_u32 buf off x) = length buf.
Proof.
  intros. unfold store_u32.
  rewrite !length_app, length_take, length_drop. simpl. lia.
Qed.

Lemma load_be32 x :
  Z_of_byte (byte_of_Z (x / 2 ^ 24)) * 2 ^ 24
  + Z_of_byte (byte_of_Z (x / 2 ^ 16)) * 2 ^ 16
  + Z_of_byte (byte_of_Z (x / 2 ^ 8)) * 2 ^ 8
  + Z_of_byte (byte_of_Z x) = wrap32 x.
Proof.
  rewrite !Z_of_byte_of_Z. unfold wrap32.
  change (2 ^ 24) with 16777216. change (2 ^ 16) with 65536.
  change (2 ^ 8) with 256. change (2 ^ 32) with 4294967296.
  pose proof (Z.div_mod x 4294967296 ltac:(lia)).
  pose proof (Z.mod_pos_bound x 4294967296 ltac:(lia)).
  pose proof (Z.div_mod x 16777216 ltac:(lia)).
  pose proof (Z.mod_pos_bound x 16777216 ltac:(lia)).
  pose proof (Z.div_mod x 65536 ltac:(lia)).
  pose proof (Z.mod_pos_bound x 65536 ltac:(lia)).
  pose proof (Z.div_mod x 256 ltac:(lia)).
  pose proof (Z.mod_pos_bound x 256 ltac:(lia)).
  pose proof (Z.div_mod (x / 16777216) 256 ltac:(lia)).
  pose proof (Z.mod_pos_bound (x / 16777216) 256 ltac:(lia)).
  pose proof (Z.div_mod (x / 65536) 256 ltac:(lia)).
  pose proof (Z.mod_pos_bound (x / 65536) 256 ltac:(lia)).
  pose proof (Z.div_mod (x / 256) 256 ltac:(lia)).
  pose proof (Z.mod_pos_bound (x / 256) 256 ltac:(lia)).
  lia.
Qed.

Lemma load_store_same buf off x :
  (off + 4 <= length buf)%nat ->
  load_u32 (store_u32 buf off x) off = wrap32 x.
Proof.
  intros Hlen. unfold load_u32. rewrite !byte_at_store by done.
  repeat (case_decide; [|lia]).
  replace (off - off)%nat with 0%nat by lia.
  replace (off + 1 - off)%nat with 1%nat by lia.
  replace (off + 2 - off)%nat with 2%nat by lia.
  replace (off + 3 - off)%nat with 3%nat by lia.
  apply load_be32.
Qed.

Lemma load_store_other buf off x off' :
  (off + 4 <= length buf)%nat ->
  (off' + 4 <= off \/ off + 4 <= off')%nat ->
  load_u32 (store_u32 buf off x) off' = load_u32 buf off'.
Proof.
  intros Hlen Hd. unfold load_u32. rewrite !byte_at_store by done.
  repeat (case_decide; [lia|]). done.
Qed.

Lemma load_u32_range buf off : is_uint32 (load_u32 buf off).
Proof.
  unfold load_u32, is_uint32.
  pose proof (Z_of_byte_range (byte_at buf off)).
  pose proof (Z_of_byte_range (byte_at buf (off + 1))).
  pose proof (Z_of_byte_range (byte_at buf (off + 2))).
  pose proof (Z_of_byte_range (byte_at buf (off + 3))).
  lia.
Qed.

Lemma wrap32_id x : is_uint32 x -> wrap32 x = x.
Proof. unfold is_uint32, wrap32. intros. by apply Z.mod_small. Qed.

Lemma length_bzero size : length (bzero size) = size.
Proof. apply length_replicate. Qed.

Lemma length_store_u32_eq buf off x n :
  length buf = n -> (off + 4 <= n)%nat -> length (store_u32 buf off x) = n.
Proof. intros <- ?. by apply length_store_u32. Qed.

(** Computes the length of a buffer built by stores into a zeroed array. *)
Ltac buf_length :=
  lazymatch goal with
  | |- length (store_u32 _ _ _) = _ =>
      apply length_store_u32_eq; [buf_length | lia]
  | |- length (bzero _) = _ => apply length_bzero
  | |- length _ = _ => eassumption
  end.

(** ** Wire codec *)

Section CodecFacts.

Variables kByzantineMessageType kAckType : Z.

Lemma id_offset_eq i : id_offset i = (16 + 4 * i)%nat.
Proof. reflexivity. Qed.

Lemma length_store_ids l : forall buf i,
  (id_offset (i + length l) <= length buf)%nat ->
  length (store_ids buf i l) = length buf.
Proof.
  induction l as [|id l IH]; intros buf i Hlen; simpl in *; [done|].
  rewrite id_offset_eq in Hlen.
  rewrite IH; rewrite length_store_u32; rewrite ?id_offset_eq; lia.
Qed.

Lemma load_store_ids_below l : forall buf i off,
  (id_offset (i + length l) <= length buf)%nat ->
  (off + 4 <= id_offset i)%nat ->
  load_u32 (store_ids buf i l) off = load_u32 buf off.
Proof.
  induction l as [|id l IH]; intros buf i off Hlen Hoff; simpl in *; [done|].
  rewrite id_offset_eq in Hlen, Hoff.
  rewrite IH;
    [|rewrite length_store_u32; rewrite ?id_offset_eq; lia
     |rewrite id_offset_eq; lia].
  apply load_store_other; rewrite id_offset_eq; lia.
Qed.

Lemma load_store_ids_at l : forall buf i j id,
  (id_offset (i + length l) <= length buf)%nat ->
  l !! j = Some id ->
  load_u32 (store_ids buf i l) (id_offset (i + j)) = wrap32 id.
Proof.
  induction l as [|x l IH]; intros buf i j id Hlen Hj; simpl in *; [done|].
  rewrite id_offset_eq in Hlen. destruct j as [|j]; simplify_eq/=.
  - rewrite load_store_ids_below;
      [|rewrite length_store_u32; rewrite ?id_offset_eq; lia
       |rewrite !id_offset_eq; lia].
    replace (i + 0)%nat with i by lia.
    apply load_store_same. rewrite id_offset_eq. lia.
  - replace (i + S j)%nat with (S i + j)%nat by lia.
    apply IH; [|done].
    rewrite length_store_u32; rewrite ?id_offset_eq; lia.
Qed.

Lemma length_SendMessage_buf msg :
  Z.of_nat (length (SendMessage_buf kByzantineMessageType msg))
  = SendMessage_size msg.
Proof.
  unfold SendMessage_buf, SendMessage_size, sizeof_ByzantineMessage,
    sizeof_uint32_t, off_type, off_size, off_round, off_order.
  set (size := Z.to_nat (16 + 4 * Z.of_nat (length (ids msg)))).
  assert (Hsize : (16 + 4 * length (ids msg))%nat = size) by lia.
  assert (Hhdr : forall a b c d,
    length (store_u32 (store_u32 (store_u32 (store_u32 (bzero size) 0 a)
                                    4 b) 8 c) 12 d) = size)
    by (intros; buf_length).
  rewrite length_store_ids; rewrite Hhdr; rewrite ?id_offset_eq; lia.
Qed.

(** What the decoder reads back from an encoded Relay: every field reduced
    to its 32 bits. *)
Lemma decode_SendMessage_buf msg :
  ByzantineMsgFromBuf (SendMessage_buf kByzantineMessageType msg)
  = Some (mkMessage (wrap32 (round msg)) (wrap32 (order msg))
            (wrap32 <$> ids msg)).
Proof.
  pose proof (length_SendMessage_buf msg) as Hlen.
  unfold ByzantineMsgFromBuf. rewrite Hlen.
  unfold SendMessage_size, sizeof_ByzantineMessage, sizeof_uint32_t in *.
  case_match eqn:Hlt; [apply Z.ltb_lt in Hlt; lia|]. clear Hlt.
  replace (Z.to_nat ((16 + 4 * Z.of_nat (length (ids msg)) - 16) / 4))
    with (length (ids msg))
    by (rewrite Z.add_simpl_l, Z.mul_comm, Z.div_mul by lia; lia).
  unfold SendMessage_buf, SendMessage_size, sizeof_ByzantineMessage,
    sizeof_uint32_t, off_type, off_size, off_round, off_order in *.
  set (size := Z.to_nat (16 + 4 * Z.of_nat (length (ids msg)))).
  assert (Hsize : (16 + 4 * length (ids msg))%nat = size) by lia.
  set (b2 := store_u32 (store_u32 (bzero size) 0 _) 4 _).
  assert (Hb2 : length b2 = size) by (unfold b2; buf_length).
  set (b3 := store_u32 b2 8 _).
  assert (Hb3 : length b3 = size) by (unfold b3; buf_length).
  set (b4 := store_u32 b3 12 _).
  assert (Hb4 : length b4 = size) by (unfold b4; buf_length).
  f_equal. f_equal.
  - rewrite load_store_ids_below by (rewrite ?id_offset_eq, ?Hb4; lia).
    unfold b4. rewrite load_store_other by lia.
    unfold b3. apply load_store_same. lia.
  - rewrite load_store_ids_below by (rewrite ?id_offset_eq, ?Hb4; lia).
    unfold b4. apply load_store_same. lia.
  - apply list_eq. intros j.
    rewrite !list_lookup_fmap.
    destruct (ids msg !! j) as [id|] eqn:Hj; simpl.
    + assert (j < length (ids msg))%nat by (by eapply lookup_lt_Some).
      rewrite lookup_seq_lt by done. simpl.
      rewrite (load_store_ids_at _ _ 0 j id); [done| |done].
      rewrite id_offset_eq, Hb4. lia.
    + apply lookup_ge_None in Hj. by rewrite lookup_seq_ge.
Qed.

Lemma fmap_wrap32_id (l : list Z) : Forall is_uint32 l -> wrap32 <$> l = l.
Proof.
  induction 1 as [|x l Hx _ IH]; [done|].
  rewrite fmap_cons, IH. by rewrite wrap32_id.
Qed.

Lemma length_SendAckForRound_buf r :
  Z.of_nat (length (SendAckForRound_buf kAckType r)) = sizeof_Ack.
Proof.
  unfold SendAckForRound_buf, sizeof_Ack, off_type, off_size, off_round.
  apply (f_equal Z.of_nat (y := 12%nat)). buf_length.
Qed.

Lemma RoundOfAck_SendAckForRound_buf r :
  RoundOfAck (SendAckForRound_buf kAckType r) = Some (wrap32 r).
Proof.
  unfold RoundOfAck. rewrite length_SendAckForRound_buf, Z.eqb_refl. simpl.
  unfold SendAckForRound_buf, sizeof_Ack, off_type, off_size, off_round.
  rewrite load_store_same; [done|].
  match goal with |- (_ <= length ?b)%nat =>
    assert (length b = 12%nat) as -> by buf_length end.
  lia.
Qed.

(** The sender of a Relay stops waiting exactly at an Ack of the round of
    the Relay. *)
Lemma isValidAck_SendAckForRound_buf msg r :
  is_uint32 (round msg) -> is_uint32 r ->
  isValidAck msg (SendAckForRound_buf kAckType r)
  = if decide (r = round msg) then Stop else Continue.
Proof.
  intros Hm Hr. unfold isValidAck.
  rewrite RoundOfAck_SendAckForRound_buf, wrap32_id by done.
  case_decide as Heq.
  - subst. by rewrite Z.eqb_refl.
  - apply Z.eqb_neq in Heq. by rewrite Heq.
Qed.

End CodecFacts.

Lemma length_ids_decoded buf msg :
  ByzantineMsgFromBuf buf = Some msg ->
  Z.of_nat (length (ids msg))
  = (Z.of_nat (length buf) - sizeof_ByzantineMessage) / sizeof_uint32_t.
Proof.
  unfold ByzantineMsgFromBuf, sizeof_ByzantineMessage, sizeof_uint32_t.
  case_match eqn:Hlt; [done|]. apply Z.ltb_ge in Hlt.
  intros [= <-]. simpl. rewrite length_fmap, length_seq.
  rewrite Z2Nat.id; [done|]. apply Z.div_pos; lia.
Qed.

Lemma decoded_wf buf msg :
  ByzantineMsgFromBuf buf = Some msg -> wf_Message msg.
Proof.
  unfold ByzantineMsgFromBuf. case_match; [done|]. intros [= <-].
  repeat split; simpl; try apply load_u32_range.
  apply Forall_fmap, Forall_forall. intros. apply load_u32_range.
Qed.

Lemma decode_frame tag size tag' size' rest :
  ByzantineMsgFromBuf (frame tag size rest)
  = ByzantineMsgFromBuf (frame tag' size' rest).
Proof.
  unfold ByzantineMsgFromBuf, frame. rewrite !length_app.
  change (length (be32 tag)) with 4%nat. change (length (be32 size)) with 4%nat.
  change (length (be32 tag')) with 4%nat.
  change (length (be32 size')) with 4%nat.
  case_match; [done|].
  (* every load is at offset 8 or beyond, past the two words *)
  reflexivity.
Qed.

Lemma RoundOfAck_frame tag size tag' size' rest :
  RoundOfAck (frame tag size rest) = RoundOfAck (frame tag' size' rest).
Proof.
  unfold RoundOfAck, frame. rewrite !length_app.
  change (length (be32 tag)) with 4%nat. change (length (be32 size)) with 4%nat.
  change (length (be32 tag')) with 4%nat.
  change (length (be32 size')) with 4%nat.
  case_match; [done|]. reflexivity.
Qed.

(** C6, as the code has it. Relay decoding looks at the length only to
    require the fixed header: it returns an absent value exactly when the
    buffer is shorter than the header, and otherwise a message whose [ids]
    has (n - header) / 4 entries, rounded down. Ack decoding returns an
    absent value exactly when n is not the Ack size. *)
Theorem decoders_check_length_only (buf : list byte) :
  let n := Z.of_nat (length buf) in
  match ByzantineMsgFromBuf buf with
  | None => n < sizeof_ByzantineMessage
  | Some msg =>
      sizeof_ByzantineMessage <= n
      /\ Z.of_nat (length (ids msg))
         = (n - sizeof_ByzantineMessage) / sizeof_uint32_t
  end
  /\ (RoundOfAck buf = None <-> n <> sizeof_Ack).
Proof.
  intros n. split.
  - destruct (ByzantineMsgFromBuf buf) as [msg|] eqn:E.
    + split; [|by apply length_ids_decoded].
      unfold ByzantineMsgFromBuf in E. fold n in E.
      case_match eqn:Hlt; [done|]. by apply Z.ltb_ge in Hlt.
    + unfold ByzantineMsgFromBuf in E. fold n in E.
      case_match eqn:Hlt; [|done]. by apply Z.ltb_lt in Hlt.
  - unfold RoundOfAck. fold n.
    destruct (n =? sizeof_Ack) eqn:E; simpl.
    + apply Z.eqb_eq in E. split; [done|]. intros H. by destruct H.
    + apply Z.eqb_neq in E. done.
Qed.

(** C6 fails as stated: a buffer of 18 bytes has (18 - 16) mod 4 = 2, and
    Relay decoding does not reject it; it yields a message with no ids and
    ignores the two trailing bytes. *)
Lemma relay_decoding_keeps_ragged_tail :
  (Z.of_nat (length (bzero 18)) - sizeof_ByzantineMessage)
     mod sizeof_uint32_t <> 0
  /\ ByzantineMsgFromBuf (bzero 18) = Some (mkMessage 0 0 []).
Proof. split; [by vm_compute | reflexivity]. Qed.

(** C7, as the code has it. The Relay of scenario S5 (round 2, ATTACK, ids
    0, 3, 1) is encoded by [SendMessage] in 16 + 4 * 3 = 28 bytes and
    decodes back to the same value; the Ack of round 2 is encoded by
    [SendAckForRound] in 12 bytes. *)
Theorem S5_codec (kByzantineMessageType kAckType : Z) :
  SendMessage_size S5_relay = 16 + 4 * (round S5_relay + 1)
  /\ length (SendMessage_buf kByzantineMessageType S5_relay) = 28%nat
  /\ ByzantineMsgFromBuf (SendMessage_buf kByzantineMessageType S5_relay)
     = Some S5_relay
  /\ length (SendAckForRound_buf kAckType 2) = 12%nat.
Proof.
  split; [|split; [|split]].
  - reflexivity.
  - pose proof (length_SendMessage_buf kByzantineMessageType S5_relay) as H.
    change (SendMessage_size S5_relay) with 28 in H. lia.
  - by rewrite decode_SendMessage_buf.
  - pose proof (length_SendAckForRound_buf kAckType 2) as H.
    unfold sizeof_Ack in H. lia.
Qed.

(** C7 fails as stated: whatever the type tag, the Relay of scenario S5 is
    not encoded in 24 bytes. *)
Lemma S5_relay_is_not_24_bytes :
  ~ exists kByzantineMessageType : Z,
      length (SendMessage_buf kByzantineMessageType S5_relay) = 24%nat.
Proof.
  intros [k H].
  pose proof (length_SendMessage_buf k S5_relay) as H'.
  rewrite H in H'. by vm_compute in H'.
Qed.

(** C8. For every Relay whose fields are 32-bit values, decoding the buffer
    of [SendMessage] gives back the round, the order and the ids; for every
    Ack round, [RoundOfAck] of the buffer of [SendAckForRound] gives back
    the round. *)
Theorem codec_round_trip (kByzantineMessageType kAckType : Z)
    (msg : Message) (r : Z) :
  wf_Message msg ->
  is_uint32 r ->
  ByzantineMsgFromBuf (SendMessage_buf kByzantineMessageType msg) = Some msg
  /\ RoundOfAck (SendAckForRound_buf kAckType r) = Some r.
Proof.
  intros (Hr & Ho & Hids) Hack. split.
  - rewrite decode_SendMessage_buf.
    rewrite !wrap32_id, fmap_wrap32_id by done. by destruct msg.
  - by rewrite RoundOfAck_SendAckForRound_buf, wrap32_id.
Qed.

Lemma codec_round_trip_witness :
  ByzantineMsgFromBuf (SendMessage_buf 1 S5_relay) = Some S5_relay
  /\ RoundOfAck (SendAckForRound_buf 2 2) = Some 2.
Proof.
  apply (codec_round_trip 1 2 S5_relay 2).
  - unfold wf_Message, is_uint32, S5_relay, ATTACK. simpl.
    repeat first [split | constructor | lia].
  - unfold is_uint32. lia.
Defined.

(** C10. Acceptance by either decoder depends on the length of the buffer
    alone: a Relay is decoded exactly when the buffer has at least the
    header's 16 bytes, an Ack round exactly when it has 12 bytes; and the
    value decoded does not depend on the type tag or on the size field. *)
Theorem decoders_ignore_type_and_size (buf rest : list byte)
    (tag size tag' size' : Z) :
  (is_Some (ByzantineMsgFromBuf buf)
     <-> sizeof_ByzantineMessage <= Z.of_nat (length buf))
  /\ (is_Some (RoundOfAck buf) <-> Z.of_nat (length buf) = sizeof_Ack)
  /\ ByzantineMsgFromBuf (frame tag size rest)
     = ByzantineMsgFromBuf (frame tag' size' rest)
  /\ RoundOfAck (frame tag size rest) = RoundOfAck (frame tag' size' rest).
Proof.
  split; [|split; [|split]].
  - unfold ByzantineMsgFromBuf.
    destruct (Z.of_nat (length buf) <? sizeof_ByzantineMessage) eqn:E.
    + apply Z.ltb_lt in E. split; [by intros [? ?]|lia].
    + apply Z.ltb_ge in E. split; [done|by eexists].
  - unfold RoundOfAck.
    destruct (Z.of_nat (length buf) =? sizeof_Ack) eqn:E; simpl.
    + apply Z.eqb_eq in E. split; [done|by eexists].
    + apply Z.eqb_neq in E. split; [by intros [? ?]|done].
  - apply decode_frame.
  - apply RoundOfAck_frame.
Qed.

(** ** Decision function *)

Lemma count_elem `{Countable K} (s : gset K) (x : K) :
  count s x = 1 <-> x ∈ s.
Proof. unfold count. case_decide; split; intros; done || lia. Qed.

Lemma count_not_elem `{Countable K} (s : gset K) (x : K) :
  count s x = 0 <-> x ∉ s.
Proof. unfold count. case_decide; split; intros; done || lia. Qed.

Lemma DecideOrder_ATTACK st :
  DecideOrder st = ATTACK <-> orders_seen_ st = {[ATTACK]}.
Proof.
  unfold DecideOrder.
  destruct (Z.of_nat (size (orders_seen_ st)) =? 1) eqn:Hsize; simpl.
  - apply Z.eqb_eq in Hsize.
    destruct (count (orders_seen_ st) ATTACK =? 1) eqn:Hcount.
    + apply Z.eqb_eq, count_elem in Hcount. split; [intros _|done].
      assert (Hs : size (orders_seen_ st) = 1%nat) by lia.
      apply size_1_elem_of in Hs as [x Hx].
      apply leibniz_equiv in Hx. rewrite Hx in Hcount |- *.
      apply elem_of_singleton in Hcount. by subst.
    + apply Z.eqb_neq in Hcount. split; [done|]. intros Hs.
      exfalso. apply Hcount, count_elem. rewrite Hs. set_solver.
  - apply Z.eqb_neq in Hsize. split; [done|]. intros Hs.
    rewrite Hs, size_singleton in Hsize. lia.
Qed.

Lemma DecideOrder_cases st :
  DecideOrder st = ATTACK \/ DecideOrder st = RETREAT.
Proof. unfold DecideOrder. case_match; auto. Qed.

(** C2. [DecideOrder] returns ATTACK if and only if [orders_seen_] is
    exactly {ATTACK}; in every other case, among them the empty set and
    every set that contains RETREAT, it returns RETREAT. *)
Theorem DecideOrder_spec (st : Lieutenant) :
  (DecideOrder st = ATTACK <-> orders_seen_ st = {[ATTACK]})
  /\ (DecideOrder st = RETREAT <-> orders_seen_ st <> {[ATTACK]})
  /\ (orders_seen_ st = ∅ \/ RETREAT ∈ orders_seen_ st ->
      DecideOrder st = RETREAT).
Proof.
  pose proof (DecideOrder_ATTACK st) as HA.
  assert (HR : DecideOrder st = RETREAT <-> orders_seen_ st <> {[ATTACK]}).
  { destruct (DecideOrder_cases st) as [E|E]; rewrite E.
    - split; [done|]. intros Hne. exfalso. by apply Hne, HA.
    - split; [|done]. intros _ Hs. apply HA in Hs. by rewrite E in Hs. }
  split; [done|]. split; [done|].
  intros [Hempty|Hin]; apply HR; intros Hs.
  - rewrite Hs in Hempty. set_solver.
  - rewrite Hs in Hin. by apply elem_of_singleton in Hin.
Qed.

Lemma DecideOrder_spec_witness : DecideOrder saw_both_orders = RETREAT.
Proof.
  apply (proj2 (proj2 (DecideOrder_spec saw_both_orders))).
  right. vm_compute. reflexivity.
Defined.

(** ** Message validator *)

Lemma size_list_to_set_le (l : list Z) :
  (size (list_to_set l : gset Z) <= length l)%nat.
Proof.
  induction l as [|x l IH].
  - by rewrite list_to_set_nil, size_empty.
  - rewrite list_to_set_cons. simpl length.
    destruct (decide (x ∈ (list_to_set l : gset Z))) as [Hin|Hnin].
    + replace ({[x]} ∪ list_to_set l : gset Z) with (list_to_set l : gset Z)
        by set_solver.
      lia.
    + rewrite size_union by set_solver. rewrite size_singleton. lia.
Qed.

Lemma size_list_to_set_NoDup (l : list Z) :
  size (list_to_set l : gset Z) = length l -> NoDup l.
Proof.
  induction l as [|x l IH]; [constructor|].
  rewrite list_to_set_cons. simpl length. intros Hsize.
  pose proof (size_list_to_set_le l).
  destruct (decide (x ∈ (list_to_set l : gset Z))) as [Hin|Hnin].
  - replace ({[x]} ∪ list_to_set l : gset Z) with (list_to_set l : gset Z)
      in Hsize by set_solver.
    lia.
  - rewrite size_union, size_singleton in Hsize by set_solver.
    constructor; [set_solver|]. apply IH. lia.
Qed.

Lemma scan_ids_spec st l : forall idset,
  scan_ids st l idset
  = if decide (Forall (admissible_id st) l)
    then Some (list_to_set l ∪ idset) else None.
Proof.
  induction l as [|id l IH]; intros idset; simpl scan_ids.
  - rewrite decide_True by constructor. f_equal. set_solver.
  - destruct (id >=? process_num st) eqn:Hge.
    { rewrite decide_False; [done|]. intros H. inversion H as [|?? [??]].
      subst. apply Z.geb_le in Hge. lia. }
    destruct (id =? id_ st) eqn:Heq.
    { rewrite decide_False; [done|]. intros H. inversion H as [|?? [??]].
      subst. apply Z.eqb_eq in Heq. done. }
    assert (Hid : admissible_id st id).
    { split; [|by apply Z.eqb_neq].
      destruct (Z.geb_spec id (process_num st)); [done|lia]. }
    rewrite IH. destruct (decide (Forall (admissible_id st) l)) as [Hl|Hl].
    + rewrite decide_True by (by constructor). f_equal. set_solver.
    + rewrite decide_False; [done|]. intros H. by inversion H.
Qed.

Lemma eqb_string_true (a b : string) : String.eqb a b = true <-> a = b.
Proof. apply String.eqb_eq. Qed.

(** The validator on a message that passed the round and the length
    check and whose path is not empty. *)
Lemma ValidMessage_true_iff st msg from :
  wf_Message msg ->
  Z.of_nat (length (ids msg)) < 2 ^ 32 ->
  ValidMessage st msg from = Returns true <-> valid_spec st msg from.
Proof.
  intros (Hr & _ & Hids) Hshort. unfold ValidMessage, valid_spec.
  destruct (round msg =? round_ st) eqn:Hround; simpl;
    [apply Z.eqb_eq in Hround|apply Z.eqb_neq in Hround; by split; [|intros []]].
  destruct (wrap32 (round msg + 1) =? Z.of_nat (length (ids msg))) eqn:Hlen;
    simpl; [apply Z.eqb_eq in Hlen|apply Z.eqb_neq in Hlen].
  2:{ split; [done|]. intros (_ & Hl & _). exfalso. apply Hlen.
      rewrite Hl. apply wrap32_id. unfold is_uint32 in *. lia. }
  destruct (ids msg !! 0%nat) as [id0|] eqn:H0.
  2:{ split; [done|]. by intros (_ & _ & ? & _). }
  destruct (id0 =? 0) eqn:Hid0; simpl;
    [apply Z.eqb_eq in Hid0; subst id0
    |apply Z.eqb_neq in Hid0; split; [done|]; intros (_ & _ & [= ?] & _); done].
  rewrite scan_ids_spec.
  destruct (decide (Forall (admissible_id st) (ids msg))) as [Hadm|Hadm].
  2:{ split; [done|]. intros (_ & _ & _ & Hlt & Hne & _). exfalso.
      apply Hadm. apply Forall_and. done. }
  apply Forall_and in Hadm as [Hlt Hne].
  replace (list_to_set (ids msg) ∪ ∅ : gset Z)
    with (list_to_set (ids msg) : gset Z) by set_solver.
  pose proof (size_list_to_set_le (ids msg)) as Hle.
  destruct (size (list_to_set (ids msg) : gset Z) <? length (ids msg))%nat
    eqn:Hsize; [apply Nat.ltb_lt in Hsize|apply Nat.ltb_ge in Hsize].
  { split; [done|]. intros (_ & _ & _ & _ & _ & Hnd & _).
    apply (size_list_to_set (C := gset Z)) in Hnd. lia. }
  assert (Hnd : NoDup (ids msg)) by (apply size_list_to_set_NoDup; lia).
  destruct (last (ids msg)) as [i|] eqn:Hlast; simpl.
  2:{ apply last_None in Hlast. by rewrite Hlast in H0. }
  destruct (processes_ st !! Z.to_nat i) as [a|] eqn:Ha; simpl.
  2:{ split; [done|]. intros (_ & _ & _ & _ & _ & _ & i' & a & [= <-] & ? & _).
      congruence. }
  destruct (String.eqb (hostname a) (hostname from)) eqn:Hhost; simpl.
  - apply eqb_string_true in Hhost. split; [intros _|done].
    repeat split; try done.
    + (* length = round + 1 without wrap-around: the path is not empty *)
      assert (0 < length (ids msg))%nat by (by eapply lookup_lt_Some).
      unfold wrap32, is_uint32 in *.
      destruct (decide (round msg + 1 < 2 ^ 32)).
      * rewrite Z.mod_small in Hlen by lia. lia.
      * replace (round msg + 1) with (2 ^ 32) in Hlen by lia.
        rewrite Z.mod_same in Hlen by lia. lia.
    + by exists i, a.
  - split; [done|].
    intros (_ & _ & _ & _ & _ & _ & i' & a' & [= <-] & Ha' & Hsame).
    assert (a' = a) by congruence. subst a'.
    apply eqb_string_true in Hsame. congruence.
Qed.

Lemma ValidMessage_defined st msg from :
  wf_Message msg ->
  round_ st <> 2 ^ 32 - 1 ->
  exists b, ValidMessage st msg from = Returns b.
Proof.
  intros (Hr & _ & Hids) Hmax. unfold ValidMessage.
  destruct (round msg =? round_ st) eqn:Hround; simpl; [|by eexists].
  apply Z.eqb_eq in Hround.
  destruct (wrap32 (round msg + 1) =? Z.of_nat (length (ids msg))) eqn:Hlen;
    simpl; [|by eexists].
  apply Z.eqb_eq in Hlen.
  assert (Hpos : (0 < length (ids msg))%nat).
  { unfold wrap32, is_uint32 in *. rewrite Z.mod_small in Hlen by lia. lia. }
  destruct (ids msg !! 0%nat) as [id0|] eqn:H0.
  2:{ apply lookup_ge_None in H0. lia. }
  destruct (id0 =? 0); simpl; [|by eexists].
  rewrite scan_ids_spec.
  destruct (decide (Forall (admissible_id st) (ids msg))) as [Hadm|Hadm];
    [|by eexists].
  case_match; [by eexists|].
  destruct (last (ids msg)) as [i|] eqn:Hlast; simpl.
  2:{ apply last_None in Hlast. by rewrite Hlast in H0. }
  assert (Hi : i ∈ ids msg).
  { apply last_Some in Hlast as [l' ->]. set_solver. }
  pose proof (proj1 (Forall_forall _ _) Hadm i Hi) as [Hlt _].
  pose proof (proj1 (Forall_forall _ _) Hids i Hi) as [Hge _].
  destruct (processes_ st !! Z.to_nat i) as [a|] eqn:Ha; simpl.
  - case_match; by eexists.
  - apply lookup_ge_None in Ha. unfold process_num in Hlt. lia.
Qed.

Lemma ValidMessage_port st msg from from' :
  hostname from' = hostname from ->
  ValidMessage st msg from' = ValidMessage st msg from.
Proof. intros Hh. unfold ValidMessage. by rewrite Hh. Qed.

(** C3. For every message decoded from a datagram (of fewer than 2^32
    bytes) and every sender address, [ValidMessage] returns true if and only
    if the seven clauses hold; only the hostname of the sender is looked at,
    not its port. Unless [round_] is the largest [unsigned int], the call
    returns true or false (at that value [msg.round + 1] wraps to 0 and an
    empty path reaches [msg.ids[0]]). *)
Theorem ValidMessage_spec (st : Lieutenant) (buf : list byte)
    (msg : Message) (from : Address) :
  ByzantineMsgFromBuf buf = Some msg ->
  Z.of_nat (length buf) < 2 ^ 32 ->
  (ValidMessage st msg from = Returns true <-> valid_spec st msg from)
  /\ (forall p, ValidMessage st msg (mkAddress (hostname from) p)
                = ValidMessage st msg from)
  /\ (round_ st <> 2 ^ 32 - 1 ->
      exists b, ValidMessage st msg from = Returns b).
Proof.
  intros Hdec Hbuf. pose proof (decoded_wf _ _ Hdec) as Hwf.
  assert (Hshort : Z.of_nat (length (ids msg)) < 2 ^ 32).
  { rewrite (length_ids_decoded _ _ Hdec).
    unfold ByzantineMsgFromBuf in Hdec.
    destruct (Z.of_nat (length buf) <? sizeof_ByzantineMessage) eqn:Hlt;
      [done|]. apply Z.ltb_ge in Hlt.
    unfold sizeof_ByzantineMessage, sizeof_uint32_t in *.
    apply Z.div_lt_upper_bound; lia. }
  split; [by apply ValidMessage_true_iff|]. split.
  - intros p. by apply ValidMessage_port.
  - by apply ValidMessage_defined.
Qed.

Lemma ValidMessage_spec_witness :
  (ValidMessage waiting_in_round_1 relay_of_3 (mkAddress "h3" 40002)
     = Returns true
   <-> valid_spec waiting_in_round_1 relay_of_3 (mkAddress "h3" 40002))
  /\ (forall p,
        ValidMessage waiting_in_round_1 relay_of_3 (mkAddress "h3" p)
        = ValidMessage waiting_in_round_1 relay_of_3 (mkAddress "h3" 40002))
  /\ (round_ waiting_in_round_1 <> 2 ^ 32 - 1 ->
      exists b,
        ValidMessage waiting_in_round_1 relay_of_3 (mkAddress "h3" 40002)
        = Returns b).
Proof.
  apply (ValidMessage_spec waiting_in_round_1 (SendMessage_buf 1 relay_of_3)
           relay_of_3 (mkAddress "h3" 40002)).
  - vm_compute. reflexivity.
  - vm_compute. reflexivity.
Defined.

(** ** Round completion *)

Lemma MessagesForRound_M_spec n k :
  MessagesForRound n k = M_spec n k mod 2 ^ 64.
Proof.
  induction k as [|k IH].
  - reflexivity.
  - cbn [MessagesForRound M_spec]. rewrite IH. unfold wrap64.
    by rewrite <- Z.mul_mod by lia.
Qed.

Lemma RoundComplete_iff st :
  RoundComplete st = true
  <-> Z.of_nat (size (ids_this_round_ st))
      = M_spec (process_num st) (Z.to_nat (round_ st)) mod 2 ^ 64.
Proof.
  unfold RoundComplete. rewrite MessagesForRound_M_spec. apply Z.eqb_eq.
Qed.

(** ** The callbacks, case by case *)

Lemma spawn_eq batches st :
  spawn batches st
  = Returns (tt, st, (fun b => AddThread b.1 b.2) <$> batches).
Proof.
  induction batches as [|[pid batch] rest IH]; [done|].
  cbn [spawn]. unfold bind, emit. by rewrite IH.
Qed.

Lemma InitNewRound_eq st :
  InitNewRound st
  = match relay_loop (wrap32 (round_ st + 1)) (id_ st)
            (length (processes_ st)) (elements (msgs_this_round_ st)) ∅ with
    | None => Throws
    | Some toSend =>
        Returns (tt, next_round st,
                 (fun b => AddThread b.1 b.2) <$> map_to_list toSend)
    end.
Proof.
  unfold InitNewRound, bind, ClearSenders, ret, modify, get, throw. simpl.
  destruct (relay_loop _ _ _ _ _) as [toSend|]; [|done].
  rewrite spawn_eq. simpl. by rewrite app_nil_r.
Qed.

Lemma MoveToNewRoundOrStop_eq st :
  MoveToNewRoundOrStop st
  = if LastRound st then Returns (Stop, st, [])
    else match InitNewRound st with
         | Returns (_, st', out) => Returns (Continue, st', out)
         | Throws => Throws
         | Undefined => Undefined
         end.
Proof.
  unfold MoveToNewRoundOrStop, bind, get, ClearSenders, ret. simpl.
  destruct (LastRound st); [done|].
  destruct (InitNewRound st) as [[[[] st'] out]| |]; [|done..].
  by rewrite app_nil_r.
Qed.

Section CallbackFacts.

Variable kAckType : Z.

Lemma on_message_no_decode client buf st :
  ByzantineMsgFromBuf buf = None ->
  on_message kAckType client buf st = Returns (Continue, st, []).
Proof. intros E. unfold on_message. by rewrite E. Qed.

Lemma on_message_invalid client buf msg st :
  ByzantineMsgFromBuf buf = Some msg ->
  ValidMessage st msg client = Returns false ->
  on_message kAckType client buf st = Returns (Continue, st, []).
Proof.
  intros E V. unfold on_message. rewrite E. unfold bind, call. by rewrite V.
Qed.

Lemma on_message_valid client buf msg st :
  ByzantineMsgFromBuf buf = Some msg ->
  ValidMessage st msg client = Returns true ->
  on_message kAckType client buf st
  = let ack := Send client (SendAckForRound_buf kAckType (round_ st)) in
    if FirstRound st then
      if Z.of_nat (size (orders_seen_ st)) =? 0
      then after ack (MoveToNewRoundOrStop (accept_first msg st))
      else Returns (Continue, st, [ack])
    else
      if count (ids_this_round_ st) (ids msg) =? 0 then
        if RoundComplete (accept_later msg st)
        then after ack (MoveToNewRoundOrStop (accept_later msg st))
        else Returns (Continue, accept_later msg st, [ack])
      else Returns (Continue, st, [ack]).
Proof.
  intros E V. unfold on_message. rewrite E.
  unfold bind at 1. unfold call. rewrite V. simpl negb. cbv iota.
  unfold bind, get, SendAckForRound, emit, modify, ret,
    ContinueUnlessTimeout. simpl.
  destruct (FirstRound st) eqn:Hfirst; simpl.
  - destruct (Z.of_nat (size (orders_seen_ st)) =? 0); simpl; [|done].
    fold (accept_first msg st).
    by destruct (MoveToNewRoundOrStop (accept_first msg st))
      as [[[a st'] out]| |].
  - destruct (count (ids_this_round_ st) (ids msg) =? 0); simpl; [|done].
    fold (accept_later msg st).
    destruct (RoundComplete (accept_later msg st)); simpl; [|done].
    by destruct (MoveToNewRoundOrStop (accept_later msg st))
      as [[[a st'] out]| |].
Qed.

Lemma on_timeout_eq st :
  on_timeout st
  = if FirstRound st then Returns (Continue, st, [])
    else MoveToNewRoundOrStop st.
Proof.
  unfold on_timeout, HandleRoundTimeout, bind, get, ret. simpl.
  destruct (FirstRound st); [done|].
  destruct (MoveToNewRoundOrStop st) as [[[a st'] out]| |]; done.
Qed.

End CallbackFacts.

Lemma ValidMessage_true_round st msg from :
  ValidMessage st msg from = Returns true -> round msg = round_ st.
Proof.
  unfold ValidMessage.
  destruct (round msg =? round_ st) eqn:E; simpl; [|done].
  by apply Z.eqb_eq in E.
Qed.

Lemma wrap32_pred_succ r : is_uint32 r -> wrap32 (wrap32 (r + 1) - 1) = r.
Proof.
  unfold is_uint32, wrap32. intros Hr.
  destruct (decide (r + 1 < 2 ^ 32)).
  - rewrite (Z.mod_small (r + 1)) by lia. rewrite Z.mod_small; lia.
  - replace (r + 1) with (2 ^ 32) by lia. rewrite Z.mod_same by lia.
    replace r with (2 ^ 32 - 1) by lia. reflexivity.
Qed.

(** The loop of [InitNewRound] does not throw when every retained message
    is of the round that ends. *)
Lemma relay_loop_Some r id n msgs : forall toSend,
  Forall (fun m => round m = wrap32 (r - 1)) msgs ->
  is_Some (relay_loop r id n msgs toSend).
Proof.
  induction msgs as [|m msgs IH]; intros toSend Hall; simpl; [by eexists|].
  inversion Hall as [|?? Hm Hrest]; subst.
  rewrite Hm, Z.eqb_refl. simpl. by apply IH.
Qed.

Lemma InitNewRound_Returns st :
  is_uint32 (round_ st) ->
  (forall m, m ∈ msgs_this_round_ st -> round m = round_ st) ->
  exists out, InitNewRound st = Returns (tt, next_round st, out).
Proof.
  intros Hr Hall. rewrite InitNewRound_eq.
  destruct (relay_loop_Some (wrap32 (round_ st + 1)) (id_ st)
              (length (processes_ st)) (elements (msgs_this_round_ st)) ∅)
    as [toSend ->]; [|by eexists].
  apply Forall_forall. intros m Hm. rewrite wrap32_pred_succ by done.
  apply Hall. by apply elem_of_elements.
Qed.

(** The ways a step of the listen loop leaves the Lieutenant listening. *)
Lemma Listen_step_Listening kAckType ev st st' out :
  Listen_step kAckType ev st = (Listening st', out) ->
  st' = st
  \/ (exists st1, st' = next_round st1)
  \/ (exists client msg,
        FirstRound st = false
        /\ ValidMessage st msg client = Returns true
        /\ (ids msg ∉ ids_this_round_ st)
        /\ st' = accept_later msg st).
Proof.
  assert (Hmove : forall st1 e st2 out2,
    match after e (MoveToNewRoundOrStop st1) with
    | Returns (Continue, s, o) => (Listening s, o)
    | Returns (Stop, s, o) => (Stopped s, o)
    | _ => (Aborted, [])
    end = (Listening st2, out2) -> st2 = next_round st1).
  { intros st1 e st2 out2. rewrite MoveToNewRoundOrStop_eq.
    destruct (LastRound st1); simpl; [done|].
    rewrite InitNewRound_eq. destruct (relay_loop _ _ _ _ _); simpl; [|done].
    by intros [= <- _]. }
  unfold Listen_step. destruct ev as [client buf|].
  - destruct (ByzantineMsgFromBuf buf) as [msg|] eqn:E.
    2:{ rewrite on_message_no_decode by done. intros [= <- _]. by left. }
    destruct (ValidMessage st msg client) as [[|]| |] eqn:V.
    + rewrite (on_message_valid _ _ _ _ _ E V). cbv zeta.
      destruct (FirstRound st) eqn:Hfirst.
      * destruct (Z.of_nat (size (orders_seen_ st)) =? 0).
        -- intros H. apply Hmove in H. right; left. by eexists.
        -- intros [= <- _]. by left.
      * destruct (count (ids_this_round_ st) (ids msg) =? 0) eqn:Hcount.
        -- apply Z.eqb_eq, count_not_elem in Hcount.
           destruct (RoundComplete (accept_later msg st)).
           ++ intros H. apply Hmove in H. right; left. by eexists.
           ++ intros [= <- _]. right; right. exists client, msg. done.
        -- intros [= <- _]. by left.
    + rewrite (on_message_invalid _ _ _ _ _ E V). intros [= <- _]. by left.
    + unfold on_message. rewrite E. unfold bind, call. by rewrite V.
    + unfold on_message. rewrite E. unfold bind, call. by rewrite V.
  - rewrite on_timeout_eq. destruct (FirstRound st).
    + intros [= <- _]. by left.
    + rewrite MoveToNewRoundOrStop_eq.
      destruct (LastRound st); [done|].
      rewrite InitNewRound_eq. destruct (relay_loop _ _ _ _ _); [|done].
      intros [= <- _]. right; left. by eexists.
Qed.

(** ** Round State invariants *)

(** What the listen loop keeps between two callbacks; it yields
    [round_state_inv]. *)
Lemma round_state_inv_of st :
  (forall m, m ∈ msgs_this_round_ st -> round m = round_ st) ->
  ids_this_round_ st = set_map ids (msgs_this_round_ st) ->
  size (ids_this_round_ st) = size (msgs_this_round_ st) ->
  (round_ st = 0 -> msgs_this_round_ st = ∅) ->
  round_state_inv st.
Proof.
  intros H1 H2 H3 H4. repeat split; try done.
  intros H0. rewrite (H4 H0), size_empty. lia.
Qed.

Lemma listening_inv kAckType st0 st :
  listening kAckType st0 st ->
  msgs_this_round_ st0 = ∅ -> ids_this_round_ st0 = ∅ ->
  (forall m, m ∈ msgs_this_round_ st -> round m = round_ st)
  /\ ids_this_round_ st = set_map ids (msgs_this_round_ st)
  /\ size (ids_this_round_ st) = size (msgs_this_round_ st)
  /\ (round_ st = 0 -> msgs_this_round_ st = ∅).
Proof.
  intros Hl Hm0 Hi0. induction Hl as [|st ev st' out _ IH Hstep].
  - rewrite Hm0, Hi0. repeat split; first [done | set_solver].
  - destruct IH as (Hround & Hmap & Hsize & Hzero).
    apply Listen_step_Listening in Hstep
      as [->|[[st1 ->]|(client & msg & Hfirst & Hvalid & Hnew & ->)]].
    + done.
    + simpl. repeat split; first [done | set_solver].
    + apply ValidMessage_true_round in Hvalid.
      assert (Hnotin : msg ∉ msgs_this_round_ st).
      { intros Hin. apply Hnew. rewrite Hmap. apply elem_of_map. eauto. }
      simpl. repeat split.
      * intros m [->%elem_of_singleton|Hin]%elem_of_union; auto.
      * rewrite Hmap. apply leibniz_equiv.
        rewrite set_map_union, set_map_singleton. done.
      * rewrite !size_union, !size_singleton by set_solver. lia.
      * intros H0. unfold FirstRound in Hfirst.
        apply Z.eqb_neq in Hfirst. done.
Qed.

Lemma Listen_listening kAckType evs : forall st0 st1 st,
  listening kAckType st0 st1 ->
  Listen kAckType evs st1 = Listening st ->
  listening kAckType st0 st.
Proof.
  induction evs as [|ev evs IH]; intros st0 st1 st Hl; simpl.
  - by intros [= <-].
  - destruct (Listen_step kAckType ev st1) as [l out] eqn:Hstep. simpl.
    destruct l as [st2| |]; try done.
    apply IH. by eapply listening_next.
Qed.

Lemma waiting_in_round_1_listening :
  listening 2 lieutenant_1 waiting_in_round_1.
Proof.
  apply (Listen_listening 2 round_1_events lieutenant_1 lieutenant_1).
  - apply listening_start.
  - vm_compute. reflexivity.
Qed.

(** The ways a step of the listen loop stops it. *)
Lemma Listen_step_Stopped kAckType ev st st' out :
  Listen_step kAckType ev st = (Stopped st', out) ->
  (FirstRound st = false /\ st' = st)
  \/ (exists client msg,
        FirstRound st = true
        /\ ValidMessage st msg client = Returns true
        /\ st' = accept_first msg st)
  \/ (exists client msg,
        FirstRound st = false
        /\ ValidMessage st msg client = Returns true
        /\ (ids msg ∉ ids_this_round_ st)
        /\ st' = accept_later msg st).
Proof.
  assert (Hmove : forall st1 e st2 out2,
    match after e (MoveToNewRoundOrStop st1) with
    | Returns (Continue, s, o) => (Listening s, o)
    | Returns (Stop, s, o) => (Stopped s, o)
    | _ => (Aborted, [])
    end = (Stopped st2, out2) -> st2 = st1).
  { intros st1 e st2 out2. rewrite MoveToNewRoundOrStop_eq.
    destruct (LastRound st1); simpl; [by intros [= <- _]|].
    rewrite InitNewRound_eq. by destruct (relay_loop _ _ _ _ _). }
  unfold Listen_step. destruct ev as [client buf|].
  - destruct (ByzantineMsgFromBuf buf) as [msg|] eqn:E.
    2:{ by rewrite on_message_no_decode. }
    destruct (ValidMessage st msg client) as [[|]| |] eqn:V.
    + rewrite (on_message_valid _ _ _ _ _ E V). cbv zeta.
      destruct (FirstRound st) eqn:Hfirst.
      * destruct (Z.of_nat (size (orders_seen_ st)) =? 0); [|done].
        intros H. apply Hmove in H. right; left. by exists client, msg.
      * destruct (count (ids_this_round_ st) (ids msg) =? 0) eqn:Hcount;
          [|done].
        apply Z.eqb_eq, count_not_elem in Hcount.
        destruct (RoundComplete (accept_later msg st)); [|done].
        intros H. apply Hmove in H. right; right. by exists client, msg.
    + by rewrite (on_message_invalid _ _ _ _ _ E V).
    + unfold on_message. rewrite E. unfold bind, call. by rewrite V.
    + unfold on_message. rewrite E. unfold bind, call. by rewrite V.
  - rewrite on_timeout_eq. destruct (FirstRound st) eqn:Hfirst; [done|].
    rewrite MoveToNewRoundOrStop_eq. destruct (LastRound st).
    + intros [= <- _]. by left.
    + rewrite InitNewRound_eq. by destruct (relay_loop _ _ _ _ _).
Qed.

Lemma Listen_inv kAckType st0 evs : forall st1,
  msgs_this_round_ st0 = ∅ -> ids_this_round_ st0 = ∅ ->
  listening kAckType st0 st1 ->
  loop_state_inv (Listen kAckType evs st1).
Proof.
  induction evs as [|ev evs IH]; intros st1 Hm0 Hi0 Hl; simpl.
  - destruct (listening_inv _ _ _ Hl Hm0 Hi0) as (H1 & H2 & H3 & H4).
    by apply round_state_inv_of.
  - destruct (Listen_step kAckType ev st1) as [l out] eqn:Hstep. simpl.
    destruct l as [st2|st2|]; [|clear IH|done].
    { apply IH; try done. by eapply listening_next. }
    destruct (listening_inv _ _ _ Hl Hm0 Hi0) as (Hround & Hmap & Hsize & Hzero).
    apply Listen_step_Stopped in Hstep
      as [[Hfirst ->]|[(client & msg & Hfirst & Hvalid & ->)
                     |(client & msg & Hfirst & Hvalid & Hnew & ->)]].
    + repeat split; try done. intros H0. rewrite (Hzero H0), size_empty. lia.
    + apply ValidMessage_true_round in Hvalid.
      unfold FirstRound in Hfirst. apply Z.eqb_eq in Hfirst.
      simpl. rewrite (Hzero Hfirst). split; [|split].
      * intros m Hm. assert (m = msg) as -> by set_solver. done.
      * done.
      * intros _. rewrite union_empty_r_L, size_singleton. lia.
    + apply ValidMessage_true_round in Hvalid.
      unfold FirstRound in Hfirst. apply Z.eqb_neq in Hfirst.
      assert (Hnotin : msg ∉ msgs_this_round_ st1).
      { intros Hin. apply Hnew. rewrite Hmap. apply elem_of_map. eauto. }
      simpl. split; [|split].
      * intros m [->%elem_of_singleton|Hin]%elem_of_union; auto.
      * intros _. split.
        -- rewrite Hmap. apply leibniz_equiv.
           by rewrite set_map_union, set_map_singleton.
        -- rewrite !size_union, !size_singleton by set_solver. lia.
      * done.
Qed.

(** C5, as the code has it. After any sequence of datagrams and timeouts,
    while the Lieutenant waits for the next one and after its loop has
    stopped: every retained message has the current round, and at round 0
    at most one message is retained; the retained paths are the paths of the
    retained messages, one for each message, except in the state in which
    the loop has stopped in round 0. *)
Theorem Round_State_invariants (kAckType : Z) (id : Z)
    (processes : list Address) (faulty : Z) (evs : list Event) :
  loop_state_inv (Listen kAckType evs (new_Lieutenant id processes faulty)).
Proof.
  apply (Listen_inv kAckType (new_Lieutenant id processes faulty)); try done.
  apply listening_start.
Qed.

(** C5 fails as stated: in a run of a single round (m = 0) the callback
    that accepts the order of the Commander retains the message, records no
    path and stops the loop; between that acceptance and the decision one
    message is retained and no path. *)
Lemma single_round_run_has_no_path :
  match Listen 2 [order_of_the_Commander] single_round_lieutenant with
  | Stopped st =>
      size (msgs_this_round_ st) = 1%nat
      /\ size (ids_this_round_ st) = 0%nat
      /\ ~ round_state_inv st
  | _ => False
  end.
Proof.
  assert (E : Listen 2 [order_of_the_Commander] single_round_lieutenant
              = Stopped (accept_first (mkMessage 0 ATTACK [0])
                           single_round_lieutenant))
    by (vm_compute; reflexivity).
  rewrite E.
  assert (Hm : size (msgs_this_round_ (accept_first (mkMessage 0 ATTACK [0])
                                         single_round_lieutenant)) = 1%nat)
    by (by vm_compute).
  assert (Hi : size (ids_this_round_ (accept_first (mkMessage 0 ATTACK [0])
                                        single_round_lieutenant)) = 0%nat)
    by (by vm_compute).
  split; [done|]. split; [done|].
  intros (_ & (_ & Hsize) & _). rewrite Hm, Hi in Hsize. done.
Qed.

(** ** Rejected datagrams *)

(** C9. A datagram that does not decode, or that decodes to a message for
    which [ValidMessage] returns false, makes the callback emit nothing (no
    Ack), leave the Lieutenant's state as it was and return [Continue]: the
    listen loop goes on. *)
Theorem rejected_datagram_is_dropped (kAckType : Z) (client : Address)
    (buf : list byte) (st : Lieutenant) :
  ByzantineMsgFromBuf buf = None
  \/ (exists msg, ByzantineMsgFromBuf buf = Some msg
                  /\ ValidMessage st msg client = Returns false) ->
  on_message kAckType client buf st = Returns (Continue, st, [])
  /\ Listen_step kAckType (Datagram client buf) st = (Listening st, []).
Proof.
  intros Hrej.
  assert (H : on_message kAckType client buf st = Returns (Continue, st, [])).
  { destruct Hrej as [E|(msg & E & V)].
    - by apply on_message_no_decode.
    - by eapply on_message_invalid. }
  split; [done|]. unfold Listen_step. by rewrite H.
Qed.

Lemma rejected_datagram_is_dropped_witness :
  on_message 2 (mkAddress "h0" 40000) (bzero 3) lieutenant_1
    = Returns (Continue, lieutenant_1, [])
  /\ Listen_step 2 (Datagram (mkAddress "h0" 40000) (bzero 3)) lieutenant_1
     = (Listening lieutenant_1, []).
Proof.
  apply (rejected_datagram_is_dropped 2 (mkAddress "h0" 40000) (bzero 3)
           lieutenant_1).
  left. vm_compute. reflexivity.
Defined.

(** ** Round completion and round advance *)

Lemma listening_round_uint32 kAckType st0 st :
  listening kAckType st0 st -> is_uint32 (round_ st0) -> is_uint32 (round_ st).
Proof.
  intros Hl H0. induction Hl as [|st ev st' out _ IH Hstep]; [done|].
  apply Listen_step_Listening in Hstep
    as [->|[[st1 ->]|(client & msg & _ & _ & _ & ->)]]; [done| |done].
  simpl. apply Z.mod_pos_bound. lia.
Qed.

(** C4, as the code has it. The count is computed on [size_t]: a round is
    complete exactly when the number of retained paths equals M(n, k)
    modulo 2^64, hence exactly when it equals M(n, k) whenever M(n, k) fits
    in a [size_t]. In a round k >= 1, an accepted message with a new path
    that brings the number of paths to the count makes the callback advance
    the round at once, or stop the loop in the last round. *)
Theorem round_completion (kAckType : Z) (id : Z) (processes : list Address)
    (faulty : Z) (st : Lieutenant) (client : Address) (buf : list byte)
    (msg : Message) :
  listening kAckType (new_Lieutenant id processes faulty) st ->
  let n := process_num st in
  let k := Z.to_nat (round_ st) in
  (RoundComplete st = true
   <-> Z.of_nat (size (ids_this_round_ st)) = M_spec n k mod 2 ^ 64)
  /\ (0 <= M_spec n k < 2 ^ 64 ->
      (RoundComplete st = true
       <-> Z.of_nat (size (ids_this_round_ st)) = M_spec n k))
  /\ (FirstRound st = false ->
      ByzantineMsgFromBuf buf = Some msg ->
      ValidMessage st msg client = Returns true ->
      ids msg ∉ ids_this_round_ st ->
      Z.of_nat (size ({[ids msg]} ∪ ids_this_round_ st))
        = M_spec n k mod 2 ^ 64 ->
      exists out,
        Listen_step kAckType (Datagram client buf) st
        = (if LastRound st then Stopped (accept_later msg st)
           else Listening (next_round (accept_later msg st)),
           Send client (SendAckForRound_buf kAckType (round_ st)) :: out)).
Proof.
  intros Hl n k. split; [apply RoundComplete_iff|]. split.
  - intros Hfit. rewrite RoundComplete_iff. fold n k.
    by rewrite Z.mod_small.
  - intros Hfirst E V Hnew Hcount.
    assert (Hcomplete : RoundComplete (accept_later msg st) = true)
      by (by apply RoundComplete_iff).
    unfold Listen_step. rewrite (on_message_valid _ _ _ _ _ E V). cbv zeta.
    rewrite Hfirst.
    apply count_not_elem in Hnew. rewrite Hnew. simpl.
    rewrite Hcomplete, MoveToNewRoundOrStop_eq.
    change (LastRound (accept_later msg st)) with (LastRound st).
    destruct (LastRound st); simpl; [by eexists|].
    pose proof (listening_round_uint32 _ _ _ Hl) as Hr.
    apply listening_inv in Hl as (Hround & _); [|done..].
    destruct (InitNewRound_Returns (accept_later msg st)) as [out ->].
    + apply Hr. unfold is_uint32. simpl. lia.
    + simpl. intros m [->%elem_of_singleton|Hin]%elem_of_union; auto.
      by eapply ValidMessage_true_round.
    + simpl. by eexists.
Qed.

Lemma round_completion_witness :
  exists out,
    Listen_step 2
      (Datagram (mkAddress "h3" 40002) (SendMessage_buf 1 relay_of_3))
      waiting_in_round_1
    = (if LastRound waiting_in_round_1
       then Stopped (accept_later relay_of_3 waiting_in_round_1)
       else Listening (next_round (accept_later relay_of_3 waiting_in_round_1)),
       Send (mkAddress "h3" 40002)
         (SendAckForRound_buf 2 (round_ waiting_in_round_1)) :: out).
Proof.
  apply (proj2 (proj2 (round_completion 2 1 four_hosts 1 waiting_in_round_1
                         (mkAddress "h3" 40002)
                         (SendMessage_buf 1 relay_of_3) relay_of_3
                         waiting_in_round_1_listening))).
  - vm_compute. reflexivity.
  - vm_compute. reflexivity.
  - vm_compute. reflexivity.
  - vm_compute. intros H. discriminate H.
  - vm_compute. reflexivity.
Defined.

(** C4 fails as stated: with 190 processes in round 63 the product M(190, 63)
    is a non-zero multiple of 2^64, [MessagesForRound] computes 0, and the
    round counts as complete with no path retained. *)
Lemma round_completion_overflow :
  1 <= round_ last_round_of_190
  /\ RoundComplete last_round_of_190 = true
  /\ Z.of_nat (size (ids_this_round_ last_round_of_190))
     <> M_spec (process_num last_round_of_190)
          (Z.to_nat (round_ last_round_of_190)).
Proof. split; [|split]; by vm_compute. Qed.

(** ** Runs of the whole system *)

Section RunFacts.

Variables kByzantineMessageType kAckType : Z.
Variable env : Setup.

Abbreviation step := (step kByzantineMessageType kAckType env).
Abbreviation reachable := (reachable kByzantineMessageType kAckType env).
Abbreviation perform := (perform kByzantineMessageType kAckType env).
Abbreviation schedule := (schedule kByzantineMessageType kAckType env).

Lemma perform_step a w w' : perform a w = Some w' -> step w w'.
Proof.
  destruct a as [|i port|p|b to buf]; simpl.
  - case_decide as Hc; [done|].
    destruct (commander_returned w) eqn:Hret; [done|].
    intros [= <-]. by apply step_commander.
  - destruct (soup w !! i) as [d|] eqn:Hd; [|done].
    destruct (lieutenants w !! dst d) as [[st| |]|] eqn:Hl; try done.
    intros [= <-]. eapply step_deliver; [|done|apply surjective_pairing].
    by eapply list_elem_of_lookup_2.
  - destruct (lieutenants w !! p) as [[st| |]|] eqn:Hl; try done.
    intros [= <-]. eapply step_timeout; [done|apply surjective_pairing].
  - case_decide as Hb; [|done]. destruct Hb as [Hb Hpos].
    destruct (participants env !! Z.to_nat b) as [a|] eqn:Ha; [|done].
    intros [= <-]. by eapply step_byzantine.
Qed.

Lemma schedule_reachable acts : forall w w',
  reachable w -> schedule acts w = Some w' -> reachable w'.
Proof.
  induction acts as [|a acts IH]; intros w w' Hw; simpl.
  - by intros [= <-].
  - destruct (perform a w) as [w1|] eqn:Ha; [|done].
    apply IH. eapply rtc_r; [exact Hw|]. by eapply perform_step.
Qed.

(** What a schedule run from the initial world makes two Lieutenants
    return is returned in one reachable world. *)
Lemma decisions_after_reachable acts p q o_p o_q :
  decision_after kByzantineMessageType kAckType env acts p = Some o_p ->
  decision_after kByzantineMessageType kAckType env acts q = Some o_q ->
  exists w, reachable w
    /\ (lieutenants w !! p) ≫= Lieutenant_Decide = Some o_p
    /\ (lieutenants w !! q) ≫= Lieutenant_Decide = Some o_q.
Proof.
  unfold decision_after.
  destruct (schedule acts (initial_world env)) as [w|] eqn:Hs; [|done].
  simpl. intros Hp Hq. exists w. split; [|done].
  eapply schedule_reachable; [|exact Hs]. apply rtc_refl.
Qed.

End RunFacts.

(** C1 fails as stated. With n = 4 = 3 * 1 + 1 processes, m = 1 and two
    rounds, the Commander correct and proposing ATTACK, and Lieutenant 3
    Byzantine: the traitor relays RETREAT to Lieutenant 1 and ATTACK to
    Lieutenant 2; Lieutenant 1 returns RETREAT and Lieutenant 2 returns
    ATTACK, whatever the two frame tags are. *)
Lemma one_traitor_breaks_agreement :
  ~ exists kByzantineMessageType kAckType : Z,
      Agreement kByzantineMessageType kAckType.
Proof.
  intros (kB & kA & Hagree).
  destruct (decisions_after_reachable kB kA traitor_3
              (traitor_3_schedule kB) 1 2 RETREAT ATTACK)
    as (w & Hw & Hd1 & Hd2); [by vm_compute..|].
  assert (Hadm : admissible traitor_3).
  { repeat split; try (by vm_compute). by left. }
  (* agreement: the two correct Lieutenants return different orders *)
  by destruct (Hagree traitor_3 w 1 2 RETREAT ATTACK Hadm Hw Hd1 Hd2).
Qed.

(** *** The scenarios of the specification *)

Section Scenarios.

Variables kByzantineMessageType kAckType : Z.

Abbreviation decided env acts :=
  (decision_after kByzantineMessageType kAckType env acts <$> [1; 2; 3]).

(** S1: no fault, the proposal is ATTACK; all three return ATTACK. *)
Example scenario_S1 :
  decided no_traitor no_traitor_schedule
  = [Some ATTACK; Some ATTACK; Some ATTACK].
Proof. by vm_compute. Qed.

(** S2: no fault, the proposal is RETREAT; all three return RETREAT. *)
Example scenario_S2 :
  decided no_traitor_retreat no_traitor_schedule
  = [Some RETREAT; Some RETREAT; Some RETREAT].
Proof. by vm_compute. Qed.

(** S3: Lieutenant 3 is silent; the other two return ATTACK after the
    timeout of round 1. *)
Example scenario_S3 :
  decided traitor_3 silent_3_schedule = [Some ATTACK; Some ATTACK; None].
Proof. by vm_compute. Qed.

(** S4: the Commander sends ATTACK to one Lieutenant and RETREAT to the
    others; all three return RETREAT. *)
Example scenario_S4 :
  decided traitor_0 (traitor_0_schedule kByzantineMessageType)
  = [Some RETREAT; Some RETREAT; Some RETREAT].
Proof. by vm_compute. Qed.

(** S6: a repeated id, a path of the wrong length, a path that does not
    start at the Commander and a sender on another host are rejected. *)
Example scenario_S6 :
  ValidMessage (lieutenant_2_in_round 2) (mkMessage 2 ATTACK [0; 1; 1])
    (mkAddress "h1" 40000) = Returns false
  /\ ValidMessage (lieutenant_2_in_round 1) (mkMessage 1 ATTACK [0])
       (mkAddress "h0" 40000) = Returns false
  /\ ValidMessage (lieutenant_2_in_round 1) (mkMessage 1 ATTACK [1; 0])
       (mkAddress "h0" 40000) = Returns false
  /\ ValidMessage (lieutenant_2_in_round 1) (mkMessage 1 ATTACK [0; 1])
       (mkAddress "h3" 40000) = Returns false
  /\ ValidMessage (lieutenant_2_in_round 1) (mkMessage 1 ATTACK [0; 1])
       (mkAddress "h1" 40000) = Returns true.
Proof. repeat split; by vm_compute. Qed.

End Scenarios.

(** ** Runs in which no Byzantine process of the table takes part *)

Section Relays.

Variable P : Message -> Prop.

Abbreviation batches_ok := (batches_ok P).

Lemma push_back_ok toSend pid msg :
  batches_ok toSend -> P msg -> batches_ok (push_back toSend pid msg).
Proof.
  intros Hok Hmsg pid' batch. unfold push_back.
  rewrite lookup_insert. case_decide as Hpid; [|by apply Hok].
  intros [= <-]. apply Forall_app. split; [|by constructor].
  destruct (toSend !! pid) as [b|] eqn:Hb; simpl; [by eapply Hok|constructor].
Qed.

Lemma enqueue_ok n msg toSend :
  batches_ok toSend -> P msg -> batches_ok (enqueue n msg toSend).
Proof.
  intros Hok Hmsg. unfold enqueue.
  generalize (Z.of_nat <$> seq 0 n). intros pids. revert toSend Hok.
  induction pids as [|pid pids IH]; intros toSend Hok; simpl; [done|].
  apply IH. destruct (inMsg msg pid); [done|]. by apply push_back_ok.
Qed.

Lemma relay_loop_ok r id n msgs : forall toSend toSend',
  relay_loop r id n msgs toSend = Some toSend' ->
  Forall (fun m => P (mkMessage r (order m) (ids m ++ [id]))) msgs ->
  batches_ok toSend -> batches_ok toSend'.
Proof.
  induction msgs as [|m msgs IH]; intros toSend toSend'; simpl.
  - by intros [= <-].
  - destruct (round m =? wrap32 (r - 1)); simpl; [|done].
    intros Hloop Hall Hok. inversion Hall as [|?? Hm Hrest]; subst.
    eapply IH; [exact Hloop|done|]. by apply enqueue_ok.
Qed.

End Relays.

Lemma MoveToNewRoundOrStop_faithful o st :
  faithful o st -> orders_seen_ st <> ∅ ->
  match MoveToNewRoundOrStop st with
  | Returns (a, st', out) =>
      faithful o st' /\ orders_seen_ st' <> ∅ /\ relays_carry o out
  | Throws | Undefined => True
  end.
Proof.
  intros (Hseen & Hmsgs & Hround) Hne. rewrite MoveToNewRoundOrStop_eq.
  destruct (LastRound st).
  { repeat split; try done. intros pid batch Hin. by apply elem_of_nil in Hin. }
  rewrite InitNewRound_eq.
  destruct (relay_loop _ _ _ _ _) as [toSend|] eqn:Hloop; [|done].
  repeat split; simpl; try done; try set_solver.
  intros pid batch Hin.
  apply list_elem_of_fmap in Hin as ([pid' batch'] & [= -> ->] & Hin).
  apply elem_of_map_to_list in Hin.
  eapply (relay_loop_ok (fun m => order m = o)); [exact Hloop| | |exact Hin].
  - apply Forall_forall. intros m Hm. simpl.
    apply Hmsgs. by apply elem_of_elements.
  - intros ? ?. by rewrite lookup_empty.
Qed.

Lemma relays_carry_after o e out client buf :
  e = Send client buf -> relays_carry o out -> relays_carry o (e :: out).
Proof.
  intros -> Hout pid batch [Hin|Hin]%elem_of_cons; [done|by eapply Hout].
Qed.

Lemma relays_carry_nil o : relays_carry o [].
Proof. intros pid batch Hin. by apply elem_of_nil in Hin. Qed.

Lemma relays_carry_ack o client buf : relays_carry o [Send client buf].
Proof. eapply relays_carry_after; [done|apply relays_carry_nil]. Qed.

Lemma faithful_accept_first o msg st :
  faithful o st -> order msg = o ->
  faithful o (accept_first msg st) /\ orders_seen_ (accept_first msg st) <> ∅.
Proof.
  intros (Hseen & Hmsgs & Hround) Ho. repeat split; simpl; try set_solver.
Qed.

Lemma faithful_accept_later o msg st :
  faithful o st -> order msg = o ->
  faithful o (accept_later msg st) /\ orders_seen_ (accept_later msg st) <> ∅.
Proof.
  intros (Hseen & Hmsgs & Hround) Ho. repeat split; simpl; try set_solver.
Qed.

(** A callback run on a faithful Lieutenant, with a datagram that carries
    [o] if it decodes, leaves it faithful and relays [o] only. *)
Lemma Listen_step_faithful kAckType o ev st l out :
  faithful o st ->
  (forall client buf msg,
     ev = Datagram client buf -> ByzantineMsgFromBuf buf = Some msg ->
     order msg = o) ->
  Listen_step kAckType ev st = (l, out) ->
  faithful_loop o l /\ relays_carry o out.
Proof.
  intros Hst Hev.
  assert (Hmove : forall st1 l1 out1 client buf,
    faithful o st1 -> orders_seen_ st1 <> ∅ ->
    match after (Send client buf) (MoveToNewRoundOrStop st1) with
    | Returns (Continue, s, o) => (Listening s, o)
    | Returns (Stop, s, o) => (Stopped s, o)
    | _ => (Aborted, [])
    end = (l1, out1) ->
    faithful_loop o l1 /\ relays_carry o out1).
  { intros st1 l1 out1 client buf Hf Hne.
    pose proof (MoveToNewRoundOrStop_faithful o st1 Hf Hne) as Hm.
    destruct (MoveToNewRoundOrStop st1) as [[[[|] st2] out2]| |]; simpl;
      intros [= <- <-]; simpl.
    - destruct Hm as (? & ? & ?). split; [done|by eapply relays_carry_after].
    - destruct Hm as (? & ? & ?). split; [done|by eapply relays_carry_after].
    - split; [done|apply relays_carry_nil].
    - split; [done|apply relays_carry_nil]. }
  unfold Listen_step. destruct ev as [client buf|].
  - destruct (ByzantineMsgFromBuf buf) as [msg|] eqn:E.
    2:{ rewrite on_message_no_decode by done. intros [= <- <-].
        split; [done|apply relays_carry_nil]. }
    pose proof (Hev client buf msg eq_refl E) as Ho.
    destruct (ValidMessage st msg client) as [[|]| |] eqn:V.
    + rewrite (on_message_valid _ _ _ _ _ E V). cbv zeta.
      destruct (FirstRound st) eqn:Hfirst.
      * destruct (Z.of_nat (size (orders_seen_ st)) =? 0).
        -- destruct (faithful_accept_first o msg st Hst Ho) as [? ?].
           by apply Hmove.
        -- intros [= <- <-]. split; [done|apply relays_carry_ack].
      * destruct (count (ids_this_round_ st) (ids msg) =? 0).
        -- destruct (RoundComplete (accept_later msg st)).
           ++ destruct (faithful_accept_later o msg st Hst Ho) as [? ?].
              by apply Hmove.
           ++ intros [= <- <-].
              destruct (faithful_accept_later o msg st Hst Ho) as [? ?].
              split; [done|apply relays_carry_ack].
        -- intros [= <- <-]. split; [done|apply relays_carry_ack].
    + rewrite (on_message_invalid _ _ _ _ _ E V). intros [= <- <-].
      split; [done|apply relays_carry_nil].
    + unfold on_message. rewrite E. unfold bind, call. rewrite V.
      intros [= <- <-]. split; [done|apply relays_carry_nil].
    + unfold on_message. rewrite E. unfold bind, call. rewrite V.
      intros [= <- <-]. split; [done|apply relays_carry_nil].
  - rewrite on_timeout_eq. destruct (FirstRound st) eqn:Hfirst.
    + intros [= <- <-]. split; [done|apply relays_carry_nil].
    + assert (Hne : orders_seen_ st <> ∅).
      { destruct Hst as (_ & _ & Hround). apply Hround.
        unfold FirstRound in Hfirst. by apply Z.eqb_neq in Hfirst. }
      pose proof (MoveToNewRoundOrStop_faithful o st Hst Hne) as Hm.
      destruct (MoveToNewRoundOrStop st) as [[[[|] st2] out2]| |];
        intros [= <- <-]; simpl.
      * by destruct Hm as (? & ? & ?).
      * by destruct Hm as (? & ? & ?).
      * split; [done|apply relays_carry_nil].
      * split; [done|apply relays_carry_nil].
Qed.

Section NoTraitor.

Variables kByzantineMessageType kAckType : Z.
Variable env : Setup.
Hypothesis no_traitor_at_all :
  forall b, b ∈ byzantine env -> 0 <= b ->
    participants env !! Z.to_nat b = None.
Hypothesis proposal_fits : is_uint32 (proposal env).

Lemma transmit_all_carry self out d msg :
  relays_carry (proposal env) out ->
  d ∈ transmit_all kByzantineMessageType env self out ->
  ByzantineMsgFromBuf (payload d) = Some msg ->
  order msg = proposal env.
Proof.
  intros Hout Hd Hmsg. unfold transmit_all in Hd.
  apply list_elem_of_bind in Hd as (e & Hd & He).
  destruct e as [client buf|pid batch]; simpl in Hd;
    [by apply elem_of_nil in Hd|].
  destruct (participants env !! Z.to_nat self) as [a|];
    [|by apply elem_of_nil in Hd].
  apply list_elem_of_fmap in Hd as (m & -> & Hm). simpl in Hmsg.
  rewrite decode_SendMessage_buf in Hmsg. injection Hmsg as <-. simpl.
  pose proof (Hout pid batch He) as Hbatch.
  rewrite (proj1 (Forall_forall _ _) Hbatch m Hm).
  by apply wrap32_id.
Qed.

Lemma Commander_Decide_carry c :
  relays_carry (order_ c) (Commander_Decide c).2.
Proof.
  intros pid batch Hin. simpl in Hin.
  apply list_elem_of_fmap in Hin as (i & [= _ ->] & _).
  by repeat constructor.
Qed.

Lemma initial_world_faithful :
  world_faithful (proposal env) (initial_world env).
Proof.
  split; [|split].
  - intros d msg Hd. by apply elem_of_nil in Hd.
  - intros p l Hl. simpl in Hl. apply elem_of_list_to_map_2 in Hl.
    apply list_elem_of_fmap in Hl as (q & [= -> ->] & _).
    repeat split; simpl; set_solver.
  - done.
Qed.

Lemma step_faithful w w' :
  step kByzantineMessageType kAckType env w w' ->
  world_faithful (proposal env) w -> world_faithful (proposal env) w'.
Proof.
  intros Hstep (Hsoup & Hlts & Hcmd).
  destruct Hstep as [w H0 Hret c|w d port st l out Hd Hl Hrun
                    |w p st l out Hl Hrun|w b a to buf Hb Hpos Ha].
  - split; [|split]; simpl; [|done|by intros o' [= <-]].
    intros d msg [Hin|Hin]%elem_of_app; [by eapply Hsoup|].
    eapply transmit_all_carry; [|exact Hin]. apply (Commander_Decide_carry c).
  - apply Listen_step_faithful with (o := proposal env) in Hrun
      as [Hloop Hout].
    + split; [|split]; simpl; [| |done].
      * intros d' msg [Hin|Hin]%elem_of_app; [by eapply Hsoup|].
        by eapply transmit_all_carry.
      * intros p l'. rewrite lookup_insert. case_decide; [|by apply Hlts].
        by intros [= <-].
    + by apply (Hlts _ _ Hl).
    + intros client buf msg [= _ <-]. by apply Hsoup.
  - apply Listen_step_faithful with (o := proposal env) in Hrun
      as [Hloop Hout].
    + split; [|split]; simpl; [| |done].
      * intros d' msg [Hin|Hin]%elem_of_app; [by eapply Hsoup|].
        by eapply transmit_all_carry.
      * intros q l'. rewrite lookup_insert. case_decide; [|by apply Hlts].
        by intros [= <-].
    + by apply (Hlts _ _ Hl).
    + done.
  - by rewrite (no_traitor_at_all b Hb Hpos) in Ha.
Qed.

Lemma reachable_faithful w :
  reachable kByzantineMessageType kAckType env w ->
  world_faithful (proposal env) w.
Proof.
  unfold reachable. revert w. apply rtc_ind_r.
  - apply initial_world_faithful.
  - intros w1 w2 _ Hstep IH. by eapply step_faithful.
Qed.

End NoTraitor.

Lemma faithful_decision o st :
  o = ATTACK \/ o = RETREAT ->
  faithful o st -> orders_seen_ st <> ∅ -> DecideOrder st = o.
Proof.
  intros Ho (Hseen & _ & _) Hne.
  assert (Hs : orders_seen_ st = {[o]}).
  { apply leibniz_equiv. apply set_equiv. intros x. split; [set_solver|].
    intros ->%elem_of_singleton.
    apply set_choose_L in Hne as [y Hy].
    pose proof (Hseen y Hy) as ->%elem_of_singleton. done. }
  destruct Ho as [-> | ->].
  - by apply DecideOrder_ATTACK.
  - destruct (DecideOrder_cases st) as [E|E]; [|done].
    apply DecideOrder_ATTACK in E. rewrite Hs in E.
    assert (H : RETREAT ∈ ({[ATTACK]} : gset Z)) by (rewrite <- E; set_solver).
    by apply elem_of_singleton in H.
Qed.

(** * Further properties of the engine *)

(** ** The steps of the listen loop *)

Lemma Listen_step_shape kAckType ev st l out :
  Listen_step kAckType ev st = (l, out) ->
  l = Listening st
  \/ l = Aborted
  \/ (exists st1, kept ev st st1 /\ l = Listening st1)
  \/ (exists st1,
        moved ev st st1
        /\ ((LastRound st1 = true /\ l = Stopped st1)
            \/ (LastRound st1 = false /\ l = Listening (next_round st1)))).
Proof.
  assert (Hmove : forall st1 (pre : list Effect),
    moved ev st st1 ->
    match
      match MoveToNewRoundOrStop st1 with
      | Returns (a, s, o) => Returns (a, s, pre ++ o)
      | Throws => Throws
      | Undefined => Undefined
      end
    with
    | Returns (Continue, s, o) => (Listening s, o)
    | Returns (Stop, s, o) => (Stopped s, o)
    | _ => (Aborted, [])
    end = (l, out) ->
    l = Listening st
    \/ l = Aborted
    \/ (exists st1, kept ev st st1 /\ l = Listening st1)
    \/ (exists st1,
          moved ev st st1
          /\ ((LastRound st1 = true /\ l = Stopped st1)
              \/ (LastRound st1 = false /\ l = Listening (next_round st1))))).
  { intros st1 pre Hmoved. rewrite MoveToNewRoundOrStop_eq.
    destruct (LastRound st1) eqn:Hlast; simpl.
    - intros [= <- _]. do 3 right. exists st1. split; [done|]. by left.
    - rewrite InitNewRound_eq.
      destruct (relay_loop _ _ _ _ _); simpl; intros [= <- _];
        [|right; by left].
      do 3 right. exists st1. split; [done|]. by right. }
  unfold Listen_step. destruct ev as [client buf|].
  - destruct (ByzantineMsgFromBuf buf) as [msg|] eqn:E.
    2:{ rewrite on_message_no_decode by done. intros [= <- _]. by left. }
    destruct (ValidMessage st msg client) as [[|]| |] eqn:V.
    + rewrite (on_message_valid _ _ _ _ _ E V). cbv zeta.
      destruct (FirstRound st) eqn:Hfirst.
      * destruct (Z.of_nat (size (orders_seen_ st)) =? 0) eqn:Hseen.
        -- apply Z.eqb_eq in Hseen.
           assert (Hempty : orders_seen_ st = ∅).
           { apply leibniz_equiv, size_empty_iff. lia. }
           unfold after.
           apply (Hmove (accept_first msg st)
                    [Send client (SendAckForRound_buf kAckType (round_ st))]).
           right. exists client, buf, msg. repeat split; try done. by left.
        -- intros [= <- _]. by left.
      * destruct (count (ids_this_round_ st) (ids msg) =? 0) eqn:Hcount.
        -- apply Z.eqb_eq, count_not_elem in Hcount.
           destruct (RoundComplete (accept_later msg st)) eqn:Hcomplete.
           ++ unfold after.
              apply (Hmove (accept_later msg st)
                       [Send client
                          (SendAckForRound_buf kAckType (round_ st))]).
              right. exists client, buf, msg. repeat split; try done.
              by right.
           ++ intros [= <- _]. right; right; left.
              exists (accept_later msg st). split; [|done].
              by exists client, buf, msg.
        -- intros [= <- _]. by left.
    + rewrite (on_message_invalid _ _ _ _ _ E V). intros [= <- _]. by left.
    + unfold on_message. rewrite E. unfold bind, call. rewrite V.
      intros [= <- _]. right; by left.
    + unfold on_message. rewrite E. unfold bind, call. rewrite V.
      intros [= <- _]. right; by left.
  - rewrite on_timeout_eq. destruct (FirstRound st) eqn:Hfirst.
    + intros [= <- _]. by left.
    + intros H. apply (Hmove st []); [by left|].
      simpl. by destruct (MoveToNewRoundOrStop st) as [[[a s] o]| |].
Qed.

(** An invariant of the listening states that every step carries to the
    state it leaves holds at the end of every sequence of events; [J] is
    what holds of the state in which the loop has stopped, [A] what holds if
    it was aborted. *)
Lemma Listen_invariant kAckType (I J : Lieutenant -> Prop) (A : Prop) :
  (forall st ev l out,
     I st -> Listen_step kAckType ev st = (l, out) ->
     match l with
     | Listening st' => I st'
     | Stopped st' => J st'
     | Aborted => A
     end) ->
  forall evs st0,
    I st0 ->
    match Listen kAckType evs st0 with
    | Listening st => I st
    | Stopped st => J st
    | Aborted => A
    end.
Proof.
  intros Hstep. induction evs as [|ev evs IH]; intros st0 H0; simpl; [done|].
  destruct (Listen_step kAckType ev st0) as [l out] eqn:E. simpl.
  pose proof (Hstep _ _ _ _ H0 E) as Hl.
  destruct l as [st1|st1|]; [by apply IH|done|done].
Qed.

Lemma Listen_app kAckType evs evs' st0 :
  Listen kAckType (evs ++ evs') st0
  = match Listen kAckType evs st0 with
    | Listening st => Listen kAckType evs' st
    | l => l
    end.
Proof.
  revert st0. induction evs as [|ev evs IH]; intros st0; simpl; [done|].
  destruct (Listen_step kAckType ev st0).1; by rewrite ?IH.
Qed.

(** What the callbacks that retain a message or move on leave as they
    were, and what they add to [orders_seen_]. *)
Lemma moved_state ev st st1 :
  moved ev st st1 \/ kept ev st st1 ->
  id_ st1 = id_ st /\ processes_ st1 = processes_ st
  /\ faulty_ st1 = faulty_ st /\ round_ st1 = round_ st
  /\ orders_seen_ st ⊆ orders_seen_ st1
  /\ (forall o, o ∈ orders_seen_ st1 ->
        o ∈ orders_seen_ st \/ carried_order ev = Some o)
  /\ ((FirstRound st = false -> orders_seen_ st <> ∅) ->
      orders_seen_ st1 <> ∅).
Proof.
  intros [[(-> & Hfirst & ->)|(client & buf & msg & -> & E & V & Hacc)]
         |(client & buf & msg & -> & E & V & _ & _ & _ & ->)].
  - repeat split; try done; auto.
  - simpl. rewrite E. simpl.
    destruct Hacc as [(_ & _ & ->)|(_ & _ & _ & ->)]; simpl;
      repeat split; try done; set_solver.
  - simpl. rewrite E. simpl. repeat split; try done; set_solver.
Qed.

(** ** More on the wire codec *)

Lemma byte_at_app_l (buf tail : list byte) i :
  (i < length buf)%nat -> byte_at (buf ++ tail) i = byte_at buf i.
Proof. intros Hi. unfold byte_at. by rewrite lookup_app_l. Qed.

Lemma load_u32_app_l (buf tail : list byte) off :
  (off + 4 <= length buf)%nat ->
  load_u32 (buf ++ tail) off = load_u32 buf off.
Proof.
  intros Hoff. unfold load_u32. by rewrite !byte_at_app_l by lia.
Qed.

(** X1. Relay decoding drops up to three trailing bytes: a buffer that has
    the header and, after its last whole id, fewer than four more bytes
    decodes to the same message as the buffer without them. *)
Theorem ByzantineMsgFromBuf_drops_ragged_tail (buf tail : list byte) :
  sizeof_ByzantineMessage <= Z.of_nat (length buf) ->
  (Z.of_nat (length buf) - sizeof_ByzantineMessage) mod sizeof_uint32_t
    + Z.of_nat (length tail) < sizeof_uint32_t ->
  ByzantineMsgFromBuf (buf ++ tail) = ByzantineMsgFromBuf buf.
Proof.
  unfold sizeof_ByzantineMessage, sizeof_uint32_t. intros Hhdr Htail.
  unfold ByzantineMsgFromBuf, sizeof_ByzantineMessage, sizeof_uint32_t.
  rewrite length_app, Nat2Z.inj_add.
  set (n := Z.of_nat (length buf)) in *.
  set (t := Z.of_nat (length tail)) in *.
  assert (Hn : (n <? 16) = false) by (apply Z.ltb_ge; lia).
  assert (Hnt : (n + t <? 16) = false) by (apply Z.ltb_ge; lia).
  rewrite Hn, Hnt.
  pose proof (Z.div_mod (n - 16) 4 ltac:(lia)) as Hdm.
  pose proof (Z.mod_pos_bound (n - 16) 4 ltac:(lia)) as Hmod.
  assert (Hcount : (n + t - 16) / 4 = (n - 16) / 4).
  { symmetry. apply (Z.div_unique (n + t - 16) 4 _ ((n - 16) mod 4 + t)); lia. }
  rewrite Hcount.
  assert (Hq : 0 <= (n - 16) / 4) by (apply Z.div_pos; lia).
  f_equal. f_equal.
  - apply load_u32_app_l. unfold off_round. lia.
  - apply load_u32_app_l. unfold off_order. lia.
  - apply list_fmap_ext. intros j i Hi.
    apply lookup_seq in Hi as [-> Hi]. simpl.
    apply load_u32_app_l. rewrite id_offset_eq. lia.
Qed.

Lemma ByzantineMsgFromBuf_drops_ragged_tail_witness :
  ByzantineMsgFromBuf (SendMessage_buf 1 S5_relay ++ [x01; x02; x03])
  = ByzantineMsgFromBuf (SendMessage_buf 1 S5_relay).
Proof.
  apply (ByzantineMsgFromBuf_drops_ragged_tail (SendMessage_buf 1 S5_relay)
           [x01; x02; x03]).
  - vm_compute. discriminate.
  - vm_compute. reflexivity.
Defined.

(** X2. The frames describe themselves: in the buffer of [SendMessage] the
    type word is the Relay tag and the size word is the length of the
    buffer; in the buffer of [SendAckForRound] the type word is the Ack tag
    and the size word is 12, the length of the buffer (each word reduced to
    32 bits). *)
Theorem frames_carry_type_and_size (kByzantineMessageType kAckType : Z)
    (msg : Message) (r : Z) :
  let relay := SendMessage_buf kByzantineMessageType msg in
  let ack := SendAckForRound_buf kAckType r in
  load_u32 relay off_type = wrap32 kByzantineMessageType
  /\ load_u32 relay off_size = wrap32 (Z.of_nat (length relay))
  /\ load_u32 ack off_type = wrap32 kAckType
  /\ load_u32 ack off_size = Z.of_nat (length ack)
  /\ Z.of_nat (length ack) = 12.
Proof.
  intros relay ack.
  pose proof (length_SendMessage_buf kByzantineMessageType msg) as Hlen.
  fold relay in Hlen.
  pose proof (length_SendAckForRound_buf kAckType r) as Hack.
  fold ack in Hack. unfold sizeof_Ack in Hack.
  assert (Hrelay :
    load_u32 relay off_type = wrap32 kByzantineMessageType
    /\ load_u32 relay off_size = wrap32 (SendMessage_size msg)).
  { unfold relay, SendMessage_buf, off_type, off_size, off_round, off_order.
    unfold SendMessage_size, sizeof_ByzantineMessage, sizeof_uint32_t in *.
    set (size := Z.to_nat (16 + 4 * Z.of_nat (length (ids msg)))).
    assert (Hsize : (16 + 4 * length (ids msg))%nat = size) by lia.
    set (b1 := store_u32 (bzero size) 0 _).
    assert (Hb1 : length b1 = size) by (unfold b1; buf_length).
    set (b2 := store_u32 b1 4 _).
    assert (Hb2 : length b2 = size) by (unfold b2; buf_length).
    set (b3 := store_u32 b2 8 _).
    assert (Hb3 : length b3 = size) by (unfold b3; buf_length).
    set (b4 := store_u32 b3 12 _).
    assert (Hb4 : length b4 = size) by (unfold b4; buf_length).
    rewrite !load_store_ids_below by (rewrite ?id_offset_eq, ?Hb4; lia).
    unfold b4. rewrite !load_store_other by lia.
    unfold b3. rewrite !load_store_other by lia.
    split.
    - unfold b2. rewrite load_store_other by lia.
      unfold b1. apply load_store_same. rewrite length_bzero. lia.
    - unfold b2. rewrite load_store_same by lia.
      unfold wrap32. by rewrite Z.mod_mod by lia. }
  destruct Hrelay as [Htype Hsz]. rewrite Hlen, Hack.
  split; [done|]. split; [done|]. clear Hack.
  unfold ack, SendAckForRound_buf, sizeof_Ack, off_type, off_size, off_round.
  set (a1 := store_u32 (bzero (Z.to_nat 12)) 0 _).
  assert (Ha1 : length a1 = 12%nat) by (unfold a1; buf_length).
  set (a2 := store_u32 a1 4 _).
  assert (Ha2 : length a2 = 12%nat) by (unfold a2; buf_length).
  rewrite !load_store_other by lia.
  split; [|split; [|done]].
  - unfold a2. rewrite load_store_other by lia.
    unfold a1. apply load_store_same. rewrite length_bzero. lia.
  - unfold a2. rewrite load_store_same by lia. reflexivity.
Qed.

(** X3. The two kinds of frame are told apart by their length alone: no
    buffer of [SendMessage] is read as an Ack, and no buffer of
    [SendAckForRound] is decoded as a Relay. A Lieutenant whose server
    receives an Ack drops it, and the sender of a Relay that receives a
    Relay goes on waiting. *)
Theorem frame_kinds_do_not_mix (kByzantineMessageType kAckType : Z)
    (msg m : Message) (r : Z) (client : Address) (st : Lieutenant) :
  RoundOfAck (SendMessage_buf kByzantineMessageType msg) = None
  /\ ByzantineMsgFromBuf (SendAckForRound_buf kAckType r) = None
  /\ Listen_step kAckType
       (Datagram client (SendAckForRound_buf kAckType r)) st
     = (Listening st, [])
  /\ isValidAck m (SendMessage_buf kByzantineMessageType msg) = Continue.
Proof.
  assert (H1 : RoundOfAck (SendMessage_buf kByzantineMessageType msg) = None).
  { unfold RoundOfAck. rewrite length_SendMessage_buf.
    unfold SendMessage_size, sizeof_ByzantineMessage, sizeof_uint32_t,
      sizeof_Ack.
    destruct (16 + 4 * Z.of_nat (length (ids msg)) =? 12) eqn:E; [|done].
    apply Z.eqb_eq in E. lia. }
  assert (H2 : ByzantineMsgFromBuf (SendAckForRound_buf kAckType r) = None).
  { unfold ByzantineMsgFromBuf. by rewrite length_SendAckForRound_buf. }
  split; [done|]. split; [done|]. split.
  - unfold Listen_step. by rewrite on_message_no_decode.
  - unfold isValidAck. by rewrite H1.
Qed.

(** X4. Acknowledgements are matched by round: the sender of a Relay stops
    waiting at the Ack that [SendAckForRound] builds for round [r] exactly
    when [r] is the round of the Relay, and goes on waiting at any buffer
    that is not of the Ack size. *)
Theorem isValidAck_matches_round (kAckType : Z) (msg : Message) (r : Z)
    (buf : list byte) :
  is_uint32 (round msg) ->
  is_uint32 r ->
  (isValidAck msg (SendAckForRound_buf kAckType r) = Stop <-> r = round msg)
  /\ (Z.of_nat (length buf) <> sizeof_Ack -> isValidAck msg buf = Continue).
Proof.
  intros Hm Hr. split.
  - rewrite isValidAck_SendAckForRound_buf by done.
    case_decide; split; done.
  - intros Hlen. unfold isValidAck, RoundOfAck.
    apply Z.eqb_neq in Hlen. by rewrite Hlen.
Qed.

Lemma isValidAck_matches_round_witness :
  (isValidAck S5_relay (SendAckForRound_buf 2 2) = Stop <-> 2 = round S5_relay)
  /\ (Z.of_nat (length (bzero 3)) <> sizeof_Ack ->
      isValidAck S5_relay (bzero 3) = Continue).
Proof.
  apply (isValidAck_matches_round 2 S5_relay 2 (bzero 3)).
  - vm_compute. split; discriminate || reflexivity.
  - vm_compute. split; discriminate || reflexivity.
Defined.

(** ** More on the listen loop *)

(** X5. [Lieutenant::Decide] returns only from the last round and never
    without an order: when the loop has stopped, [round_] is the tolerated
    fault count given at construction and [orders_seen_] is not empty; the
    id and the participant table are those given at construction. *)
Theorem Decide_returns_in_last_round (kAckType : Z) (id : Z)
    (processes : list Address) (faulty : Z) (evs : list Event)
    (st : Lieutenant) :
  Listen kAckType evs (new_Lieutenant id processes faulty) = Stopped st ->
  round_ st = faulty
  /\ orders_seen_ st <> ∅
  /\ id_ st = id /\ processes_ st = processes /\ faulty_ st = faulty.
Proof.
  intros Hstop.
  pose (I := fun s : Lieutenant =>
    id_ s = id /\ processes_ s = processes /\ faulty_ s = faulty
    /\ (FirstRound s = false -> orders_seen_ s <> ∅)).
  pose (J := fun s : Lieutenant =>
    round_ s = faulty /\ orders_seen_ s <> ∅
    /\ id_ s = id /\ processes_ s = processes /\ faulty_ s = faulty).
  assert (H : match Listen kAckType evs (new_Lieutenant id processes faulty)
              with
              | Listening s => I s
              | Stopped s => J s
              | Aborted => True
              end).
  { apply Listen_invariant; [|by repeat split].
    clear. intros s ev l out (Hid & Hproc & Hfaulty & Hseen) Hstep.
    apply Listen_step_shape in Hstep
      as [->|[->|[(s1 & Hkept & ->)|(s1 & Hmoved & Hl)]]].
    - done.
    - done.
    - destruct (moved_state ev s s1 (or_intror Hkept))
        as (E1 & E2 & E3 & E4 & _ & _ & Hne).
      unfold I, FirstRound. rewrite E1, E2, E3, E4. auto.
    - destruct (moved_state ev s s1 (or_introl Hmoved))
        as (E1 & E2 & E3 & E4 & _ & _ & Hne).
      destruct Hl as [[Hlast ->]|[Hlast ->]].
      + unfold J. unfold LastRound in Hlast. apply Z.eqb_eq in Hlast.
        rewrite Hlast, E1, E2, E3. auto.
      + unfold I. simpl. rewrite E1, E2, E3. auto. }
  rewrite Hstop in H. exact H.
Qed.

Lemma Decide_returns_in_last_round_witness :
  round_ (accept_first (mkMessage 0 ATTACK [0]) single_round_lieutenant) = 0
  /\ orders_seen_ (accept_first (mkMessage 0 ATTACK [0])
                     single_round_lieutenant) <> ∅
  /\ id_ (accept_first (mkMessage 0 ATTACK [0]) single_round_lieutenant) = 1
  /\ processes_ (accept_first (mkMessage 0 ATTACK [0])
                   single_round_lieutenant) = four_hosts
  /\ faulty_ (accept_first (mkMessage 0 ATTACK [0]) single_round_lieutenant)
     = 0.
Proof.
  apply (Decide_returns_in_last_round 2 1 four_hosts 0
           [order_of_the_Commander]
           (accept_first (mkMessage 0 ATTACK [0]) single_round_lieutenant)).
  vm_compute. reflexivity.
Defined.

(** One step adds to [orders_seen_] at most the order of its datagram. *)
Lemma Listen_step_orders kAckType ev st l out :
  Listen_step kAckType ev st = (l, out) ->
  match l with
  | Listening st' | Stopped st' =>
      orders_seen_ st ⊆ orders_seen_ st'
      /\ (forall o, o ∈ orders_seen_ st' ->
            o ∈ orders_seen_ st \/ carried_order ev = Some o)
  | Aborted => True
  end.
Proof.
  intros Hstep.
  apply Listen_step_shape in Hstep
    as [->|[->|[(s1 & Hkept & ->)|(s1 & Hmoved & Hl)]]].
  - split; [done|]. auto.
  - done.
  - destruct (moved_state ev st s1 (or_intror Hkept))
      as (_ & _ & _ & _ & Hsub & Hfrom & _). done.
  - destruct (moved_state ev st s1 (or_introl Hmoved))
      as (_ & _ & _ & _ & Hsub & Hfrom & _).
    by destruct Hl as [[_ ->]|[_ ->]].
Qed.

(** X6. [orders_seen_] only grows, and only by orders that arrived: after
    any sequence of datagrams and timeouts, every order the Lieutenant had
    seen before is still seen, and every other order it has seen is the
    order field of one of the datagrams, which decoded. *)
Theorem orders_seen_come_from_datagrams (kAckType : Z) (evs : list Event)
    (st0 : Lieutenant) :
  match Listen kAckType evs st0 with
  | Listening st | Stopped st =>
      orders_seen_ st0 ⊆ orders_seen_ st
      /\ (forall o, o ∈ orders_seen_ st ->
            o ∈ orders_seen_ st0
            \/ exists ev, ev ∈ evs /\ carried_order ev = Some o)
  | Aborted => True
  end.
Proof.
  revert st0. induction evs as [|ev evs IH]; intros st0; simpl.
  - split; [done|]. auto.
  - destruct (Listen_step kAckType ev st0) as [l out] eqn:Hstep. simpl.
    apply Listen_step_orders in Hstep.
    destruct l as [st1|st1|]; [|clear IH|done].
    + specialize (IH st1).
      destruct (Listen kAckType evs st1) as [st|st|]; [| |done];
        destruct Hstep as [Hsub1 Hfrom1]; destruct IH as [Hsub Hfrom];
        (split; [set_solver|]); intros o Ho;
        destruct (Hfrom o Ho) as [Ho1|(ev' & Hin & Hc)];
        try (right; exists ev'; split; [by right|done]);
        destruct (Hfrom1 o Ho1) as [?|?]; [by left|right|by left|right];
        exists ev; split; [by left|done|by left|done].
    + destruct Hstep as [Hsub1 Hfrom1]. split; [done|]. intros o Ho.
      destruct (Hfrom1 o Ho) as [?|?]; [by left|right].
      exists ev. split; [by left|done].
Qed.

Lemma ValidMessage_in_round_0 st msg client :
  ValidMessage st msg client = Returns true ->
  round_ st = 0 ->
  round msg = 0 /\ ids msg = [0]
  /\ exists a0, processes_ st !! 0%nat = Some a0
                /\ hostname a0 = hostname client.
Proof.
  unfold ValidMessage. intros Hv H0.
  destruct (round msg =? round_ st) eqn:Hround; simpl in Hv; [|done].
  apply Z.eqb_eq in Hround. rewrite H0 in Hround. rewrite Hround in Hv.
  change (wrap32 (0 + 1)) with 1 in Hv.
  destruct (1 =? Z.of_nat (length (ids msg))) eqn:Hlen; simpl in Hv; [|done].
  apply Z.eqb_eq in Hlen.
  destruct (ids msg) as [|i0 [|i1 l]] eqn:Hids; simpl in *; try lia.
  destruct (i0 =? 0) eqn:Hi0; simpl in Hv; [|done].
  apply Z.eqb_eq in Hi0. subst i0.
  destruct (0 >=? process_num st); [done|].
  destruct (0 =? id_ st); [done|].
  destruct (size ({[0%Z]} ∪ ∅ : gset Z) <? 1)%nat; [done|].
  change (Z.to_nat 0) with 0%nat in Hv.
  destruct (processes_ st !! 0%nat) as [a0|]; simpl in Hv; [|done].
  destruct (String.eqb (hostname a0) (hostname client)) eqn:Hh;
    simpl in Hv; [|done].
  apply eqb_string_true in Hh. eauto.
Qed.

(** X7. Only the order of the Commander ends round 0. If a callback run in
    round 0 leaves the Lieutenant in another state, then it was called on a
    datagram that decodes to a message of round 0 with path [0], sent from
    the host of participant 0, and no order had been seen before; the
    Lieutenant retained that message and went to round 1 or, if round 0 is
    the last round, stopped. Timeouts and all other datagrams leave it as
    it was. *)
Theorem round_0_ends_on_the_order_of_the_Commander (kAckType : Z)
    (ev : Event) (st : Lieutenant) (l : Loop) (out : list Effect) :
  FirstRound st = true ->
  Listen_step kAckType ev st = (l, out) ->
  l <> Listening st ->
  l <> Aborted ->
  exists client buf msg a0,
    ev = Datagram client buf
    /\ ByzantineMsgFromBuf buf = Some msg
    /\ round msg = 0 /\ ids msg = [0]
    /\ processes_ st !! 0%nat = Some a0
    /\ hostname a0 = hostname client
    /\ orders_seen_ st = ∅
    /\ (l = Stopped (accept_first msg st)
        \/ l = Listening (next_round (accept_first msg st))).
Proof.
  intros Hfirst Hstep Hchanged Hok.
  apply Listen_step_shape in Hstep
    as [->|[->|[(s1 & Hkept & ->)|(s1 & Hmoved & Hl)]]]; [done|done| |].
  - destruct Hkept as (? & ? & ? & _ & _ & _ & Hf & _). congruence.
  - destruct Hmoved as [(_ & Hf & _)|(client & buf & msg & -> & E & V & Hacc)];
      [congruence|].
    destruct Hacc as [(_ & Hempty & ->)|(Hf & _)]; [|congruence].
    unfold FirstRound in Hfirst. apply Z.eqb_eq in Hfirst.
    destruct (ValidMessage_in_round_0 _ _ _ V Hfirst)
      as (Hr & Hids & a0 & Ha0 & Hh).
    exists client, buf, msg, a0. repeat split; try done.
    destruct Hl as [[_ ->]|[_ ->]]; auto.
Qed.

Lemma round_0_ends_on_the_order_of_the_Commander_witness :
  exists client buf msg a0,
    order_of_the_Commander = Datagram client buf
    /\ ByzantineMsgFromBuf buf = Some msg
    /\ round msg = 0 /\ ids msg = [0]
    /\ processes_ lieutenant_1 !! 0%nat = Some a0
    /\ hostname a0 = hostname client
    /\ orders_seen_ lieutenant_1 = ∅
    /\ ((Listen_step 2 order_of_the_Commander lieutenant_1).1
          = Stopped (accept_first msg lieutenant_1)
        \/ (Listen_step 2 order_of_the_Commander lieutenant_1).1
           = Listening (next_round (accept_first msg lieutenant_1))).
Proof.
  apply (round_0_ends_on_the_order_of_the_Commander 2
           order_of_the_Commander lieutenant_1
           (Listen_step 2 order_of_the_Commander lieutenant_1).1
           (Listen_step 2 order_of_the_Commander lieutenant_1).2).
  - vm_compute. reflexivity.
  - apply surjective_pairing.
  - vm_compute. discriminate.
  - vm_compute. discriminate.
Defined.

Lemma timeout_step kAckType faulty st :
  faulty < 2 ^ 32 ->
  rounds_inv faulty st ->
  FirstRound st = false ->
  exists out,
    Listen_step kAckType Timeout st
    = (if LastRound st then Stopped st else Listening (next_round st), out).
Proof.
  intros Hf (Hr & _ & Hmsgs) Hfirst. unfold Listen_step.
  rewrite on_timeout_eq, Hfirst, MoveToNewRoundOrStop_eq.
  destruct (LastRound st); [by eexists|].
  destruct (InitNewRound_Returns st) as [out ->]; [|done|by eexists].
  unfold is_uint32. lia.
Qed.

Lemma Listen_step_rounds kAckType faulty ev st l out :
  faulty < 2 ^ 32 - 1 ->
  rounds_inv faulty st ->
  Listen_step kAckType ev st = (l, out) ->
  match l with
  | Listening st' => rounds_inv faulty st'
  | Stopped st' => round_ st' = faulty
  | Aborted => False
  end.
Proof.
  intros Hf Hinv Hstep. pose proof Hinv as (Hr & Hfaulty & Hmsgs).
  assert (Hu : is_uint32 (round_ st)) by (unfold is_uint32; lia).
  assert (Hok : l <> Aborted).
  { assert (Hmove : forall st1,
      round_ st1 = round_ st ->
      (forall m, m ∈ msgs_this_round_ st1 -> round m = round_ st) ->
      exists a s o, MoveToNewRoundOrStop st1 = Returns (a, s, o)).
    { intros st1 Hr1 Hm1. rewrite MoveToNewRoundOrStop_eq.
      destruct (LastRound st1); [by eauto|].
      destruct (InitNewRound_Returns st1) as [o ->]; [| |by eauto].
      - by rewrite Hr1.
      - intros m Hm. rewrite Hr1. by apply Hm1. }
    assert (Hmove' : forall st1 e l1 out1,
      round_ st1 = round_ st ->
      (forall m, m ∈ msgs_this_round_ st1 -> round m = round_ st) ->
      match after e (MoveToNewRoundOrStop st1) with
      | Returns (Continue, s, o) => (Listening s, o)
      | Returns (Stop, s, o) => (Stopped s, o)
      | _ => (Aborted, [])
      end = (l1, out1) -> l1 <> Aborted).
    { intros st1 e l1 out1 Hr1 Hm1.
      destruct (Hmove st1 Hr1 Hm1) as (a & s & o & ->). simpl.
      destruct a; by intros [= <- _]. }
    clear Hmove. unfold Listen_step in Hstep. destruct ev as [client buf|].
    - destruct (ByzantineMsgFromBuf buf) as [msg|] eqn:E.
      2:{ rewrite on_message_no_decode in Hstep by done.
          by injection Hstep as <- _. }
      destruct (ValidMessage_defined st msg client) as [b V].
      { by eapply decoded_wf. }
      { lia. }
      destruct b.
      2:{ rewrite (on_message_invalid _ _ _ _ _ E V) in Hstep.
          by injection Hstep as <- _. }
      pose proof (ValidMessage_true_round _ _ _ V) as Hround.
      rewrite (on_message_valid _ _ _ _ _ E V) in Hstep. cbv zeta in Hstep.
      destruct (FirstRound st).
      + destruct (Z.of_nat (size (orders_seen_ st)) =? 0).
        * eapply Hmove'; [| |exact Hstep]; [done|]. simpl.
          intros m [->%elem_of_singleton|?]%elem_of_union; auto.
        * by injection Hstep as <- _.
      + destruct (count (ids_this_round_ st) (ids msg) =? 0).
        * destruct (RoundComplete (accept_later msg st)).
          -- eapply Hmove'; [| |exact Hstep]; [done|]. simpl.
             intros m [->%elem_of_singleton|?]%elem_of_union; auto.
          -- by injection Hstep as <- _.
        * by injection Hstep as <- _.
    - rewrite on_timeout_eq in Hstep. destruct (FirstRound st).
      + by injection Hstep as <- _.
      + rewrite MoveToNewRoundOrStop_eq in Hstep.
        destruct (LastRound st); [by injection Hstep as <- _|].
        destruct (InitNewRound_Returns st) as [o Ho]; [done..|].
        rewrite Ho in Hstep. by injection Hstep as <- _. }
  assert (Hnext : forall st1,
    round_ st1 = round_ st -> faulty_ st1 = faulty_ st ->
    LastRound st1 = false -> rounds_inv faulty (next_round st1)).
  { intros st1 Hr1 Hf1 Hlast. unfold LastRound in Hlast.
    apply Z.eqb_neq in Hlast. rewrite Hr1, Hf1, Hfaulty in Hlast.
    split; [|split]; simpl; [|by rewrite Hf1|set_solver].
    rewrite Hr1. unfold wrap32. rewrite Z.mod_small; lia. }
  apply Listen_step_shape in Hstep
    as [->|[->|[(s1 & Hkept & ->)|(s1 & Hmoved & Hl)]]]; [done|done| |].
  - destruct (moved_state ev st s1 (or_intror Hkept))
      as (_ & _ & E3 & E4 & _).
    destruct Hkept as (client & buf & msg & _ & _ & V & _ & _ & _ & ->).
    apply ValidMessage_true_round in V.
    split; [|split]; simpl; [done|done|].
    intros m [->%elem_of_singleton|?]%elem_of_union; auto.
  - destruct (moved_state ev st s1 (or_introl Hmoved))
      as (_ & _ & E3 & E4 & _).
    destruct Hl as [[Hlast ->]|[Hlast ->]].
    + unfold LastRound in Hlast. apply Z.eqb_eq in Hlast. congruence.
    + by apply Hnext.
Qed.

Lemma Listen_rounds kAckType id processes faulty evs :
  0 <= faulty < 2 ^ 32 - 1 ->
  match Listen kAckType evs (new_Lieutenant id processes faulty) with
  | Listening st => rounds_inv faulty st
  | Stopped st => round_ st = faulty
  | Aborted => False
  end.
Proof.
  intros Hf.
  apply (Listen_invariant kAckType (rounds_inv faulty)
           (fun st => round_ st = faulty) False).
  - intros st ev l out. apply Listen_step_rounds. lia.
  - split; [|split]; simpl; [lia|done|set_solver].
Qed.

(** X8. A run is never cut short by the code itself: for a Lieutenant that
    tolerates between 0 and 2^32 - 2 faults, no sequence of datagrams and
    timeouts makes a callback throw the [logic_error] of [InitNewRound] or
    read [msg.ids[0]] of an empty path; while the Lieutenant listens its
    round is between 0 and the tolerated fault count. *)
Theorem Listen_is_never_aborted (kAckType : Z) (id : Z)
    (processes : list Address) (faulty : Z) (evs : list Event) :
  0 <= faulty < 2 ^ 32 - 1 ->
  match Listen kAckType evs (new_Lieutenant id processes faulty) with
  | Listening st => 0 <= round_ st <= faulty
  | Stopped st => round_ st = faulty
  | Aborted => False
  end.
Proof.
  intros Hf. pose proof (Listen_rounds kAckType id processes faulty evs Hf) as H.
  destruct (Listen kAckType evs (new_Lieutenant id processes faulty));
    [by destruct H|done|done].
Qed.

Lemma Listen_is_never_aborted_witness :
  match Listen 2 round_1_events (new_Lieutenant 1 four_hosts 1) with
  | Listening st => 0 <= round_ st <= 1
  | Stopped st => round_ st = 1
  | Aborted => False
  end.
Proof.
  apply (Listen_is_never_aborted 2 1 four_hosts 1 round_1_events).
  lia.
Defined.

(** X9. Timeouts alone end a run that has left round 0: from a state in
    which the Lieutenant listens in round r >= 1, m - r + 1 timeouts in a
    row (m the tolerated fault count) stop the loop, and [orders_seen_] is
    then what it was. *)
Theorem timeouts_end_the_run (kAckType : Z) (id : Z)
    (processes : list Address) (faulty : Z) (evs : list Event)
    (st : Lieutenant) :
  0 <= faulty < 2 ^ 32 - 1 ->
  Listen kAckType evs (new_Lieutenant id processes faulty) = Listening st ->
  1 <= round_ st ->
  exists st',
    Listen kAckType
      (evs ++ replicate (Z.to_nat (faulty - round_ st + 1)) Timeout)
      (new_Lieutenant id processes faulty) = Stopped st'
    /\ orders_seen_ st' = orders_seen_ st.
Proof.
  intros Hf Hl Hr1. rewrite Listen_app, Hl.
  pose proof (Listen_rounds kAckType id processes faulty evs Hf) as Hinv.
  rewrite Hl in Hinv. clear Hl.
  assert (Hk : exists k : nat, Z.of_nat k = faulty - round_ st).
  { exists (Z.to_nat (faulty - round_ st)). destruct Hinv as (? & _). lia. }
  destruct Hk as [k Hk].
  replace (Z.to_nat (faulty - round_ st + 1)) with (S k) by lia.
  revert st Hr1 Hinv Hk. induction k as [|k IH]; intros st Hr1 Hinv Hk.
  - destruct (timeout_step kAckType faulty st) as [out Hstep];
      [lia|done|by apply Z.eqb_neq; lia|].
    simpl. rewrite Hstep. simpl.
    destruct Hinv as (_ & Hfaulty & _).
    unfold LastRound. rewrite Hfaulty.
    replace (round_ st) with faulty by lia. rewrite Z.eqb_refl. by eexists.
  - destruct (timeout_step kAckType faulty st) as [out Hstep];
      [lia|done|by apply Z.eqb_neq; lia|].
    pose proof (Listen_step_rounds kAckType faulty Timeout st _ _
                  ltac:(lia) Hinv Hstep) as Hnext.
    change (replicate (S (S k)) Timeout)
      with (Timeout :: replicate (S k) Timeout).
    cbn [Listen]. rewrite Hstep. simpl.
    destruct Hinv as (Hr & Hfaulty & _).
    unfold LastRound in *. rewrite Hfaulty in *.
    destruct (round_ st =? faulty) eqn:E; [apply Z.eqb_eq in E; lia|].
    assert (Hround : round_ (next_round st) = round_ st + 1).
    { simpl. unfold wrap32. rewrite Z.mod_small; lia. }
    destruct (IH (next_round st)) as (st' & Hst' & Hseen);
      [lia|done|lia|].
    exists st'. split; [done|]. by rewrite Hseen.
Qed.

Lemma timeouts_end_the_run_witness :
  exists st',
    Listen 2
      (round_1_events
         ++ replicate (Z.to_nat (1 - round_ waiting_in_round_1 + 1)) Timeout)
      (new_Lieutenant 1 four_hosts 1) = Stopped st'
    /\ orders_seen_ st' = orders_seen_ waiting_in_round_1.
Proof.
  apply (timeouts_end_the_run 2 1 four_hosts 1 round_1_events
           waiting_in_round_1).
  - lia.
  - vm_compute. reflexivity.
  - vm_compute. discriminate.
Defined.

(** ** Acknowledgements and retransmissions *)

(** The validator reads the round, the id and the participant table of
    the Lieutenant, and nothing else of it. *)
Lemma scan_ids_ext st st' l : forall idset,
  processes_ st' = processes_ st -> id_ st' = id_ st ->
  scan_ids st' l idset = scan_ids st l idset.
Proof.
  induction l as [|i l IH]; intros idset Hp Hi; simpl; [done|].
  unfold process_num. rewrite Hp, Hi. by rewrite IH.
Qed.

Lemma ValidMessage_ext st st' msg from :
  round_ st' = round_ st -> processes_ st' = processes_ st ->
  id_ st' = id_ st ->
  ValidMessage st' msg from = ValidMessage st msg from.
Proof.
  intros Hr Hp Hi. unfold ValidMessage.
  by rewrite Hr, Hp, (scan_ids_ext st st') by done.
Qed.

(** X10. A retransmitted relay is acknowledged again and counted once. When
    a valid relay with a new path arrives in a round after round 0 and does
    not complete the round, the Lieutenant acknowledges and retains it; when
    the same datagram arrives again, the Lieutenant acknowledges it again,
    for the same round, and its state does not change. *)
Theorem repeated_relay_is_acknowledged_again (kAckType : Z)
    (st : Lieutenant) (client : Address) (buf : list byte) (msg : Message) :
  FirstRound st = false ->
  ByzantineMsgFromBuf buf = Some msg ->
  ValidMessage st msg client = Returns true ->
  ids msg ∉ ids_this_round_ st ->
  RoundComplete (accept_later msg st) = false ->
  let ack := Send client (SendAckForRound_buf kAckType (round_ st)) in
  Listen_step kAckType (Datagram client buf) st
    = (Listening (accept_later msg st), [ack])
  /\ Listen_step kAckType (Datagram client buf) (accept_later msg st)
     = (Listening (accept_later msg st), [ack]).
Proof.
  intros Hfirst E V Hnew Hcomplete ack. split.
  - unfold Listen_step. rewrite (on_message_valid _ _ _ _ _ E V). cbv zeta.
    rewrite Hfirst. apply count_not_elem in Hnew. rewrite Hnew. simpl.
    by rewrite Hcomplete.
  - assert (V' : ValidMessage (accept_later msg st) msg client = Returns true)
      by (by rewrite (ValidMessage_ext st)).
    unfold Listen_step. rewrite (on_message_valid _ _ _ _ _ E V'). cbv zeta.
    change (FirstRound (accept_later msg st)) with (FirstRound st).
    rewrite Hfirst.
    assert (Hin : count (ids_this_round_ (accept_later msg st)) (ids msg) = 1).
    { apply count_elem. simpl. set_solver. }
    rewrite Hin. done.
Qed.

Lemma repeated_relay_is_acknowledged_again_witness :
  let buf := SendMessage_buf 1 relay_of_2 in
  let client := mkAddress "h2" 40001 in
  let ack := Send client (SendAckForRound_buf 2 (round_ entered_round_1)) in
  Listen_step 2 (Datagram client buf) entered_round_1
    = (Listening (accept_later relay_of_2 entered_round_1), [ack])
  /\ Listen_step 2 (Datagram client buf)
       (accept_later relay_of_2 entered_round_1)
     = (Listening (accept_later relay_of_2 entered_round_1), [ack]).
Proof.
  apply (repeated_relay_is_acknowledged_again 2 entered_round_1
           (mkAddress "h2" 40001) (SendMessage_buf 1 relay_of_2) relay_of_2).
  - vm_compute. reflexivity.
  - vm_compute. reflexivity.
  - vm_compute. reflexivity.
  - vm_compute. intros H. discriminate H.
  - vm_compute. reflexivity.
Defined.

(** X11. The acknowledgement of an accepted relay ends the wait of its
    sender. When the buffer that [SendMessage] builds for a message reaches
    a Lieutenant for which the message is valid, the first thing the
    callback emits is a [Send] to that client of a buffer for which the
    [isValidAck] of that very [SendMessage] returns [Stop]. *)
Theorem accepted_relay_is_acknowledged (kByzantineMessageType kAckType : Z)
    (msg : Message) (st : Lieutenant) (client : Address) (l : Loop)
    (out : list Effect) :
  wf_Message msg ->
  ValidMessage st msg client = Returns true ->
  Listen_step kAckType
    (Datagram client (SendMessage_buf kByzantineMessageType msg)) st
    = (l, out) ->
  l <> Aborted ->
  exists buf out',
    out = Send client buf :: out' /\ isValidAck msg buf = Stop.
Proof.
  intros Hwf V Hstep Hok.
  assert (E : ByzantineMsgFromBuf (SendMessage_buf kByzantineMessageType msg)
              = Some msg).
  { destruct Hwf as (? & ? & ?). rewrite decode_SendMessage_buf.
    rewrite !wrap32_id, fmap_wrap32_id by done. by destruct msg. }
  pose proof (ValidMessage_true_round _ _ _ V) as Hround.
  assert (Hack : isValidAck msg (SendAckForRound_buf kAckType (round_ st))
                 = Stop).
  { destruct Hwf as (Hr & _). rewrite <- Hround.
    rewrite isValidAck_SendAckForRound_buf by done. by rewrite decide_True. }
  assert (Hafter : forall o : Outcome (ServerAction * Lieutenant * list Effect),
    match after (Send client (SendAckForRound_buf kAckType (round_ st))) o with
    | Returns (Continue, s, o) => (Listening s, o)
    | Returns (Stop, s, o) => (Stopped s, o)
    | _ => (Aborted, [])
    end = (l, out) ->
    exists buf out', out = Send client buf :: out' /\ isValidAck msg buf = Stop).
  { intros [[[[|] s] o]| |]; simpl; intros [= <- <-]; try done; by eauto. }
  unfold Listen_step in Hstep.
  rewrite (on_message_valid _ _ _ _ _ E V) in Hstep. cbv zeta in Hstep.
  destruct (FirstRound st).
  - destruct (Z.of_nat (size (orders_seen_ st)) =? 0);
      [eapply Hafter; exact Hstep|].
    injection Hstep as <- <-. by eauto.
  - destruct (count (ids_this_round_ st) (ids msg) =? 0).
    + destruct (RoundComplete (accept_later msg st));
        [eapply Hafter; exact Hstep|].
      injection Hstep as <- <-. by eauto.
    + injection Hstep as <- <-. by eauto.
Qed.

Lemma accepted_relay_is_acknowledged_witness :
  exists buf out',
    (Listen_step 2
       (Datagram (mkAddress "h2" 40001) (SendMessage_buf 1 relay_of_2))
       entered_round_1).2 = Send (mkAddress "h2" 40001) buf :: out'
    /\ isValidAck relay_of_2 buf = Stop.
Proof.
  apply (accepted_relay_is_acknowledged 1 2 relay_of_2 entered_round_1
           (mkAddress "h2" 40001)
           (Listen_step 2
              (Datagram (mkAddress "h2" 40001) (SendMessage_buf 1 relay_of_2))
              entered_round_1).1).
  - unfold wf_Message, is_uint32, relay_of_2, ATTACK. simpl.
    repeat first [split | constructor | lia].
  - vm_compute. reflexivity.
  - apply surjective_pairing.
  - vm_compute. discriminate.
Defined.

(** ** Relaying *)

Lemma in_batch_empty pid msg : ~ in_batch ∅ pid msg.
Proof. intros (b & Hb & _). by rewrite lookup_empty in Hb. Qed.

Lemma in_batch_push_back toSend p msg pid m :
  in_batch (push_back toSend p msg) pid m
  <-> in_batch toSend pid m \/ (pid = p /\ m = msg).
Proof.
  unfold in_batch, push_back. split.
  - intros (b & Hb & Hm). rewrite lookup_insert in Hb.
    case_decide as Hp; [|left; by eauto].
    injection Hb as <-. subst pid.
    apply elem_of_app in Hm as [Hm|Hm%list_elem_of_singleton]; [|by right].
    left. destruct (toSend !! p) as [b0|]; simpl in Hm; [by eauto|].
    by apply elem_of_nil in Hm.
  - intros [(b & Hb & Hm)|[-> ->]].
    + destruct (decide (p = pid)) as [->|Hne].
      * eexists. rewrite lookup_insert, decide_True by done.
        split; [done|]. rewrite Hb. simpl. set_solver.
      * exists b. by rewrite lookup_insert, decide_False.
    + eexists. rewrite lookup_insert, decide_True by done.
      split; [done|]. set_solver.
Qed.

Lemma inMsg_false msg pid : inMsg msg pid = false <-> pid ∉ ids msg.
Proof.
  unfold inMsg. split.
  - intros Hf Hin. apply not_true_iff_false in Hf. apply Hf.
    apply existsb_exists. exists pid. split; [|by apply Z.eqb_refl].
    by apply list_elem_of_In.
  - intros Hnin. apply not_true_iff_false. intros Hex.
    apply existsb_exists in Hex as (x & Hx & ->%Z.eqb_eq).
    by apply Hnin, list_elem_of_In.
Qed.

Lemma in_batch_foldl msg (pids : list Z) : forall toSend pid m,
  in_batch
    (foldl (fun ts p => if inMsg msg p then ts else push_back ts p msg)
       toSend pids) pid m
  <-> in_batch toSend pid m
      \/ (m = msg /\ pid ∈ pids /\ (pid ∉ ids msg)).
Proof.
  induction pids as [|p pids IH]; intros toSend pid m; simpl.
  - split; [by left|]. intros [?|(_ & Hin & _)]; [done|].
    by apply elem_of_nil in Hin.
  - rewrite IH. destruct (inMsg msg p) eqn:Hp.
    + split; [intros [?|(? & ? & ?)]; [by left|right; set_solver]|].
      intros [?|(-> & [->|Hin]%elem_of_cons & Hnin)]; [by left| |by right].
      apply inMsg_false in Hnin. congruence.
    + apply inMsg_false in Hp. rewrite in_batch_push_back.
      split.
      * intros [[?|[-> ->]]|(? & ? & ?)]; [by left|right|right]; set_solver.
      * intros [?|(-> & [->|Hin]%elem_of_cons & Hnin)];
          [left; by left|left; by right|by right].
Qed.

Lemma elem_of_pids (n : nat) pid :
  pid ∈ (Z.of_nat <$> seq 0 n) <-> 0 <= pid < Z.of_nat n.
Proof.
  rewrite list_elem_of_fmap. split.
  - intros (i & -> & Hi). apply elem_of_seq in Hi. lia.
  - intros Hpid. exists (Z.to_nat pid). split; [lia|].
    apply elem_of_seq. lia.
Qed.

Lemma in_batch_relay_loop r id n msgs : forall toSend toSend' pid m',
  relay_loop r id n msgs toSend = Some toSend' ->
  in_batch toSend' pid m'
  <-> in_batch toSend pid m'
      \/ (0 <= pid < Z.of_nat n /\ (pid ∉ ids m')
          /\ exists m, m ∈ msgs
               /\ m' = mkMessage r (order m) (ids m ++ [id])).
Proof.
  induction msgs as [|msg msgs IH]; intros toSend toSend' pid m'; simpl.
  - intros [= <-]. split; [by left|].
    intros [?|(_ & _ & m & Hm & _)]; [done|]. by apply elem_of_nil in Hm.
  - destruct (round msg =? wrap32 (r - 1)); simpl; [|done].
    intros Hloop. rewrite (IH _ _ _ _ Hloop). unfold enqueue.
    rewrite in_batch_foldl, elem_of_pids. split.
    + intros [[?|(-> & ? & ?)]|(? & ? & m & ? & ?)]; [by left|right|right];
        (split; [done|]); (split; [done|]).
      * exists msg. split; [by left|done].
      * exists m. split; [by right|done].
    + intros [?|(? & ? & m & [->|Hin]%elem_of_cons & ->)];
        [left; by left|left; right; done|right].
      split; [done|]. split; [done|]. by exists m.
Qed.

Lemma push_back_nonempty toSend p msg :
  (forall pid b, toSend !! pid = Some b -> b <> []) ->
  forall pid b, push_back toSend p msg !! pid = Some b -> b <> [].
Proof.
  intros Hne pid b. unfold push_back. rewrite lookup_insert.
  case_decide; [|by apply Hne]. intros [= <-]. by destruct (default [] _).
Qed.

Lemma relay_loop_batches_nonempty r id n msgs : forall toSend toSend',
  relay_loop r id n msgs toSend = Some toSend' ->
  (forall pid b, toSend !! pid = Some b -> b <> []) ->
  forall pid b, toSend' !! pid = Some b -> b <> [].
Proof.
  induction msgs as [|msg msgs IH]; intros toSend toSend'; simpl.
  - by intros [= <-].
  - destruct (round msg =? wrap32 (r - 1)); simpl; [|done].
    intros Hloop Hne. eapply IH; [exact Hloop|].
    unfold enqueue. generalize (Z.of_nat <$> seq 0 n). intros pids.
    clear Hloop. revert toSend Hne.
    induction pids as [|p pids IHp]; intros toSend Hne; simpl; [done|].
    apply IHp. destruct (inMsg _ p); [done|]. by apply push_back_nonempty.
Qed.

Lemma destinations_threads (batches : list (Z * list Message)) :
  destinations ((fun b => AddThread b.1 b.2) <$> batches) = batches.*1.
Proof.
  induction batches as [|[pid batch] rest IH]; [done|].
  cbn. f_equal. exact IH.
Qed.

(** X12. What [InitNewRound] relays and to whom. When it does not throw, it
    leaves the round incremented and both round sets empty, and emits
    sender threads only: at most one per destination (the destinations of
    the threads started are pairwise distinct), none with nothing to send.
    A message is sent to process [pid] exactly when it is made of a
    retained message by setting the new round and appending the own id to
    the path, [pid] is an id of the participant table, and [pid] is not on
    the path of the message sent (so a relay never goes to the Lieutenant
    itself nor to a process that relayed it before). *)
Theorem InitNewRound_relays (st st' : Lieutenant) (out : list Effect) :
  InitNewRound st = Returns (tt, st', out) ->
  st' = next_round st
  /\ (forall e, e ∈ out -> exists pid batch,
        e = AddThread pid batch /\ batch <> [])
  /\ NoDup (destinations out)
  /\ (forall pid b1 b2,
        AddThread pid b1 ∈ out -> AddThread pid b2 ∈ out -> b1 = b2)
  /\ (forall pid m',
        (exists batch, AddThread pid batch ∈ out /\ m' ∈ batch)
        <-> (0 <= pid < process_num st
             /\ (pid ∉ ids m')
             /\ exists m, m ∈ msgs_this_round_ st /\ m' = relayed st m)).
Proof.
  rewrite InitNewRound_eq.
  destruct (relay_loop _ _ _ _ _) as [toSend|] eqn:Hloop; [|done].
  intros [= <- <-]. split; [done|].
  assert (Hout : forall pid batch,
    AddThread pid batch ∈ ((fun b => AddThread b.1 b.2) <$> map_to_list toSend)
    <-> toSend !! pid = Some batch).
  { intros pid batch. rewrite list_elem_of_fmap. split.
    - intros ([p b] & [= -> ->] & Hin). by apply elem_of_map_to_list.
    - intros Hb. exists (pid, batch). split; [done|].
      by apply elem_of_map_to_list. }
  split; [|split; [|split]].
  - intros e He. apply list_elem_of_fmap in He as ([pid batch] & -> & Hin).
    exists pid, batch. split; [done|].
    apply elem_of_map_to_list in Hin.
    eapply relay_loop_batches_nonempty; [exact Hloop| |exact Hin].
    intros ? ?. by rewrite lookup_empty.
  - rewrite destinations_threads. apply NoDup_fst_map_to_list.
  - intros pid b1 b2 H1%Hout H2%Hout. congruence.
  - intros pid m'.
    pose proof (in_batch_relay_loop _ _ _ _ _ _ pid m' Hloop) as Hiff.
    unfold in_batch in Hiff at 1.
    split.
    + intros (batch & Hin%Hout & Hm).
      destruct (proj1 Hiff) as [Hempty|(Hpid & Hnin & m & Hm' & ->)];
        [by eauto|by apply in_batch_empty in Hempty|].
      split; [done|]. split; [done|]. exists m.
      split; [by apply elem_of_elements|done].
    + intros (Hpid & Hnin & m & Hm & ->).
      destruct (proj2 Hiff) as (batch & Hb & Hin).
      * right. split; [done|]. split; [done|]. exists m.
        split; [by apply elem_of_elements|done].
      * exists batch. split; [by apply Hout|done].
Qed.

Lemma InitNewRound_relays_witness :
  let out := [AddThread 3 [relayed end_of_round_0 (mkMessage 0 ATTACK [0])];
              AddThread 2 [relayed end_of_round_0 (mkMessage 0 ATTACK [0])]] in
  next_round end_of_round_0 = next_round end_of_round_0
  /\ (forall e, e ∈ out -> exists pid batch,
        e = AddThread pid batch /\ batch <> [])
  /\ NoDup (destinations out)
  /\ (forall pid b1 b2,
        AddThread pid b1 ∈ out -> AddThread pid b2 ∈ out -> b1 = b2)
  /\ (forall pid m',
        (exists batch, AddThread pid batch ∈ out /\ m' ∈ batch)
        <-> (0 <= pid < process_num end_of_round_0
             /\ (pid ∉ ids m')
             /\ exists m, m ∈ msgs_this_round_ end_of_round_0
                  /\ m' = relayed end_of_round_0 m)).
Proof.
  apply (InitNewRound_relays end_of_round_0 (next_round end_of_round_0)).
  vm_compute. reflexivity.
Defined.

(** ** The order of the Commander and its relays *)

(** X13. [Commander::Decide] returns its own order and starts exactly one
    sender thread for each Lieutenant, 1 to n - 1, and none for itself;
    every thread sends the single message made of the round and the order of
    the Commander and the path [0]. *)
Theorem Commander_Decide_fan_out (c : Commander) :
  let msg := mkMessage (c_round_ c) (order_ c) [0] in
  let n := Z.of_nat (length (c_processes_ c)) in
  (Commander_Decide c).1 = order_ c
  /\ (forall e, e ∈ (Commander_Decide c).2
        <-> exists pid, 1 <= pid < n /\ e = AddThread pid [msg])
  /\ NoDup (Commander_Decide c).2
  /\ length (Commander_Decide c).2 = (length (c_processes_ c) - 1)%nat.
Proof.
  intros msg n. split; [done|]. simpl. split; [|split].
  - intros e. rewrite list_elem_of_fmap. split.
    + intros (i & -> & Hi). apply elem_of_seq in Hi.
      exists (Z.of_nat i). split; [lia|done].
    + intros (pid & Hpid & ->). exists (Z.to_nat pid).
      split; [f_equal; lia|]. apply elem_of_seq. lia.
  - apply NoDup_fmap_2; [|apply NoDup_seq].
    intros i j [= Hij]. lia.
  - by rewrite length_fmap, length_seq.
Qed.

(** X14. The order of the Commander is accepted by a Lieutenant that has
    just started: the buffer [SendMessage] builds for the message of
    [Commander::Decide], received from the host of participant 0 by a
    Lieutenant whose id is not 0, is acknowledged for round 0 and makes the
    order the only order seen; the Lieutenant goes to round 1 or, if round 0
    is the last round, stops. *)
Theorem order_of_the_Commander_is_accepted
    (kByzantineMessageType kAckType : Z) (c : Commander) (id faulty : Z)
    (client a0 : Address) :
  is_uint32 (order_ c) ->
  c_round_ c = 0 ->
  c_processes_ c !! 0%nat = Some a0 ->
  hostname client = hostname a0 ->
  id <> 0 ->
  let msg := mkMessage (c_round_ c) (order_ c) [0] in
  let st0 := new_Lieutenant id (c_processes_ c) faulty in
  orders_seen_ (accept_first msg st0) = {[order_ c]}
  /\ exists out,
       Listen_step kAckType
         (Datagram client (SendMessage_buf kByzantineMessageType msg)) st0
       = (if 0 =? faulty then Stopped (accept_first msg st0)
          else Listening (next_round (accept_first msg st0)),
          Send client (SendAckForRound_buf kAckType 0) :: out).
Proof.
  intros Ho Hr Ha0 Hhost Hid msg st0. split.
  { simpl. set_solver. }
  assert (Hwf : wf_Message msg).
  { unfold msg, wf_Message. rewrite Hr. simpl.
    split; [unfold is_uint32; lia|]. split; [done|].
    constructor; [unfold is_uint32; lia|constructor]. }
  assert (E : ByzantineMsgFromBuf (SendMessage_buf kByzantineMessageType msg)
              = Some msg).
  { destruct Hwf as (? & ? & ?). rewrite decode_SendMessage_buf.
    by rewrite !wrap32_id, fmap_wrap32_id by done. }
  assert (V : ValidMessage st0 msg client = Returns true).
  { apply ValidMessage_true_iff; [done|simpl; lia|].
    unfold valid_spec, msg. rewrite Hr. simpl.
    assert (0 < length (c_processes_ c))%nat by (by eapply lookup_lt_Some).
    repeat split; try done.
    - repeat constructor. unfold process_num. simpl. lia.
    - repeat constructor. simpl. congruence.
    - repeat constructor. set_solver.
    - exists 0, a0. done. }
  unfold Listen_step. rewrite (on_message_valid _ _ _ _ _ E V). cbv zeta.
  change (FirstRound st0) with true. cbv iota.
  change (Z.of_nat (size (orders_seen_ st0)) =? 0) with true. cbv iota.
  rewrite MoveToNewRoundOrStop_eq.
  change (LastRound (accept_first msg st0)) with (0 =? faulty).
  destruct (0 =? faulty); simpl; [by eexists|].
  destruct (InitNewRound_Returns (accept_first msg st0)) as [out ->].
  - done.
  - simpl. intros m Hm. assert (m = msg) as -> by set_solver. done.
  - simpl. by eexists.
Qed.

Lemma order_of_the_Commander_is_accepted_witness :
  let msg := mkMessage (c_round_ commander_of_four)
               (order_ commander_of_four) [0] in
  let st0 := new_Lieutenant 1 (c_processes_ commander_of_four) 1 in
  orders_seen_ (accept_first msg st0) = {[order_ commander_of_four]}
  /\ exists out,
       Listen_step 2
         (Datagram (mkAddress "h0" 40000) (SendMessage_buf 1 msg)) st0
       = (if 0 =? 1 then Stopped (accept_first msg st0)
          else Listening (next_round (accept_first msg st0)),
          Send (mkAddress "h0" 40000) (SendAckForRound_buf 2 0) :: out).
Proof.
  apply (order_of_the_Commander_is_accepted 1 2 commander_of_four 1 1
           (mkAddress "h0" 40000) (mkAddress "h0" 9000)).
  - vm_compute. split; discriminate || reflexivity.
  - reflexivity.
  - reflexivity.
  - reflexivity.
  - lia.
Defined.

Lemma ValidMessage_true_length st msg from :
  ValidMessage st msg from = Returns true ->
  Z.of_nat (length (ids msg)) = wrap32 (round msg + 1).
Proof.
  unfold ValidMessage.
  destruct (round msg =? round_ st); simpl; [|done].
  destruct (wrap32 (round msg + 1) =? Z.of_nat (length (ids msg))) eqn:E;
    simpl; [|done].
  apply Z.eqb_eq in E. done.
Qed.

(** X15. Relaying keeps a message valid. If a message is valid for
    Lieutenant i, then the message that [InitNewRound] makes of it (next
    round, same order, the id of i appended to the path), sent from the host
    of i, is valid for every Lieutenant j with the same participant table
    that is in that next round, is not i and is not on the path. *)
Theorem relay_of_a_valid_message_is_valid (st_i st_j : Lieutenant)
    (msg : Message) (from from_i a_i : Address) :
  wf_Message msg ->
  ValidMessage st_i msg from = Returns true ->
  is_uint32 (id_ st_i) ->
  processes_ st_i !! Z.to_nat (id_ st_i) = Some a_i ->
  hostname from_i = hostname a_i ->
  processes_ st_j = processes_ st_i ->
  round_ st_j = round_ st_i + 1 ->
  round_ st_j < 2 ^ 32 - 1 ->
  id_ st_j ∉ ids msg ->
  id_ st_j <> id_ st_i ->
  ValidMessage st_j (relayed st_i msg) from_i = Returns true.
Proof.
  intros Hwf V Hid Ha Hhost Hproc Hround Hmax Hnotin Hne.
  pose proof (ValidMessage_true_length _ _ _ V) as Hlen.
  pose proof (ValidMessage_true_round _ _ _ V) as Hr.
  assert (Hshort : Z.of_nat (length (ids msg)) < 2 ^ 32).
  { rewrite Hlen. apply Z.mod_pos_bound. lia. }
  apply ValidMessage_true_iff in V
    as (_ & HlenZ & H0 & Hlt & Hnei & Hnd & _); [|done..].
  destruct Hwf as (Hwr & Hwo & Hwi).
  assert (Hw : wrap32 (round_ st_i + 1) = round_ st_i + 1).
  { apply wrap32_id. unfold is_uint32 in *. lia. }
  assert (Hidlt : id_ st_i < process_num st_i).
  { apply lookup_lt_Some in Ha. unfold process_num, is_uint32 in *. lia. }
  apply ValidMessage_true_iff.
  - unfold relayed, wf_Message. rewrite Hw. simpl.
    split; [unfold is_uint32 in *; lia|]. split; [done|].
    apply Forall_app_2; [done|]. constructor; [done|constructor].
  - unfold relayed. simpl. rewrite length_app. simpl. lia.
  - unfold valid_spec, relayed. rewrite Hw. simpl.
    unfold process_num. rewrite Hproc. fold (process_num st_i).
    rewrite length_app. simpl.
    split; [lia|]. split; [lia|]. split.
    { destruct (ids msg); [done|]. done. }
    split. { apply Forall_app_2; [done|]. constructor; [done|constructor]. }
    split.
    { apply Forall_app_2; [|constructor; [done|constructor]].
      apply Forall_forall. intros x Hx ->. done. }
    split.
    { apply NoDup_app. split; [done|]. split; [|apply NoDup_singleton].
      intros x Hx ->%list_elem_of_singleton.
      by apply (proj1 (Forall_forall _ _) Hnei (id_ st_i) Hx). }
    exists (id_ st_i), a_i. rewrite last_snoc. done.
Qed.

Lemma relay_of_a_valid_message_is_valid_witness :
  ValidMessage entered_round_1
    (relayed (new_Lieutenant 2 four_hosts 1) (mkMessage 0 ATTACK [0]))
    (mkAddress "h2" 40001) = Returns true.
Proof.
  apply (relay_of_a_valid_message_is_valid (new_Lieutenant 2 four_hosts 1)
           entered_round_1 (mkMessage 0 ATTACK [0])
           (mkAddress "h0" 40000) (mkAddress "h2" 40001)
           (mkAddress "h2" 9000)).
  - unfold wf_Message, is_uint32, ATTACK. simpl.
    split; [lia|]. split; [lia|]. constructor; [lia|constructor].
  - vm_compute. reflexivity.
  - vm_compute. split; discriminate || reflexivity.
  - reflexivity.
  - reflexivity.
  - vm_compute. reflexivity.
  - vm_compute. reflexivity.
  - vm_compute. reflexivity.
  - vm_compute. intros H. inversion H as [|? ? ? H']. inversion H'.
  - vm_compute. discriminate.
Defined.

(** ** Rounds with more relays than participants *)

Lemma ValidMessage_true_room st msg from :
  wf_Message msg ->
  0 <= id_ st < process_num st ->
  ValidMessage st msg from = Returns true ->
  round_ st + 2 <= process_num st.
Proof.
  intros Hwf Hid V.
  pose proof (ValidMessage_true_length _ _ _ V) as Hlen.
  assert (Hshort : Z.of_nat (length (ids msg)) < 2 ^ 32).
  { rewrite Hlen. apply Z.mod_pos_bound. lia. }
  apply ValidMessage_true_iff in V
    as (Hr & HlenZ & _ & Hlt & Hne & Hnd & _); [|done..].
  destruct Hwf as (_ & _ & Hwi).
  set (n := process_num st) in *.
  set (all := list_to_set (seqZ 0 n) : gset Z).
  assert (Hsub : (list_to_set (ids msg) : gset Z) ⊆ all ∖ {[id_ st]}).
  { intros x Hx%elem_of_list_to_set.
    apply elem_of_difference. split.
    - apply elem_of_list_to_set, elem_of_seqZ.
      pose proof (proj1 (Forall_forall _ _) Hlt x Hx) as H1.
      pose proof (proj1 (Forall_forall _ _) Hwi x Hx) as H2.
      unfold is_uint32 in H2. simpl in H1. lia.
    - intros ->%elem_of_singleton.
      by apply (proj1 (Forall_forall _ _) Hne (id_ st) Hx). }
  apply subseteq_size in Hsub.
  rewrite size_list_to_set in Hsub by done.
  rewrite size_difference in Hsub.
  2:{ apply singleton_subseteq_l, elem_of_list_to_set, elem_of_seqZ. lia. }
  rewrite size_singleton in Hsub.
  unfold all in Hsub. rewrite size_list_to_set in Hsub by apply NoDup_seqZ.
  rewrite length_seqZ in Hsub. lia.
Qed.

(** X16. A valid message leaves room for its path: the k + 1 ids of a
    message valid in round k are distinct ids of the participant table other
    than the Lieutenant's own, so a Lieutenant that is itself in the table
    has a valid message only while k + 2 <= n. *)
Theorem valid_message_fits_the_table (st : Lieutenant) (msg : Message)
    (from : Address) :
  wf_Message msg ->
  0 <= id_ st < process_num st ->
  ValidMessage st msg from = Returns true ->
  round_ st + 2 <= process_num st
  /\ Z.of_nat (length (ids msg)) <= process_num st - 1.
Proof.
  intros Hwf Hid V.
  pose proof (ValidMessage_true_room _ _ _ Hwf Hid V) as Hroom.
  split; [done|].
  pose proof (ValidMessage_true_length _ _ _ V) as Hlen.
  assert (Hshort : Z.of_nat (length (ids msg)) < 2 ^ 32).
  { rewrite Hlen. apply Z.mod_pos_bound. lia. }
  apply ValidMessage_true_iff in V as (Hr & HlenZ & _); [|done..]. lia.
Qed.

Lemma valid_message_fits_the_table_witness :
  round_ entered_round_1 + 2 <= process_num entered_round_1
  /\ Z.of_nat (length (ids relay_of_2)) <= process_num entered_round_1 - 1.
Proof.
  apply (valid_message_fits_the_table entered_round_1 relay_of_2
           (mkAddress "h2" 40001)).
  - unfold wf_Message, is_uint32, relay_of_2, ATTACK. simpl.
    split; [lia|]. split; [lia|].
    constructor; [lia|]. constructor; [lia|constructor].
  - vm_compute. split; discriminate || reflexivity.
  - vm_compute. reflexivity.
Defined.

(** X17. Once the round number reaches n - 1 no datagram is accepted any
    more: whatever arrives, the callback sends no Ack, retains nothing and
    leaves the Lieutenant as it was, so that only timeouts take it through
    the rounds n - 1 and later. *)
Theorem late_rounds_accept_nothing (kAckType : Z) (st : Lieutenant)
    (client : Address) (buf : list byte) :
  0 <= id_ st < process_num st ->
  process_num st - 1 <= round_ st ->
  round_ st <> 2 ^ 32 - 1 ->
  Listen_step kAckType (Datagram client buf) st = (Listening st, []).
Proof.
  intros Hid Hlate Hmax. unfold Listen_step.
  destruct (ByzantineMsgFromBuf buf) as [msg|] eqn:E.
  - pose proof (decoded_wf _ _ E) as Hwf.
    destruct (ValidMessage_defined st msg client Hwf Hmax) as [[|] V].
    + pose proof (ValidMessage_true_room _ _ _ Hwf Hid V). lia.
    + by rewrite (on_message_invalid _ _ _ _ _ E V).
  - by rewrite on_message_no_decode.
Qed.

Lemma late_rounds_accept_nothing_witness :
  Listen_step 2
    (Datagram (mkAddress "h0" 40000)
       (SendMessage_buf 1 (mkMessage 1 ATTACK [0; 1])))
    lieutenant_of_two
  = (Listening lieutenant_of_two, []).
Proof.
  apply (late_rounds_accept_nothing 2 lieutenant_of_two).
  - vm_compute. split; discriminate || reflexivity.
  - vm_compute. discriminate.
  - vm_compute. discriminate.
Defined.

Lemma MessagesForRound_0 n (k : nat) :
  2 <= n -> n - 1 <= Z.of_nat k -> MessagesForRound n k = 0.
Proof.
  intros Hn. induction k as [|k IH]; [lia|]. intros Hk.
  cbn [MessagesForRound].
  destruct (decide (n - 1 = Z.of_nat (S k))) as [->|Hne].
  - by rewrite Z.sub_diag.
  - rewrite IH by lia. by rewrite Z.mul_0_r.
Qed.

(** X18. In the rounds n - 1 and later the count of [MessagesForRound] is
    0, one of its factors being n - 1 - (n - 1): [RoundComplete] then holds
    exactly when no path has been retained in the round, and fails as soon
    as one has. *)
Theorem MessagesForRound_vanishes (st : Lieutenant) :
  2 <= process_num st ->
  process_num st - 1 <= round_ st ->
  MessagesForRound (process_num st) (Z.to_nat (round_ st)) = 0
  /\ (RoundComplete st = true <-> ids_this_round_ st = ∅).
Proof.
  intros Hn Hk.
  assert (H0 : MessagesForRound (process_num st) (Z.to_nat (round_ st)) = 0)
    by (apply MessagesForRound_0; lia).
  split; [done|]. unfold RoundComplete. rewrite H0, Z.eqb_eq. split.
  - intros Hs. apply leibniz_equiv, size_empty_iff. lia.
  - intros ->. by rewrite size_empty.
Qed.

Lemma MessagesForRound_vanishes_witness :
  MessagesForRound (process_num lieutenant_of_two)
    (Z.to_nat (round_ lieutenant_of_two)) = 0
  /\ (RoundComplete lieutenant_of_two = true
      <-> ids_this_round_ lieutenant_of_two = ∅).
Proof.
  apply (MessagesForRound_vanishes lieutenant_of_two).
  - vm_compute. discriminate.
  - vm_compute. discriminate.
Defined.

(** * Agreement *)

(** ** What a callback sends *)

Lemma ValidMessage_true_next st msg from :
  ValidMessage st msg from = Returns true -> wrap32 (round_ st + 1) <> 0.
Proof.
  intros V.
  pose proof (ValidMessage_true_length _ _ _ V) as Hlen.
  pose proof (ValidMessage_true_round _ _ _ V) as Hr.
  rewrite <- Hr, <- Hlen. unfold ValidMessage in V.
  destruct (round msg =? round_ st); simpl in V; [|done].
  destruct (wrap32 (round msg + 1) =? Z.of_nat (length (ids msg)));
    simpl in V; [|done].
  destruct (ids msg); [done|]. simpl. lia.
Qed.

(** The sender threads that a callback starts are those of the
    [InitNewRound] that ends the round. *)
Lemma Listen_step_threads kAckType ev st l out pid batch :
  Listen_step kAckType ev st = (l, out) ->
  AddThread pid batch ∈ out ->
  exists st1 out1,
    moved ev st st1
    /\ InitNewRound st1 = Returns (tt, next_round st1, out1)
    /\ AddThread pid batch ∈ out1.
Proof.
  assert (Hmove : forall st1 (pre : list Effect),
    moved ev st st1 ->
    (forall e, e ∈ pre -> e <> AddThread pid batch) ->
    match
      match MoveToNewRoundOrStop st1 with
      | Returns (a, s, o) => Returns (a, s, pre ++ o)
      | Throws => Throws
      | Undefined => Undefined
      end
    with
    | Returns (Continue, s, o) => (Listening s, o)
    | Returns (Stop, s, o) => (Stopped s, o)
    | _ => (Aborted, [])
    end = (l, out) ->
    AddThread pid batch ∈ out ->
    exists st1 out1,
      moved ev st st1
      /\ InitNewRound st1 = Returns (tt, next_round st1, out1)
      /\ AddThread pid batch ∈ out1).
  { intros st1 pre Hmoved Hpre. rewrite MoveToNewRoundOrStop_eq.
    destruct (LastRound st1); simpl.
    - intros [= _ <-]. rewrite app_nil_r. intros Hin. by destruct (Hpre _ Hin).
    - pose proof (InitNewRound_eq st1) as Hinit.
      destruct (InitNewRound st1) as [[[[] st2] out1]| |] eqn:E; simpl.
      + destruct (relay_loop _ _ _ _ _); [|done].
        injection Hinit as -> _.
        intros [= _ <-] [Hin|Hin]%elem_of_app; [by destruct (Hpre _ Hin)|].
        by exists st1, out1.
      + intros [= _ <-] Hin. by apply elem_of_nil in Hin.
      + intros [= _ <-] Hin. by apply elem_of_nil in Hin. }
  assert (Hack : forall client buf,
    forall e, e ∈ [Send client buf] -> e <> AddThread pid batch).
  { intros client buf e ->%list_elem_of_singleton. done. }
  assert (Hnone : forall client buf,
    AddThread pid batch ∈ [Send client buf] -> False).
  { intros client buf Hin. by destruct (Hack _ _ _ Hin). }
  unfold Listen_step. destruct ev as [client buf|].
  - destruct (ByzantineMsgFromBuf buf) as [msg|] eqn:E.
    2:{ rewrite on_message_no_decode by done. intros [= _ <-] Hin.
        by apply elem_of_nil in Hin. }
    destruct (ValidMessage st msg client) as [[|]| |] eqn:V.
    + rewrite (on_message_valid _ _ _ _ _ E V). cbv zeta.
      destruct (FirstRound st) eqn:Hfirst.
      * destruct (Z.of_nat (size (orders_seen_ st)) =? 0) eqn:Hseen.
        -- apply Z.eqb_eq in Hseen.
           assert (Hempty : orders_seen_ st = ∅).
           { apply leibniz_equiv, size_empty_iff. lia. }
           unfold after.
           apply (Hmove (accept_first msg st)
                    [Send client (SendAckForRound_buf kAckType (round_ st))]);
             [|apply Hack].
           right. exists client, buf, msg. repeat split; try done. by left.
        -- intros [= _ <-] Hin. by destruct (Hnone _ _ Hin).
      * destruct (count (ids_this_round_ st) (ids msg) =? 0) eqn:Hcount.
        -- apply Z.eqb_eq, count_not_elem in Hcount.
           destruct (RoundComplete (accept_later msg st)) eqn:Hcomplete.
           ++ unfold after.
              apply (Hmove (accept_later msg st)
                       [Send client
                          (SendAckForRound_buf kAckType (round_ st))]);
                [|apply Hack].
              right. exists client, buf, msg. repeat split; try done.
              by right.
           ++ intros [= _ <-] Hin. by destruct (Hnone _ _ Hin).
        -- intros [= _ <-] Hin. by destruct (Hnone _ _ Hin).
    + rewrite (on_message_invalid _ _ _ _ _ E V). intros [= _ <-] Hin.
      by apply elem_of_nil in Hin.
    + unfold on_message. rewrite E. unfold bind, call. rewrite V.
      intros [= _ <-] Hin. by apply elem_of_nil in Hin.
    + unfold on_message. rewrite E. unfold bind, call. rewrite V.
      intros [= _ <-] Hin. by apply elem_of_nil in Hin.
  - rewrite on_timeout_eq. destruct (FirstRound st) eqn:Hfirst.
    + intros [= _ <-] Hin. by apply elem_of_nil in Hin.
    + intros H. apply (Hmove st []); [by left| |].
      * intros e He. by apply elem_of_nil in He.
      * simpl. by destruct (MoveToNewRoundOrStop st) as [[[a s] o]| |].
Qed.

(** Every message that [InitNewRound] sends is made of a retained one. *)
Lemma InitNewRound_relayed st st' out pid batch m' :
  InitNewRound st = Returns (tt, st', out) ->
  AddThread pid batch ∈ out -> m' ∈ batch ->
  exists m, m ∈ msgs_this_round_ st /\ m' = relayed st m.
Proof.
  rewrite InitNewRound_eq.
  destruct (relay_loop _ _ _ _ _) as [toSend|] eqn:Hloop; [|done].
  intros [= _ <-] Hin Hm.
  apply list_elem_of_fmap in Hin as ([p b] & [= -> ->] & Hin).
  apply elem_of_map_to_list in Hin.
  destruct (proj1 (in_batch_relay_loop _ _ _ _ _ _ p m' Hloop))
    as [Hempty|(_ & _ & m & Hm' & ->)].
  - by exists b.
  - by apply in_batch_empty in Hempty.
  - exists m. split; [by apply elem_of_elements|done].
Qed.

(** ** Runs in which the Commander proposes RETREAT *)

Lemma DecideOrder_RETREAT st :
  RETREAT ∈ orders_seen_ st -> DecideOrder st = RETREAT.
Proof.
  intros Hin. destruct (DecideOrder_cases st) as [E|E]; [|done].
  apply DecideOrder_ATTACK in E. rewrite E in Hin.
  by apply elem_of_singleton in Hin.
Qed.

(** A callback run on a Lieutenant that has seen RETREAT if any order, with
    a datagram that carries RETREAT if it is a round-0 message from the host
    of the Commander, leaves such a Lieutenant and relays nothing that reads
    as a round-0 message. *)
Lemma Listen_step_retreat kAckType env ev st l out :
  retreat_seen env st ->
  (forall client buf msg a0,
     ev = Datagram client buf -> ByzantineMsgFromBuf buf = Some msg ->
     round msg = 0 ->
     participants env !! 0%nat = Some a0 ->
     hostname client = hostname a0 ->
     order msg = RETREAT) ->
  Listen_step kAckType ev st = (l, out) ->
  retreat_seen_loop env l /\ relays_later out.
Proof.
  intros Hst Hev Hstep. pose proof Hst as (Hps & Hseen & Hleft & Hmsgs).
  assert (Hacc : forall st1,
    moved ev st st1 \/ kept ev st st1 ->
    retreat_seen env st1 /\ RETREAT ∈ orders_seen_ st1).
  { intros st1 Hst1.
    destruct (moved_state ev st st1 Hst1)
      as (_ & Hps1 & _ & Hr1 & Hsub & _ & Hne).
    assert (Hin : RETREAT ∈ orders_seen_ st1).
    { destruct (FirstRound st) eqn:Hfirst.
      - destruct Hst1
          as [[(_ & Hf & _)|(client & buf & msg & -> & E & V & Hcase)]
             |(client & buf & msg & _ & _ & _ & Hf & _)];
          [congruence| |congruence].
        destruct Hcase as [(_ & _ & ->)|(Hf & _)]; [|congruence].
        apply Z.eqb_eq in Hfirst.
        destruct (ValidMessage_in_round_0 _ _ _ V Hfirst)
          as (Hr0 & _ & a0 & Ha0 & Hhost).
        rewrite Hps in Ha0.
        pose proof (Hev client buf msg a0 eq_refl E Hr0 Ha0 (eq_sym Hhost))
          as Ho.
        simpl. rewrite Ho. set_solver.
      - apply Hsub, Hseen, Hleft. done. }
    split; [|done]. split; [congruence|]. split; [done|].
    split; [intros _ Hempty; rewrite Hempty in Hin; set_solver|].
    intros Hne1. rewrite Hr1.
    destruct Hst1
      as [[(_ & _ & ->)|(client & buf & msg & _ & _ & V & _)]
         |(client & buf & msg & _ & _ & V & _)].
    - by apply Hmsgs.
    - by eapply ValidMessage_true_next.
    - by eapply ValidMessage_true_next. }
  split.
  - apply Listen_step_shape in Hstep
      as [->|[->|[(s1 & Hkept & ->)|(s1 & Hmoved & Hl)]]]; [done|done| |].
    + by apply Hacc; right.
    + destruct (Hacc s1 (or_introl Hmoved)) as [(Hps1 & _) Hin].
      destruct Hl as [[_ ->]|[_ ->]]; [done|].
      split; [done|]. split; [done|].
      split; [intros _ Hempty; simpl in Hempty; rewrite Hempty in Hin;
              set_solver|].
      intros Hne1. by destruct Hne1.
  - intros pid batch Hin. apply Forall_forall. intros m' Hm'.
    destruct (Listen_step_threads _ _ _ _ _ _ _ Hstep Hin)
      as (s1 & out1 & Hmoved & Hinit & Hin1).
    destruct (InitNewRound_relayed _ _ _ _ _ _ Hinit Hin1 Hm')
      as (m & Hm & ->).
    destruct (Hacc s1 (or_introl Hmoved)) as [(_ & _ & _ & Hnext) _].
    change (round (relayed s1 m)) with (wrap32 (round_ s1 + 1)).
    unfold wrap32 in *. rewrite Z.mod_mod by lia.
    apply Hnext. intros Hempty. rewrite Hempty in Hm. set_solver.
Qed.

Section RetreatWins.

Variables kByzantineMessageType kAckType : Z.
Variable env : Setup.
Hypothesis proposal_RETREAT : proposal env = RETREAT.
Hypothesis traitors_off_host :
  forall b a a0,
    b ∈ byzantine env -> 0 <= b ->
    participants env !! Z.to_nat b = Some a ->
    participants env !! 0%nat = Some a0 ->
    hostname a <> hostname a0.

Lemma transmit_all_later self out d msg :
  relays_later out ->
  d ∈ transmit_all kByzantineMessageType env self out ->
  ByzantineMsgFromBuf (payload d) = Some msg ->
  round msg <> 0.
Proof.
  intros Hout Hd Hmsg. unfold transmit_all in Hd.
  apply list_elem_of_bind in Hd as (e & Hd & He).
  destruct e as [client buf|pid batch]; simpl in Hd;
    [by apply elem_of_nil in Hd|].
  destruct (participants env !! Z.to_nat self) as [a|];
    [|by apply elem_of_nil in Hd].
  apply list_elem_of_fmap in Hd as (m & -> & Hm). simpl in Hmsg.
  rewrite decode_SendMessage_buf in Hmsg. injection Hmsg as <-. simpl.
  pose proof (Hout pid batch He) as Hbatch.
  exact (proj1 (Forall_forall _ _) Hbatch m Hm).
Qed.

Lemma initial_world_retreat : world_retreat env (initial_world env).
Proof.
  split; [|split].
  - intros d msg a0 Hd. by apply elem_of_nil in Hd.
  - intros p l Hl. simpl in Hl. apply elem_of_list_to_map_2 in Hl.
    apply list_elem_of_fmap in Hl as (q & [= -> ->] & _).
    split; [done|]. split; [done|]. split; [done|]. done.
  - done.
Qed.

Lemma step_retreat w w' :
  step kByzantineMessageType kAckType env w w' ->
  world_retreat env w -> world_retreat env w'.
Proof.
  intros Hstep (Hsoup & Hlts & Hcmd).
  destruct Hstep as [w H0 Hret c|w d port st l out Hd Hl Hrun
                    |w p st l out Hl Hrun|w b a to buf Hb Hpos Ha].
  - split; [|split]; simpl; [|done|by intros o' [= <-]].
    intros d msg a0 [Hin|Hin]%elem_of_app; [by eapply Hsoup|].
    intros Hmsg _ _ _. unfold transmit_all in Hin.
    apply list_elem_of_bind in Hin as (e & Hin & He).
    simpl in He. apply list_elem_of_fmap in He as (i & -> & _).
    simpl in Hin.
    destruct (participants env !! Z.to_nat 0) as [a|];
      [|by apply elem_of_nil in Hin].
    apply list_elem_of_singleton in Hin as ->. simpl in Hmsg.
    rewrite decode_SendMessage_buf in Hmsg. injection Hmsg as <-. simpl.
    by rewrite proposal_RETREAT.
  - apply Listen_step_retreat with (env := env) in Hrun as [Hloop Hout].
    + split; [|split]; simpl; [| |done].
      * intros d' msg a0 [Hin|Hin]%elem_of_app; [by eapply Hsoup|].
        intros Hmsg Hr0. by destruct (transmit_all_later _ _ _ _ Hout Hin Hmsg).
      * intros p l'. rewrite lookup_insert. case_decide; [|by apply Hlts].
        by intros [= <-].
    + by apply (Hlts _ _ Hl).
    + intros client buf msg a0 [= <- <-] Hmsg Hr0 Ha0 Hhost.
      by eapply Hsoup.
  - apply Listen_step_retreat with (env := env) in Hrun as [Hloop Hout].
    + split; [|split]; simpl; [| |done].
      * intros d' msg a0 [Hin|Hin]%elem_of_app; [by eapply Hsoup|].
        intros Hmsg Hr0. by destruct (transmit_all_later _ _ _ _ Hout Hin Hmsg).
      * intros q l'. rewrite lookup_insert. case_decide; [|by apply Hlts].
        by intros [= <-].
    + by apply (Hlts _ _ Hl).
    + done.
  - split; [|split]; simpl; [|done|done].
    intros d msg a0 [Hin|Hin]%elem_of_app; [by eapply Hsoup|].
    apply list_elem_of_singleton in Hin as ->. simpl.
    intros _ _ Ha0 Hhost. by destruct (traitors_off_host b a a0).
Qed.

Lemma reachable_retreat w :
  reachable kByzantineMessageType kAckType env w -> world_retreat env w.
Proof.
  unfold reachable. revert w. apply rtc_ind_r.
  - apply initial_world_retreat.
  - intros w1 w2 _ Hstep IH. by eapply step_retreat.
Qed.

End RetreatWins.

(** In a harmless setup every Lieutenant that has returned has returned the
    order that the Commander proposes. *)
Lemma harmless_decision kByzantineMessageType kAckType env w :
  harmless env ->
  proposal env = ATTACK \/ proposal env = RETREAT ->
  reachable kByzantineMessageType kAckType env w ->
  (forall p o,
     (lieutenants w !! p) ≫= Lieutenant_Decide = Some o -> o = proposal env)
  /\ (forall o, commander_returned w = Some o -> o = proposal env).
Proof.
  intros Hharm Hprop Hw.
  destruct (decide (proposal env = RETREAT)) as [Hret|Hatt].
  - assert (Hoff : forall b a a0,
      b ∈ byzantine env -> 0 <= b ->
      participants env !! Z.to_nat b = Some a ->
      participants env !! 0%nat = Some a0 ->
      hostname a <> hostname a0).
    { intros b a a0 Hb Hpos Ha Ha0.
      by apply (proj2 (Hharm b a Hb Hpos Ha)). }
    destruct (reachable_retreat kByzantineMessageType kAckType env
                Hret Hoff w Hw) as (_ & Hlts & Hcmd).
    rewrite Hret. split; [|done]. intros p o Hp.
    destruct (lieutenants w !! p) as [[st|st|]|] eqn:Hl; simpl in Hp;
      try done.
    injection Hp as <-. apply DecideOrder_RETREAT. exact (Hlts _ _ Hl).
  - assert (Hfit : is_uint32 (proposal env))
      by (destruct Hprop as [-> | ->]; by vm_compute).
    assert (Hnone : forall b,
      b ∈ byzantine env -> 0 <= b ->
      participants env !! Z.to_nat b = None).
    { intros b Hb Hpos.
      destruct (participants env !! Z.to_nat b) as [a|] eqn:Ha; [|done].
      by destruct (proj1 (Hharm b a Hb Hpos Ha)). }
    destruct (reachable_faithful kByzantineMessageType kAckType env
                Hnone Hfit w Hw) as (_ & Hlts & Hcmd).
    split; [|done]. intros p o Hp.
    destruct (lieutenants w !! p) as [[st|st|]|] eqn:Hl; simpl in Hp;
      try done.
    injection Hp as <-. destruct (Hlts _ _ Hl) as [Hf Hne].
    by apply faithful_decision.
Qed.

(** ** Runs of one Lieutenant *)

Lemma Listen_cons kAckType ev evs st :
  Listen kAckType (ev :: evs) st
  = match (Listen_step kAckType ev st).1 with
    | Listening st' => Listen kAckType evs st'
    | l => l
    end.
Proof. reflexivity. Qed.

(** Enough timeouts stop a Lieutenant that has left round 0; what it has
    seen is not changed by them. *)
Lemma timeouts_stop kAckType faulty (k : nat) : forall st,
  0 <= faulty < 2 ^ 32 - 1 ->
  rounds_inv faulty st ->
  1 <= round_ st ->
  faulty - round_ st + 1 <= Z.of_nat k ->
  exists st',
    Listen kAckType (replicate k Timeout) st = Stopped st'
    /\ orders_seen_ st' = orders_seen_ st.
Proof.
  induction k as [|k IH]; intros st Hf Hinv Hr1 Hk.
  { destruct Hinv as (? & _). lia. }
  destruct (timeout_step kAckType faulty st) as [out Hstep];
    [lia|done|by apply Z.eqb_neq; lia|].
  pose proof (Listen_step_rounds kAckType faulty Timeout st _ _
                ltac:(lia) Hinv Hstep) as Hnext.
  cbn [replicate Listen]. rewrite Hstep. simpl.
  destruct (LastRound st) eqn:Hlast; [by eexists|].
  destruct Hinv as (Hr & Hfaulty & _).
  unfold LastRound in Hlast. rewrite Hfaulty in Hlast.
  apply Z.eqb_neq in Hlast.
  assert (Hround : round_ (next_round st) = round_ st + 1).
  { simpl. unfold wrap32. rewrite Z.mod_small; lia. }
  destruct (IH (next_round st)) as (st' & Hst' & Hseen); [done|done|lia|lia|].
  exists st'. split; [done|]. by rewrite Hseen.
Qed.

(** A Lieutenant that has just started accepts a round-0 message with path
    [0] from the host of participant 0. *)
Lemma accept_order kByzantineMessageType kAckType id processes faulty o
    client a0 :
  is_uint32 o ->
  processes !! 0%nat = Some a0 ->
  hostname client = hostname a0 ->
  id <> 0 ->
  let msg := mkMessage 0 o [0] in
  let st0 := new_Lieutenant id processes faulty in
  exists out,
    Listen_step kAckType
      (Datagram client (SendMessage_buf kByzantineMessageType msg)) st0
    = (if 0 =? faulty then Stopped (accept_first msg st0)
       else Listening (next_round (accept_first msg st0)), out).
Proof.
  intros Ho Ha0 Hhost Hid msg st0.
  assert (Hwf : wf_Message msg).
  { unfold msg, wf_Message. simpl.
    split; [unfold is_uint32; lia|]. split; [done|].
    constructor; [unfold is_uint32; lia|constructor]. }
  assert (E : ByzantineMsgFromBuf (SendMessage_buf kByzantineMessageType msg)
              = Some msg).
  { destruct Hwf as (? & ? & ?). rewrite decode_SendMessage_buf.
    by rewrite !wrap32_id, fmap_wrap32_id by done. }
  assert (V : ValidMessage st0 msg client = Returns true).
  { apply ValidMessage_true_iff; [done|simpl; lia|].
    unfold valid_spec, msg. simpl.
    assert (0 < length processes)%nat by (by eapply lookup_lt_Some).
    repeat split; try done.
    - repeat constructor. unfold process_num. simpl. lia.
    - repeat constructor. simpl. congruence.
    - repeat constructor. set_solver.
    - exists 0, a0. done. }
  unfold Listen_step. rewrite (on_message_valid _ _ _ _ _ E V). cbv zeta.
  change (FirstRound st0) with true. cbv iota.
  change (Z.of_nat (size (orders_seen_ st0)) =? 0) with true. cbv iota.
  rewrite MoveToNewRoundOrStop_eq.
  change (LastRound (accept_first msg st0)) with (0 =? faulty).
  destruct (0 =? faulty); simpl; [by eexists|].
  destruct (InitNewRound_Returns (accept_first msg st0)) as [out ->].
  - done.
  - simpl. intros m Hm. assert (m = msg) as -> by set_solver. done.
  - simpl. by eexists.
Qed.

(** With the timeouts that follow, it returns having seen that order
    only. *)
Lemma single_order_run kByzantineMessageType kAckType id processes faulty o
    client a0 :
  0 <= faulty < 2 ^ 32 - 1 ->
  is_uint32 o ->
  processes !! 0%nat = Some a0 ->
  hostname client = hostname a0 ->
  id <> 0 ->
  exists st,
    Listen kAckType
      (Datagram client
         (SendMessage_buf kByzantineMessageType (mkMessage 0 o [0]))
       :: replicate (Z.to_nat faulty) Timeout)
      (new_Lieutenant id processes faulty) = Stopped st
    /\ orders_seen_ st = {[o]}.
Proof.
  intros Hf Ho Ha0 Hhost Hid.
  destruct (accept_order kByzantineMessageType kAckType id processes faulty
              o client a0 Ho Ha0 Hhost Hid) as [out Hstep].
  cbv zeta in Hstep. cbn [Listen]. rewrite Hstep. clear Hstep.
  destruct (0 =? faulty) eqn:Hlast; simpl.
  - eexists. split; [done|]. simpl. set_solver.
  - apply Z.eqb_neq in Hlast.
    set (st1 := next_round
                  (accept_first (mkMessage 0 o [0])
                     (new_Lieutenant id processes faulty))).
    destruct (timeouts_stop kAckType faulty (Z.to_nat faulty) st1)
      as (st' & Hst' & Hseen).
    + done.
    + split; [|split]; simpl; [|done|set_solver].
      change (wrap32 (0 + 1)) with 1. lia.
    + done.
    + change (round_ st1) with 1. lia.
    + exists st'. split; [done|]. rewrite Hseen. simpl. set_solver.
Qed.

(** A Lieutenant that has accepted the order of the Commander and left
    round 0 accepts the relay that process [b] makes of any order, and with
    the timeouts that follow returns having seen that order. *)
Lemma forged_relay_run kByzantineMessageType kAckType id processes faulty
    o o' b a client :
  1 <= faulty < 2 ^ 32 - 1 ->
  Z.of_nat (length processes) < 2 ^ 32 ->
  is_uint32 o' ->
  0 < b -> b <> id -> id <> 0 ->
  processes !! Z.to_nat b = Some a ->
  hostname client = hostname a ->
  let st1 := next_round (accept_first (mkMessage 0 o [0])
                           (new_Lieutenant id processes faulty)) in
  exists st,
    Listen kAckType
      (Datagram client
         (SendMessage_buf kByzantineMessageType (mkMessage 1 o' [0; b]))
       :: replicate (Z.to_nat faulty) Timeout) st1 = Stopped st
    /\ o' ∈ orders_seen_ st.
Proof.
  intros Hf Hn Ho' Hb Hbid Hid Ha Hhost st1.
  set (msg := mkMessage 1 o' [0; b]).
  assert (Hbn : b < Z.of_nat (length processes)).
  { apply lookup_lt_Some in Ha. lia. }
  assert (Hwf : wf_Message msg).
  { unfold msg, wf_Message, is_uint32 in *. simpl.
    split; [lia|]. split; [done|].
    constructor; [lia|]. constructor; [lia|constructor]. }
  assert (E : ByzantineMsgFromBuf (SendMessage_buf kByzantineMessageType msg)
              = Some msg).
  { destruct Hwf as (? & ? & ?). rewrite decode_SendMessage_buf.
    by rewrite !wrap32_id, fmap_wrap32_id by done. }
  assert (Hr1 : round_ st1 = 1) by done.
  assert (V : ValidMessage st1 msg client = Returns true).
  { apply ValidMessage_true_iff; [done|simpl; lia|].
    unfold valid_spec, msg. simpl. unfold process_num. simpl.
    split; [done|]. split; [done|]. split; [done|].
    split; [constructor; [lia|]; constructor; [lia|constructor]|].
    split; [constructor; [congruence|]; constructor; [done|constructor]|].
    split.
    { constructor; [|constructor; [set_solver|constructor]].
      intros H%list_elem_of_singleton. lia. }
    exists b, a. done. }
  assert (Hinv1 : rounds_inv faulty st1).
  { split; [|split]; simpl; [|done|set_solver].
    change (wrap32 (0 + 1)) with 1. lia. }
  destruct (Listen_step kAckType
              (Datagram client (SendMessage_buf kByzantineMessageType msg))
              st1) as [l out] eqn:Hstep.
  pose proof (Listen_step_rounds kAckType faulty _ _ _ _ ltac:(lia) Hinv1
                Hstep) as Hrounds.
  cbn [Listen]. rewrite Hstep. simpl.
  unfold Listen_step in Hstep.
  rewrite (on_message_valid _ _ _ _ _ E V) in Hstep. cbv zeta in Hstep.
  change (FirstRound st1) with false in Hstep. cbv iota in Hstep.
  change (count (ids_this_round_ st1) (ids msg) =? 0) with true in Hstep.
  cbv iota in Hstep.
  set (st2 := accept_later msg st1) in *.
  assert (Hseen2 : o' ∈ orders_seen_ st2) by (simpl; set_solver).
  assert (Hstop : forall st,
    rounds_inv faulty st -> 1 <= round_ st ->
    orders_seen_ st = orders_seen_ st2 ->
    exists st',
      Listen kAckType (replicate (Z.to_nat faulty) Timeout) st = Stopped st'
      /\ o' ∈ orders_seen_ st').
  { intros st Hinv Hr Hseen.
    destruct (timeouts_stop kAckType faulty (Z.to_nat faulty) st)
      as (st' & Hst' & Hseen'); [lia|done|done|lia|].
    exists st'. split; [done|]. by rewrite Hseen', Hseen. }
  destruct (RoundComplete st2).
  - rewrite MoveToNewRoundOrStop_eq in Hstep.
    destruct (LastRound st2).
    + simpl in Hstep. injection Hstep as <- _. by exists st2.
    + destruct (InitNewRound st2) as [[[[] st3] out3]| |] eqn:Hinit;
        simpl in Hstep; injection Hstep as <- _; [|done|done].
      rewrite InitNewRound_eq in Hinit.
      destruct (relay_loop _ _ _ _ _); [|done].
      injection Hinit as <- _.
      apply Hstop; [done| |done].
      change (round_ (next_round st2)) with (wrap32 (1 + 1)).
      by vm_compute.
  - injection Hstep as <- _. apply Hstop; [done| |done].
    change (round_ st2) with 1. lia.
Qed.

(** ** Runs that a Byzantine process steers *)

Section Lies.

Variables kByzantineMessageType kAckType : Z.
Variable env : Setup.

Abbreviation reachable := (reachable kByzantineMessageType kAckType env).
Abbreviation n := (Z.of_nat (length (participants env))).

(** The server of a listening Lieutenant can be given, one after the other,
    any packets of the soup that are addressed to it, and timeouts. *)
Lemma run_events evs : forall w j st,
  reachable w ->
  lieutenants w !! j = Some (Listening st) ->
  Forall (event_for w j) evs ->
  exists w',
    reachable w'
    /\ lieutenants w' !! j = Some (Listen kAckType evs st)
    /\ (forall q, q <> j -> lieutenants w' !! q = lieutenants w !! q).
Proof.
  induction evs as [|ev evs IH]; intros w j st Hw Hl Hevs.
  { exists w. by repeat split. }
  apply Forall_cons in Hevs as [Hev Hevs].
  destruct (Listen_step kAckType ev st) as [l out] eqn:Hstep.
  set (w1 := mkWorld (<[j := l]> (lieutenants w))
               (soup w ++ transmit_all kByzantineMessageType env j out)
               (commander_returned w)).
  assert (Hw1 : reachable w1).
  { eapply rtc_r; [exact Hw|].
    destruct Hev as [->|(d & port & Hd & <- & ->)].
    - by eapply step_timeout.
    - by eapply step_deliver. }
  assert (Hl1 : lieutenants w1 !! j = Some l) by apply lookup_insert_eq.
  assert (Hq1 : forall q, q <> j -> lieutenants w1 !! q = lieutenants w !! q).
  { intros q Hq. by apply lookup_insert_ne. }
  cbn [Listen]. rewrite Hstep. simpl.
  destruct l as [st'| |]; [|by exists w1..].
  destruct (IH w1 j st' Hw1 Hl1) as (w' & Hw' & Hl' & Hq').
  - eapply Forall_impl; [exact Hevs|].
    intros e [->|(d & port & Hd & Hdst & ->)]; [by left|right].
    exists d, port. split; [|done]. simpl. apply elem_of_app. by left.
  - exists w'. split; [done|]. split; [done|].
    intros q Hq. by rewrite Hq', Hq1.
Qed.

Lemma elem_of_correct_lieutenants j :
  j ∈ correct_lieutenants env <-> (1 <= j < n /\ j ∉ byzantine env).
Proof.
  unfold correct_lieutenants. rewrite list_elem_of_filter, list_elem_of_fmap.
  split.
  - intros [Hj (i & -> & Hi%elem_of_seq)]. split; [lia|done].
  - intros [Hj Hc]. split; [done|]. exists (Z.to_nat j).
    split; [lia|]. apply elem_of_seq. lia.
Qed.

Lemma initial_lieutenant j :
  1 <= j < n -> j ∉ byzantine env ->
  lieutenants (initial_world env) !! j
  = Some (Listening (new_Lieutenant j (participants env) (tolerated env))).
Proof.
  intros Hj Hc. simpl. apply elem_of_list_to_map_1.
  - rewrite <- list_fmap_compose. apply NoDup_fmap_2.
    { by intros x y [=]. }
    unfold correct_lieutenants.
    apply NoDup_filter, NoDup_fmap_2; [apply _|apply NoDup_seq].
  - apply list_elem_of_fmap. exists j. split; [done|].
    by apply elem_of_correct_lieutenants.
Qed.

Lemma commander_packet j a0 :
  participants env !! 0%nat = Some a0 ->
  1 <= j < n ->
  mkPacket j (hostname a0)
    (SendMessage_buf kByzantineMessageType
       (mkMessage 0 (proposal env) [0]))
  ∈ transmit_all kByzantineMessageType env 0
      (Commander_Decide (mkCommander 0 (proposal env) (participants env))).2.
Proof.
  intros Ha0 Hj. unfold transmit_all. apply list_elem_of_bind.
  exists (AddThread j [mkMessage 0 (proposal env) [0]]). split.
  - simpl. change (Z.to_nat 0) with 0%nat. rewrite Ha0. simpl.
    apply list_elem_of_singleton. done.
  - simpl. apply list_elem_of_fmap. exists (Z.to_nat j).
    split; [f_equal; lia|]. apply elem_of_seq. lia.
Qed.

(** A Byzantine process on the host of the Commander gives a Lieutenant
    that has not left round 0 the order of its choice, and the Lieutenant
    returns it. *)
Lemma forged_order_decides w b a a0 j o :
  reachable w ->
  b ∈ byzantine env -> 0 <= b ->
  participants env !! Z.to_nat b = Some a ->
  participants env !! 0%nat = Some a0 ->
  hostname a = hostname a0 ->
  0 <= tolerated env < 2 ^ 32 - 1 ->
  j <> 0 ->
  lieutenants w !! j
  = Some (Listening (new_Lieutenant j (participants env) (tolerated env))) ->
  o = ATTACK \/ o = RETREAT ->
  exists w',
    reachable w'
    /\ (lieutenants w' !! j) ≫= Lieutenant_Decide = Some o
    /\ (forall q, q <> j -> lieutenants w' !! q = lieutenants w !! q).
Proof.
  intros Hw Hb Hpos Ha Ha0 Hhost Hm Hj Hl Ho.
  set (buf := SendMessage_buf kByzantineMessageType (mkMessage 0 o [0])).
  set (d := mkPacket j (hostname a) buf).
  set (w1 := mkWorld (lieutenants w) (soup w ++ [d]) (commander_returned w)).
  assert (Hw1 : reachable w1).
  { eapply rtc_r; [exact Hw|]. by eapply step_byzantine. }
  set (client := mkAddress (hostname a) 0).
  destruct (run_events
              (Datagram client buf
               :: replicate (Z.to_nat (tolerated env)) Timeout)
              w1 j _ Hw1 Hl) as (w' & Hw' & Hl' & Hq').
  { constructor.
    - right. exists d, 0. split; [|done]. simpl.
      apply elem_of_app. right. by apply list_elem_of_singleton.
    - apply Forall_forall. intros e ->%elem_of_replicate_inv. by left. }
  destruct (single_order_run kByzantineMessageType kAckType j
              (participants env) (tolerated env) o client a0)
    as (st & Hst & Hseen); try done.
  { destruct Ho as [-> | ->]; by vm_compute. }
  exists w'. split; [done|]. split; [|done].
  rewrite Hl'. unfold buf. rewrite Hst. simpl. f_equal.
  destruct Ho as [-> | ->].
  - by apply DecideOrder_ATTACK.
  - apply DecideOrder_RETREAT. rewrite Hseen. set_solver.
Qed.

(** Next to a correct Commander, a Byzantine process of the table makes a
    Lieutenant return RETREAT by relaying RETREAT to it in round 1. *)
Lemma forged_relay_decides b a j :
  0 ∉ byzantine env ->
  b ∈ byzantine env -> 0 <= b ->
  participants env !! Z.to_nat b = Some a ->
  1 <= tolerated env < 2 ^ 32 - 1 ->
  n < 2 ^ 32 ->
  1 <= j < n -> j ∉ byzantine env ->
  is_uint32 (proposal env) ->
  exists w,
    reachable w
    /\ (lieutenants w !! j) ≫= Lieutenant_Decide = Some RETREAT.
Proof.
  intros H0 Hb Hpos Ha Hm Hn Hj Hc Hfit.
  assert (Hb0 : 0 < b).
  { destruct (decide (b = 0)) as [->|]; [done|lia]. }
  assert (Hbj : b <> j) by congruence.
  destruct (lookup_lt_is_Some_2 (participants env) 0) as [a0 Ha0]; [lia|].
  set (c := mkCommander 0 (proposal env) (participants env)).
  set (w0 := initial_world env).
  set (w1 := mkWorld (lieutenants w0)
               (soup w0
                ++ transmit_all kByzantineMessageType env 0
                     (Commander_Decide c).2)
               (Some (Commander_Decide c).1)).
  set (buf := SendMessage_buf kByzantineMessageType
                (mkMessage 1 RETREAT [0; b])).
  set (d := mkPacket j (hostname a) buf).
  set (w2 := mkWorld (lieutenants w1) (soup w1 ++ [d])
               (commander_returned w1)).
  assert (Hw1 : reachable w1).
  { eapply rtc_r; [apply rtc_refl|]. by apply step_commander. }
  assert (Hw2 : reachable w2).
  { eapply rtc_r; [exact Hw1|]. by eapply step_byzantine. }
  pose proof (initial_lieutenant j Hj Hc) as Hl.
  set (client0 := mkAddress (hostname a0) 0).
  set (client := mkAddress (hostname a) 0).
  set (buf0 := SendMessage_buf kByzantineMessageType
                 (mkMessage 0 (proposal env) [0])).
  destruct (run_events
              (Datagram client0 buf0
               :: Datagram client buf
               :: replicate (Z.to_nat (tolerated env)) Timeout)
              w2 j _ Hw2 Hl) as (w' & Hw' & Hl' & _).
  { constructor; [|constructor].
    - right. exists (mkPacket j (hostname a0) buf0), 0. split; [|done].
      simpl. apply elem_of_app. left. by apply commander_packet.
    - right. exists d, 0. split; [|done]. simpl.
      apply elem_of_app. right. by apply list_elem_of_singleton.
    - apply Forall_forall. intros e ->%elem_of_replicate_inv. by left. }
  exists w'. split; [done|]. rewrite Hl'.
  destruct (accept_order kByzantineMessageType kAckType j
              (participants env) (tolerated env) (proposal env) client0 a0)
    as [out Hstep]; [done|done|done|lia|].
  cbv zeta in Hstep.
  destruct (0 =? tolerated env) eqn:E; [apply Z.eqb_eq in E; lia|].
  destruct (forged_relay_run kByzantineMessageType kAckType j
              (participants env) (tolerated env) (proposal env) RETREAT
              b a client) as (st & Hst & Hseen); try done; try lia.
  cbv zeta in Hst.
  rewrite Listen_cons. unfold buf0. rewrite Hstep.
  cbn [fst]. cbv iota. unfold buf. rewrite Hst. simpl.
  f_equal. by apply DecideOrder_RETREAT.
Qed.

(** Where at most m of at least 3m + 1 processes are Byzantine, two of the
    Lieutenants are correct. *)
Lemma two_correct_lieutenants :
  3 * tolerated env + 1 <= n ->
  Z.of_nat (size (byzantine env)) <= tolerated env ->
  1 <= tolerated env ->
  exists j1 j2,
    j1 <> j2
    /\ (1 <= j1 < n /\ j1 ∉ byzantine env)
    /\ (1 <= j2 < n /\ j2 ∉ byzantine env).
Proof.
  intros Hn Hbyz Hm.
  set (X := list_to_set (seqZ 1 (n - 1)) : gset Z).
  assert (HX : size X = Z.to_nat (n - 1)).
  { unfold X. rewrite size_list_to_set by apply NoDup_seqZ.
    apply length_seqZ. }
  assert (Hin : forall x, x ∈ X ∖ byzantine env ->
                          1 <= x < n /\ x ∉ byzantine env).
  { intros x [Hx Hc]%elem_of_difference. split; [|done].
    apply elem_of_list_to_set, elem_of_seqZ in Hx. lia. }
  assert (HC : (size X <= size (byzantine env) + size (X ∖ byzantine env))%nat).
  { rewrite <- size_union_alt. apply subseteq_size. set_solver. }
  destruct (size_pos_elem_of (X ∖ byzantine env)) as [j1 Hj1]; [lia|].
  assert (H1 : size (X ∖ byzantine env ∖ {[j1]})
               = (size (X ∖ byzantine env) - 1)%nat).
  { rewrite size_difference by set_solver. by rewrite size_singleton. }
  destruct (size_pos_elem_of (X ∖ byzantine env ∖ {[j1]})) as [j2 Hj2];
    [lia|].
  apply elem_of_difference in Hj2 as [Hj2 Hne].
  exists j1, j2. split; [set_solver|]. split; by apply Hin.
Qed.

End Lies.

(** ** The agreement property *)

(** The run of the counterexample with the orders exchanged: the Commander
    proposes RETREAT and the traitor relays ATTACK to both correct
    Lieutenants, which return RETREAT all the same. *)
Example liar_3_is_overruled (kByzantineMessageType kAckType : Z) :
  decision_after kByzantineMessageType kAckType liar_3
    (liar_3_schedule kByzantineMessageType) <$> [1; 2]
  = [Some RETREAT; Some RETREAT].
Proof. by vm_compute. Qed.

(** The setup of that run is harmless and within the bounds of the
    specification. *)
Lemma liar_3_harmless : harmless liar_3.
Proof.
  intros b a Hb _ Ha. simpl in Hb. apply elem_of_singleton in Hb. subst b.
  injection Ha as <-. split; [done|]. by intros a0 [= <-].
Qed.

Lemma liar_3_admissible : admissible liar_3.
Proof. repeat split; try (by vm_compute). by right. Qed.

(** C1, as the code has it. Agreement and validity hold in every run of a
    setup exactly when no lie is heeded in it. If every Byzantine process of
    the participant table runs on another host than the Commander and, in
    case there is one, the Commander proposes RETREAT, then, whatever n, m
    and the packets lost, repeated or late, all Lieutenants whose [Decide]
    has returned have returned the same order, the order that the Commander
    proposes, and it is the order that [Commander::Decide] returns; in
    particular so in every run without a Byzantine process. Conversely,
    where n >= 3m + 1 processes (n < 2^32) of which at most m are Byzantine
    are such that in every run the Lieutenants that have returned agree, on
    the proposal if the Commander is correct, the setup is of that kind. *)
Theorem agreement_exactly_when_harmless (kByzantineMessageType kAckType : Z)
    (env : Setup) :
  proposal env = ATTACK \/ proposal env = RETREAT ->
  (harmless env ->
   forall w p q o_p o_q,
     reachable kByzantineMessageType kAckType env w ->
     (lieutenants w !! p) ≫= Lieutenant_Decide = Some o_p ->
     (lieutenants w !! q) ≫= Lieutenant_Decide = Some o_q ->
     o_p = o_q
     /\ o_p = proposal env
     /\ (forall o, commander_returned w = Some o -> o = proposal env))
  /\ (admissible env ->
      Z.of_nat (length (participants env)) < 2 ^ 32 ->
      (forall w p q o_p o_q,
         reachable kByzantineMessageType kAckType env w ->
         (lieutenants w !! p) ≫= Lieutenant_Decide = Some o_p ->
         (lieutenants w !! q) ≫= Lieutenant_Decide = Some o_q ->
         o_p = o_q /\ (0 ∉ byzantine env -> o_p = proposal env)) ->
      harmless env).
Proof.
  intros Hprop. split.
  - intros Hharm w p q o_p o_q Hw Hp Hq.
    destruct (harmless_decision _ _ _ _ Hharm Hprop Hw) as [Hdecide Hcmd].
    rewrite (Hdecide p o_p Hp), (Hdecide q o_q Hq). done.
  - intros (Hn & Hm0 & Hbyz & _) Hn32 Hagree b a Hb Hpos Ha.
    assert (Hm1 : 1 <= tolerated env).
    { assert (size (byzantine env) <> 0%nat); [|lia].
      apply size_non_empty_iff. set_solver. }
    assert (Hm : 0 <= tolerated env < 2 ^ 32 - 1) by lia.
    assert (Hfit : is_uint32 (proposal env))
      by (destruct Hprop as [-> | ->]; by vm_compute).
    destruct (two_correct_lieutenants env Hn Hbyz Hm1)
      as (j1 & j2 & Hne & [Hj1 Hc1] & [Hj2 Hc2]).
    destruct (lookup_lt_is_Some_2 (participants env) 0) as [a0 Ha0]; [lia|].
    pose proof (initial_lieutenant env j1 Hj1 Hc1) as Hl1.
    pose proof (initial_lieutenant env j2 Hj2 Hc2) as Hl2.
    assert (Hw0 : reachable kByzantineMessageType kAckType env
                    (initial_world env)) by apply rtc_refl.
    destruct (decide (0 ∈ byzantine env)) as [H0|H0].
    { (* the Commander is Byzantine: two Lieutenants get two orders *)
      destruct (forged_order_decides kByzantineMessageType kAckType env
                  (initial_world env) 0 a0 a0 j1 ATTACK)
        as (w1 & Hw1 & Hd1 & Hq1); try done; [lia|by left|].
      destruct (forged_order_decides kByzantineMessageType kAckType env
                  w1 0 a0 a0 j2 RETREAT)
        as (w2 & Hw2 & Hd2 & Hq2); try done; [lia| |by right|].
      { rewrite Hq1 by done. exact Hl2. }
      rewrite <- Hq2 in Hd1 by done.
      by destruct (Hagree w2 j1 j2 ATTACK RETREAT Hw2 Hd1 Hd2). }
    split.
    + (* a relayed RETREAT overrules the ATTACK of the Commander *)
      destruct Hprop as [Hatt|Hret]; [|done].
      destruct (forged_relay_decides kByzantineMessageType kAckType env
                  b a j1) as (w & Hw & Hd); try done; [lia|].
      destruct (Hagree w j1 j1 RETREAT RETREAT Hw Hd Hd) as [_ Hval].
      rewrite Hatt in Hval. by specialize (Hval H0).
    + (* from the host of the Commander, the order can be forged *)
      intros a0' Ha0' Hhost.
      assert (Hother : exists o,
        (o = ATTACK \/ o = RETREAT) /\ o <> proposal env).
      { destruct Hprop as [-> | ->];
          [exists RETREAT|exists ATTACK]; split; auto; done. }
      destruct Hother as (o & Ho & Hno).
      destruct (forged_order_decides kByzantineMessageType kAckType env
                  (initial_world env) b a a0' j1 o)
        as (w & Hw & Hd & _); try done; [lia|].
      destruct (Hagree w j1 j1 o o Hw Hd Hd) as [_ Hval].
      by destruct (Hno (Hval H0)).
Qed.

Lemma agreement_exactly_when_harmless_witness :
  RETREAT = RETREAT
  /\ RETREAT = proposal liar_3
  /\ (forall o,
        commander_returned
          (default (initial_world liar_3)
             (schedule 1 2 liar_3 (liar_3_schedule 1)
                (initial_world liar_3))) = Some o ->
        o = proposal liar_3).
Proof.
  apply (proj1 (agreement_exactly_when_harmless 1 2 liar_3
                  (or_intror eq_refl))
           liar_3_harmless
           (default (initial_world liar_3)
              (schedule 1 2 liar_3 (liar_3_schedule 1)
                 (initial_world liar_3)))
           1 2 RETREAT RETREAT).
  - apply (schedule_reachable 1 2 liar_3 (liar_3_schedule 1)
             (initial_world liar_3)).
    + apply rtc_refl.
    + vm_compute. reflexivity.
  - vm_compute. reflexivity.
  - vm_compute. reflexivity.
Defined.
